(** * turbo-geth: storage change-set codec, history-index chunking, as-of lookup

    A shallow embedding of

    - the dictionary-compressed storage change-set codec
      ([EncodeStorage], [DecodeStorage], [StorageChangeSetBytes.Walk],
      [StorageChangeSetBytes.Find] and their helpers, package [changeset]);
    - the chunking policy of the history-index generator
      ([IndexGenerator.changeSetWalker], package [ethdb]);
    - the as-of point query exercised by [TestMutation_GetAsOf].

    Conventions.  Go's [int] is taken to be 64 bits wide; every [int] the
    codec computes is a sum of products of numbers read from 16- and 32-bit
    fields, far below 2^63, so [int] arithmetic is plain [Z] arithmetic.
    Unsigned conversions ([uint8(x)], [uint16(x)], [uint32(x)]) are written
    out as reductions modulo a power of two.  A byte slice is the list of its
    bytes, its capacity being its length; a run-time panic (index or slice
    bounds out of range, an explicit [panic(...)]) is the outcome [Panics]. *)

From Stdlib Require Import ZArith List Lia Bool Permutation Sorted.
From coqutil Require Import Byte Word.LittleEndianList.
Import ListNotations.
Local Open Scope Z_scope.

(* ===================================================================== *)
(** * Part I.  The model                                                   *)
(* ===================================================================== *)

(** ** Go values and run-time errors *)

Abbreviation bytes := (list byte).

Definition len {A : Type} (l : list A) : Z := Z.of_nat (length l).

Inductive outcome (A : Type) : Type :=
| Return (a : A)
| Panics.
Arguments Return {A} a.
Arguments Panics {A}.

Definition bind {A B : Type} (m : outcome A) (k : A -> outcome B) : outcome B :=
  match m with
  | Return a => k a
  | Panics => Panics
  end.

Notation "x <- m ;; k" := (bind m (fun x => k))
  (at level 61, m at next level, right associativity).

(** [b[lo:hi]] *)
Definition slice {A : Type} (b : list A) (lo hi : Z) : outcome (list A) :=
  if (0 <=? lo) && (lo <=? hi) && (hi <=? len b)
  then Return (firstn (Z.to_nat (hi - lo)) (skipn (Z.to_nat lo) b))
  else Panics.

(** [b[lo:]] *)
Definition sliceFrom {A : Type} (b : list A) (lo : Z) : outcome (list A) :=
  slice b lo (len b).

(** [b[i]] *)
Definition index (b : bytes) (i : Z) : outcome byte :=
  if (0 <=? i) && (i <? len b)
  then Return (nth (Z.to_nat i) b Byte.x00)
  else Panics.

(** [copy(dst, src)]: the first [min(len dst, len src)] bytes are
    overwritten, the rest of [dst] is kept. *)
Definition copy (dst src : bytes) : bytes :=
  firstn (length dst) src ++ skipn (length src) dst.

Definition uint8 (z : Z) : Z := z mod 2 ^ 8.
Definition uint16 (z : Z) : Z := z mod 2 ^ 16.
Definition uint32 (z : Z) : Z := z mod 2 ^ 32.
Definition uint64 (z : Z) : Z := z mod 2 ^ 64.

(** [^x] on a [uint64] *)
Definition not64 (x : Z) : Z := Z.lxor x (Z.ones 64).

(** ** encoding/binary, big endian *)

Definition beUint (b : bytes) : Z := le_combine (rev b).
Definition bePut (n : nat) (v : Z) : bytes := rev (le_split n v).

Definition Uint16 (b : bytes) : outcome Z :=
  if 2 <=? len b then Return (beUint (firstn 2 b)) else Panics.
Definition Uint32 (b : bytes) : outcome Z :=
  if 4 <=? len b then Return (beUint (firstn 4 b)) else Panics.
Definition Uint64 (b : bytes) : outcome Z :=
  if 8 <=? len b then Return (beUint (firstn 8 b)) else Panics.

(** [PutUintN] is only ever applied to a buffer of exactly N/8 bytes; the
    definitions give the buffer's content after the call. *)
Definition PutUint16 (v : Z) : bytes := bePut 2 v.
Definition PutUint32 (v : Z) : bytes := bePut 4 v.
Definition PutUint64 (v : Z) : bytes := bePut 8 v.

(** ** Go maps

    A map is an association list; [mapSet] drops an older binding of the
    key, so the length of the list is [len(m)]. *)

Section GoMap.
Context {K V : Type} (eqb : K -> K -> bool).

Fixpoint mapGet (m : list (K * V)) (k : K) : option V :=
  match m with
  | [] => None
  | (k', v) :: m' => if eqb k' k then Some v else mapGet m' k
  end.

Definition mapSet (m : list (K * V)) (k : K) (v : V) : list (K * V) :=
  (k, v) :: filter (fun p => negb (eqb (fst p) k)) m.

End GoMap.

(** [bytes.Equal] *)
Fixpoint bytesEqual (a b : bytes) : bool :=
  match a, b with
  | [], [] => true
  | x :: a', y :: b' => Byte.eqb x y && bytesEqual a' b'
  | _, _ => false
  end.

Definition changeKeyValueEqual (keyA valA keyB valB : bytes) : bool :=
  bytesEqual keyA keyB && bytesEqual valA valB.

(** [bytes.Compare] *)
Fixpoint bytesCompare (a b : bytes) : comparison :=
  match a, b with
  | [], [] => Eq
  | [], _ :: _ => Lt
  | _ :: _, [] => Gt
  | x :: a', y :: b' =>
      match Z.compare (byte.unsigned x) (byte.unsigned y) with
      | Eq => bytesCompare a' b'
      | c => c
      end
  end.

(** ** Package changeset: constants and types *)

Definition HashLength : Z := 32.
Definition IncarnationLength : Z := 8.

Definition DefaultIncarnation : Z := not64 1.
Definition storageEnodingIndexSize : Z := 4.
Definition storageEnodingStartElem : Z := 4.
Definition storageEnodingLengthOfNumOfElements : Z := 4.
Definition storageEnodingLengthOfDict : Z := 2.
Definition storageEnodingLengthOfNumTypeOfElements : Z := 2.
Definition storageEnodingLengthOfIncarnationKey : Z := 4.

Inductive error : Type :=
| ErrNotFound
| ErrInputTooShort (n : Z)
| ErrIncarnationPart (n : Z)
| ErrCallback (code : Z)
| ErrKeyNotFound
| ErrDatabase (code : Z)
| ErrHistoryInconsistent.

Record Change : Type := { Key : bytes; Value : bytes }.

Record ChangeSet : Type := { Changes : list Change; keyLen : Z }.

Definition NewStorageChangeSet : ChangeSet :=
  {| Changes := []; keyLen := 2 * HashLength + IncarnationLength |}.

(** ** Width helpers *)

Definition getNumOfBytesByLen (n : Z) : Z :=
  if n <? 255 then 1
  else if n <? 65535 then 2
  else if n <? 4294967295 then 4
  else 8.

(** [writeKeyRow(id, row)]: the content of [row] after the call, [row]
    being a buffer of [rowLen] bytes. *)
Definition writeKeyRow (id : Z) (rowLen : Z) : outcome bytes :=
  if rowLen =? 1 then Return [byte.of_Z (uint8 id)]
  else if rowLen =? 2 then Return (PutUint16 (uint16 id))
  else if rowLen =? 4 then Return (PutUint32 id)
  else if rowLen =? 8 then Return (PutUint64 id)
  else Panics.

Definition getUint32 (row : bytes) : outcome Z :=
  if len row =? 1 then Return (byte.unsigned (nth 0 row Byte.x00))
  else if len row =? 2 then Return (beUint row)
  else if len row =? 4 then Return (beUint row)
  else if len row =? 8 then Return (uint32 (beUint row))
  else Panics.

(** [m[k]] on a [map[uint32]common.Hash]: the zero hash when [k] is
    absent. *)
Definition mapGetHash (m : list (Z * bytes)) (k : Z) : bytes :=
  match mapGet Z.eqb m k with
  | Some h => h
  | None => repeat Byte.x00 (Z.to_nat HashLength)
  end.

Definition readFromMap (m : list (Z * bytes)) (row : bytes) : outcome bytes :=
  if len row =? 1 then Return (mapGetHash m (byte.unsigned (nth 0 row Byte.x00)))
  else if len row =? 2 then Return (mapGetHash m (beUint row))
  else if len row =? 4 then Return (mapGetHash m (beUint row))
  else if len row =? 8 then Return (mapGetHash m (uint32 (beUint row)))
  else Panics.

Definition calculateIncarnationPos3 (b : bytes) (numOfUint8 numOfUint16 numOfUint32 : Z)
  : outcome Z :=
  if 0 <? numOfUint32 then
    let end_ := numOfUint8 + numOfUint16 * 2 + numOfUint32 * 4 in
    s <- slice b (end_ - 4) end_ ;;
    v <- Uint32 s ;;
    Return (v + end_)
  else if 0 <? numOfUint16 then
    let end_ := numOfUint8 + numOfUint16 * 2 in
    s <- slice b (end_ - 2) end_ ;;
    v <- Uint16 s ;;
    Return (v + end_)
  else if 0 <? numOfUint8 then
    let end_ := numOfUint8 in
    e <- index b (end_ - 1) ;;
    Return (byte.unsigned e + end_)
  else Return 0.

Definition findVal (lenOfVals values : bytes) (i numOfUint8 numOfUint16 numOfUint32 : Z)
  : outcome bytes :=
  if i <? numOfUint8 then
    e <- index lenOfVals i ;;
    let lenOfValEnd := byte.unsigned e in
    lenOfValStart <-
      (if 0 <? i then s <- index lenOfVals (i - 1) ;; Return (byte.unsigned s)
       else Return 0) ;;
    slice values lenOfValStart lenOfValEnd
  else if i <? numOfUint8 + numOfUint16 then
    let one := i * 2 - numOfUint8 in
    eb <- slice lenOfVals one (one + 2) ;;
    lenOfValEnd <- Uint16 eb ;;
    lenOfValStart <-
      (if i - 1 <? numOfUint8 then
         s <- index lenOfVals (i - 1) ;; Return (byte.unsigned s)
       else
         let one := (i - 1) * 2 - numOfUint8 in
         sb <- slice lenOfVals one (one + 2) ;; Uint16 sb) ;;
    slice values lenOfValStart lenOfValEnd
  else if i <? numOfUint8 + numOfUint16 + numOfUint32 then
    let one := numOfUint8 + numOfUint16 * 2 + (i - numOfUint8 - numOfUint16) * 4 in
    eb <- slice lenOfVals one (one + 4) ;;
    lenOfValEnd <- Uint32 eb ;;
    lenOfValStart <-
      (if i - 1 <? numOfUint8 + numOfUint16 then
         let one := (i - 1) * 2 - numOfUint8 in
         sb <- slice lenOfVals one (one + 2) ;; Uint16 sb
       else
         let one := numOfUint8 + numOfUint16 * 2 + (i - 1 - numOfUint8 - numOfUint16) * 4 in
         sb <- slice lenOfVals one (one + 4) ;; Uint32 sb) ;;
    slice values lenOfValStart lenOfValEnd
  else Panics.

(** ** Loops *)

(** [for i := start; ...; i += step { body }], [n] iterations. *)
Fixpoint forLoop {S : Type} (n : nat) (i step : Z) (body : Z -> S -> outcome S) (s : S)
  : outcome S :=
  match n with
  | O => Return s
  | S n' => s' <- body i s ;; forLoop n' (i + step) step body s'
  end.

(** ** Sorting the change-set *)

(** Modelled from the spec: [ChangeSet]'s [Len]/[Less]/[Swap] are not among
    the sources.  The spec has a ChangeSet "sorted ascending by Key before
    encoding"; [sort.Sort] is therefore any sort by [bytes.Compare] on the
    keys, here an insertion sort.  ([sort.Sort] is not stable: the model is
    exact on change-sets with unique keys, which the spec requires.) *)
Definition changeLess (a b : Change) : bool :=
  match bytesCompare (Key a) (Key b) with
  | Lt => true
  | _ => false
  end.

Fixpoint insertChange (c : Change) (l : list Change) : list Change :=
  match l with
  | [] => [c]
  | d :: l' => if changeLess d c then d :: insertChange c l' else c :: d :: l'
  end.

Definition sortChanges (l : list Change) : list Change :=
  fold_right insertChange [] l.

(** ** EncodeStorage *)

Record addrState : Type := {
  addrHashesMap : list (bytes * Z);
  addrHashList : bytes;
  notDefaultIncarnationList : bytes;
  nextIDAddrHash : Z
}.

Definition initAddrState : addrState :=
  {| addrHashesMap := []; addrHashList := [];
     notDefaultIncarnationList := []; nextIDAddrHash := 0 |}.

(** The first loop: "collect information about unique addHashes and non
    default incarnations". *)
Fixpoint collectAddrs (cs : list Change) (i : Z) (st : addrState) : outcome addrState :=
  match cs with
  | [] => Return st
  | c :: rest =>
      addrHash <- slice (Key c) 0 HashLength ;;
      match mapGet bytesEqual (addrHashesMap st) addrHash with
      | Some _ => collectAddrs rest (i + 1) st
      | None =>
          incB <- slice (Key c) HashLength (HashLength + IncarnationLength) ;;
          v <- Uint64 incB ;;
          let incarnation := not64 v in
          let nd :=
            if incarnation =? DefaultIncarnation
            then notDefaultIncarnationList st
            else notDefaultIncarnationList st
                 ++ PutUint32 (uint32 i) ++ PutUint64 (not64 incarnation) in
          collectAddrs rest (i + 1)
            {| addrHashesMap := mapSet bytesEqual (addrHashesMap st) addrHash (nextIDAddrHash st);
               addrHashList := addrHashList st ++ addrHash;
               notDefaultIncarnationList := nd;
               nextIDAddrHash := uint32 (nextIDAddrHash st + 1) |}
      end
  end.

Record rowState : Type := {
  keys : bytes;
  lengthes : bytes;
  values : bytes;
  numOfUint8 : Z;
  numOfUint16 : Z;
  numOfUint32 : Z;
  lengthOfValues : Z
}.

Definition initRowState : rowState :=
  {| keys := [];
     lengthes := repeat Byte.x00 (Z.to_nat (storageEnodingLengthOfNumTypeOfElements * 3));
     values := [];
     numOfUint8 := 0; numOfUint16 := 0; numOfUint32 := 0;
     lengthOfValues := 0 |}.

(** The second loop: one key row, one cumulative length and the value
    bytes per change. *)
Fixpoint writeRows (cs : list Change) (m : list (bytes * Z)) (lenOfAddr : Z) (st : rowState)
  : outcome rowState :=
  match cs with
  | [] => Return st
  | c :: rest =>
      a <- slice (Key c) 0 HashLength ;;
      let id := match mapGet bytesEqual m a with Some d => d | None => 0 end in
      idRow <- writeKeyRow id lenOfAddr ;;
      kh <- slice (Key c) (IncarnationLength + HashLength)
                          (IncarnationLength + 2 * HashLength) ;;
      let row := idRow ++ kh in
      let lov := uint32 (lengthOfValues st + uint32 (len (Value c))) in
      let st' :=
        if lov <=? 255 then
          {| keys := keys st ++ row;
             lengthes := lengthes st ++ [byte.of_Z (uint8 lov)];
             values := values st ++ Value c;
             numOfUint8 := uint16 (numOfUint8 st + 1);
             numOfUint16 := numOfUint16 st;
             numOfUint32 := numOfUint32 st;
             lengthOfValues := lov |}
        else if lov <=? 65535 then
          {| keys := keys st ++ row;
             lengthes := lengthes st ++ PutUint16 (uint16 lov);
             values := values st ++ Value c;
             numOfUint8 := numOfUint8 st;
             numOfUint16 := uint16 (numOfUint16 st + 1);
             numOfUint32 := numOfUint32 st;
             lengthOfValues := lov |}
        else
          {| keys := keys st ++ row;
             lengthes := lengthes st ++ PutUint32 lov;
             values := values st ++ Value c;
             numOfUint8 := numOfUint8 st;
             numOfUint16 := numOfUint16 st;
             numOfUint32 := uint16 (numOfUint32 st + 1);
             lengthOfValues := lov |} in
      writeRows rest m lenOfAddr st'
  end.

(** [EncodeStorage(s)] returns the change-set as [sort.Sort] left it and the
    encoded bytes.  The [error] result of the Go function is always [nil]
    ([bytes.Buffer.Write] does not fail) and is left out. *)
Definition EncodeStorage (s : ChangeSet) : outcome (ChangeSet * bytes) :=
  let s' := {| Changes := sortChanges (Changes s); keyLen := keyLen s |} in
  let n := len (Changes s') in
  let uint32Arr := PutUint32 (uint32 n) in
  st <- collectAddrs (Changes s') 0 initAddrState ;;
  let numOfUniqAddrHashes := PutUint16 (uint16 (len (addrHashesMap st))) in
  let lenOfAddr := getNumOfBytesByLen (len (addrHashesMap st)) in
  rs <- writeRows (Changes s') (addrHashesMap st) lenOfAddr initRowState ;;
  let lengthes' :=
    PutUint16 (numOfUint8 rs) ++ PutUint16 (numOfUint16 rs) ++ PutUint16 (numOfUint32 rs)
    ++ skipn (Z.to_nat (3 * storageEnodingLengthOfNumTypeOfElements)) (lengthes rs) in
  Return (s', uint32Arr ++ numOfUniqAddrHashes ++ addrHashList st ++ keys rs
              ++ lengthes' ++ values rs ++ notDefaultIncarnationList st).

(** ** DecodeStorage *)

Definition emptyChange : Change := {| Key := []; Value := [] |}.

(** The address-hash dictionary, by position. *)
Definition readDict (b : bytes) (dictLen : Z) : outcome (list (Z * bytes)) :=
  forLoop (Z.to_nat dictLen) 0 1
    (fun i m =>
       let elemStart :=
         storageEnodingLengthOfNumOfElements + storageEnodingLengthOfDict + i * HashLength in
       h <- slice b elemStart (elemStart + HashLength) ;;
       Return (mapSet Z.eqb m (uint32 i) h))
    [].

(** The trailing 12-byte records, from [incarnationPosition] to the end. *)
Definition readIncarnations (b : bytes) (incarnationPosition : Z) : outcome (list (Z * Z)) :=
  forLoop (Z.to_nat ((len b - incarnationPosition + 11) / 12)) incarnationPosition 12
    (fun i m =>
       idb <- slice b i (i + 4) ;;
       id <- Uint32 idb ;;
       incb <- slice b (i + 4) (i + 12) ;;
       v <- Uint64 incb ;;
       Return (mapSet Z.eqb m id (not64 v)))
    [].

(** The incarnation bytes of a rebuilt key. *)
Definition incarnationBytes (notDefaultIncarnation : list (Z * Z)) (addrIdx : Z) : bytes :=
  match mapGet Z.eqb notDefaultIncarnation addrIdx with
  | Some inc => PutUint64 (not64 inc)
  | None => PutUint64 (not64 DefaultIncarnation)
  end.

Definition mapGetBytes (m : list (Z * bytes)) (k : Z) : bytes :=
  match mapGet Z.eqb m k with
  | Some h => h
  | None => []
  end.

Definition decodeElement (b : bytes) (addMap : list (Z * bytes))
    (notDefaultIncarnation : list (Z * Z))
    (elementStart lenOfAddHash lenOfValsPos valuesPos n8 n16 n32 : Z) (i : Z)
  : outcome Change :=
  let elem := elementStart + i * (lenOfAddHash + HashLength) in
  row <- slice b elem (elem + lenOfAddHash) ;;
  addrIdx <- getUint32 row ;;
  let addr := copy (repeat Byte.x00 (Z.to_nat HashLength)) (mapGetBytes addMap addrIdx) in
  let inc := incarnationBytes notDefaultIncarnation addrIdx in
  kh <- slice b (elem + lenOfAddHash) (elem + lenOfAddHash + HashLength) ;;
  lenOfVals <- slice b lenOfValsPos valuesPos ;;
  vals <- sliceFrom b valuesPos ;;
  v <- findVal lenOfVals vals i n8 n16 n32 ;;
  Return {| Key := addr ++ inc ++ kh; Value := v |}.

Definition DecodeStorage (b : bytes) : outcome (ChangeSet * option error) :=
  let h := NewStorageChangeSet in
  if len b =? 0 then Return (h, None)
  else if len b <? 4 then Return (h, Some (ErrInputTooShort (len b)))
  else
    nb <- slice b 0 storageEnodingLengthOfNumOfElements ;;
    numOfElements <- Uint32 nb ;;
    let h := {| Changes := repeat emptyChange (Z.to_nat numOfElements);
                keyLen := keyLen h |} in
    if numOfElements =? 0 then Return (h, None)
    else
      db <- slice b storageEnodingLengthOfNumOfElements
                    (storageEnodingLengthOfNumOfElements + storageEnodingLengthOfDict) ;;
      dictLen <- Uint16 db ;;
      addMap <- readDict b dictLen ;;
      let lenOfValsPos :=
        storageEnodingStartElem + 2 + dictLen * HashLength
        + numOfElements * (getNumOfBytesByLen dictLen + HashLength) in
      b8 <- slice b lenOfValsPos (lenOfValsPos + 2) ;;
      n8 <- Uint16 b8 ;;
      b16 <- slice b (lenOfValsPos + 2) (lenOfValsPos + 4) ;;
      n16 <- Uint16 b16 ;;
      b32 <- slice b (lenOfValsPos + 4) (lenOfValsPos + 6) ;;
      n32 <- Uint16 b32 ;;
      let lenOfValsPos := lenOfValsPos + 3 * storageEnodingLengthOfNumTypeOfElements in
      let valuesPos := lenOfValsPos + n8 + n16 * 2 + n32 * 4 in
      tail <- sliceFrom b lenOfValsPos ;;
      off <- calculateIncarnationPos3 tail n8 n16 n32 ;;
      let incarnationPosition := lenOfValsPos + off in
      if (incarnationPosition <? len b)
         && negb ((len b - incarnationPosition) mod 12 =? 0)
      then Return (h, Some (ErrIncarnationPart (len b - incarnationPosition)))
      else
        notDefaultIncarnation <-
          (if incarnationPosition <? len b
           then readIncarnations b incarnationPosition
           else Return []) ;;
        let elementStart :=
          storageEnodingStartElem + storageEnodingLengthOfDict + dictLen * HashLength in
        let lenOfAddHash := getNumOfBytesByLen (len addMap) in
        changes <-
          forLoop (Z.to_nat numOfElements) 0 1
            (fun i acc =>
               c <- decodeElement b addMap notDefaultIncarnation elementStart lenOfAddHash
                      lenOfValsPos valuesPos n8 n16 n32 i ;;
               Return (acc ++ [c]))
            [] ;;
        Return ({| Changes := changes; keyLen := keyLen h |}, None).

(** ** StorageChangeSetBytes.Walk *)

(** The callback [f] may keep state of its own (type [St]) and may fail. *)
Fixpoint walkElements {St : Type} (f : bytes -> bytes -> St -> St * option error)
    (b : bytes) (addrHashMap : list (Z * bytes)) (notDefaultIncarnation : list (Z * Z))
    (numOfUniqueItems elemLength lenOfValsPos valuesPos n8 n16 n32 : Z)
    (n : nat) (i : Z) (key : bytes) (st : St) : outcome (St * option error) :=
  match n with
  | O => Return (st, None)
  | S n' =>
      let elemStart :=
        storageEnodingStartElem + storageEnodingLengthOfDict
        + numOfUniqueItems * HashLength + i * (elemLength + HashLength) in
      row <- slice b elemStart (elemStart + elemLength) ;;
      addrIdx <- getUint32 row ;;
      let addr := copy (firstn (Z.to_nat HashLength) key) (mapGetBytes addrHashMap addrIdx) in
      let inc := incarnationBytes notDefaultIncarnation addrIdx in
      kh <- slice b (elemStart + elemLength) (elemStart + elemLength + HashLength) ;;
      let key' := addr ++ inc ++ kh in
      lenOfVals <- slice b lenOfValsPos valuesPos ;;
      vals <- sliceFrom b valuesPos ;;
      v <- findVal lenOfVals vals i n8 n16 n32 ;;
      match f key' v st with
      | (st', Some err) => Return (st', Some err)
      | (st', None) =>
          walkElements f b addrHashMap notDefaultIncarnation numOfUniqueItems elemLength
            lenOfValsPos valuesPos n8 n16 n32 n' (i + 1) key' st'
      end
  end.

Definition Walk {St : Type} (b : bytes) (f : bytes -> bytes -> St -> St * option error)
    (st : St) : outcome (St * option error) :=
  if len b =? 0 then Return (st, None)
  else if len b <? 8 then Return (st, Some (ErrInputTooShort (len b)))
  else
    nb <- slice b 0 4 ;;
    numOfItems <- Uint32 nb ;;
    if numOfItems =? 0 then Return (st, None)
    else
      db <- slice b storageEnodingLengthOfNumOfElements
                    (storageEnodingLengthOfNumOfElements + storageEnodingLengthOfDict) ;;
      numOfUniqueItems <- Uint16 db ;;
      let lenOfValsPos :=
        storageEnodingStartElem + storageEnodingLengthOfDict
        + numOfUniqueItems * HashLength
        + numOfItems * (getNumOfBytesByLen numOfUniqueItems + HashLength) in
      b8 <- slice b lenOfValsPos (lenOfValsPos + storageEnodingLengthOfNumTypeOfElements) ;;
      n8 <- Uint16 b8 ;;
      b16 <- slice b (lenOfValsPos + storageEnodingLengthOfNumTypeOfElements)
                     (lenOfValsPos + storageEnodingLengthOfNumTypeOfElements * 2) ;;
      n16 <- Uint16 b16 ;;
      b32 <- slice b (lenOfValsPos + storageEnodingLengthOfNumTypeOfElements * 2)
                     (lenOfValsPos + storageEnodingLengthOfNumTypeOfElements * 3) ;;
      n32 <- Uint16 b32 ;;
      let lenOfValsPos := lenOfValsPos + storageEnodingLengthOfNumTypeOfElements * 3 in
      let valuesPos := lenOfValsPos + n8 + n16 * 2 + n32 * 4 in
      tail <- sliceFrom b lenOfValsPos ;;
      off <- calculateIncarnationPos3 tail n8 n16 n32 ;;
      let incarnationPosition := lenOfValsPos + off in
      if (incarnationPosition <? len b)
         && negb ((len b - incarnationPosition) mod 12 =? 0)
      then Return (st, Some (ErrIncarnationPart (len b - incarnationPosition)))
      else
        notDefaultIncarnation <-
          (if incarnationPosition <? len b
           then readIncarnations b incarnationPosition
           else Return []) ;;
        addrHashMap <- readDict b numOfUniqueItems ;;
        let key := repeat Byte.x00 (Z.to_nat (HashLength * 2 + IncarnationLength)) in
        let elemLength := getNumOfBytesByLen numOfUniqueItems in
        walkElements f b addrHashMap notDefaultIncarnation numOfUniqueItems elemLength
          lenOfValsPos valuesPos n8 n16 n32 (Z.to_nat numOfItems) 0 key st.

(** ** StorageChangeSetBytes.Find *)

(** The first loop of [Find]: the position of [addrHash] in the dictionary. *)
Fixpoint findAddrHash (b addrHash : bytes) (n : nat) (i : Z) : outcome (option Z) :=
  match n with
  | O => Return None
  | S n' =>
      let elemStart :=
        storageEnodingLengthOfNumOfElements + storageEnodingLengthOfDict + i * HashLength in
      h <- slice b elemStart (elemStart + HashLength) ;;
      if bytesEqual addrHash h then Return (Some (uint32 i))
      else findAddrHash b addrHash n' (i + 1)
  end.

(** The second loop of [Find].  A value that is found is never [nil]
    ([common.CopyBytes] of a slice of a non-nil slice), hence [Some]. *)
Fixpoint findElement (b encodedAddHashID keyHash : bytes)
    (numOfUniqueItems elemLength lenOfValsPos valuesPos n8 n16 n32 : Z)
    (n : nat) (i : Z) : outcome (option bytes * option error) :=
  match n with
  | O => Return (None, Some ErrNotFound)
  | S n' =>
      let elemStart :=
        storageEnodingStartElem + storageEnodingLengthOfDict
        + numOfUniqueItems * HashLength + i * (elemLength + HashLength) in
      row <- slice b elemStart (elemStart + elemLength) ;;
      if negb (bytesEqual encodedAddHashID row) then
        findElement b encodedAddHashID keyHash numOfUniqueItems elemLength
          lenOfValsPos valuesPos n8 n16 n32 n' (i + 1)
      else
        kh <- slice b (elemStart + elemLength) (elemStart + elemLength + HashLength) ;;
        if negb (bytesEqual keyHash kh) then
          findElement b encodedAddHashID keyHash numOfUniqueItems elemLength
            lenOfValsPos valuesPos n8 n16 n32 n' (i + 1)
        else
          lenOfVals <- slice b lenOfValsPos valuesPos ;;
          vals <- sliceFrom b valuesPos ;;
          v <- findVal lenOfVals vals i n8 n16 n32 ;;
          Return (Some v, None)
  end.

(** [Find] returns a Go pair (value, error); a [nil] value is [None]. *)
Definition Find (b addrHash keyHash : bytes) : outcome (option bytes * option error) :=
  if len b =? 0 then Return (None, None)
  else if len b <? 8 then Return (None, Some (ErrInputTooShort (len b)))
  else
    nb <- slice b 0 storageEnodingLengthOfNumOfElements ;;
    numOfItems <- Uint32 nb ;;
    if numOfItems =? 0 then Return (None, None)
    else
      db <- slice b storageEnodingLengthOfNumOfElements
                    (storageEnodingLengthOfNumOfElements + storageEnodingLengthOfDict) ;;
      numOfUniqueItems <- Uint16 db ;;
      found <- findAddrHash b addrHash (Z.to_nat numOfUniqueItems) 0 ;;
      match found with
      | None => Return (None, Some ErrNotFound)
      | Some addHashID =>
          let lenOfValsPos :=
            storageEnodingStartElem + storageEnodingLengthOfDict
            + numOfUniqueItems * HashLength
            + numOfItems * (getNumOfBytesByLen numOfUniqueItems + HashLength) in
          b8 <- slice b lenOfValsPos (lenOfValsPos + storageEnodingLengthOfNumTypeOfElements) ;;
          n8 <- Uint16 b8 ;;
          b16 <- slice b (lenOfValsPos + storageEnodingLengthOfNumTypeOfElements)
                         (lenOfValsPos + storageEnodingLengthOfNumTypeOfElements * 2) ;;
          n16 <- Uint16 b16 ;;
          b32 <- slice b (lenOfValsPos + storageEnodingLengthOfNumTypeOfElements * 2)
                         (lenOfValsPos + storageEnodingLengthOfNumTypeOfElements * 3) ;;
          n32 <- Uint16 b32 ;;
          let lenOfValsPos := lenOfValsPos + storageEnodingLengthOfNumTypeOfElements * 3 in
          let valuesPos := lenOfValsPos + n8 + n16 * 2 + n32 * 4 in
          let elemLength := getNumOfBytesByLen numOfUniqueItems in
          encodedAddHashID <- writeKeyRow addHashID elemLength ;;
          findElement b encodedAddHashID keyHash numOfUniqueItems elemLength
            lenOfValsPos valuesPos n8 n16 n32 (Z.to_nat numOfItems) 0
      end.

(** ** Package dbutils: history-index chunks *)

(** Modelled from the spec: package [dbutils] ([HistoryIndexBytes] with
    [NewHistoryIndex], [WrapHistoryIndex], [Append], [Decode]) is not among
    the sources.  The spec gives a chunk as an append-only ascending
    sequence of block numbers with an encoded byte length.  A chunk is
    therefore the list of the block numbers appended to it ([Decode] is the
    identity).  Its byte layout is given by no source: the generator reads
    nothing of a chunk but its encoded length, and the functions below take
    that length as the parameter [indexLen] (Go's [len(index)]). *)
Definition HistoryIndex : Type := list Z.

Definition NewHistoryIndex : HistoryIndex := [].

Definition Append (hi : HistoryIndex) (v : Z) : HistoryIndex := hi ++ [v].

(** ** Package ethdb: the index generator *)

(** [keyAndChunkID(key)]: a chunk key is an entity key (32 or 72 bytes)
    followed by 8 bytes, the bit-inverted chunk id; any other length
    panics. *)
Definition keyAndChunkID (key : bytes) : outcome (bytes * Z) :=
  if (len key =? HashLength + 8) || (len key =? HashLength * 2 + IncarnationLength + 8)
  then
    k <- slice key 0 (len key - 8) ;;
    t <- sliceFrom key (len key - 8) ;;
    v <- Uint64 t ;;
    Return (k, not64 v)
  else Panics.

Definition maxChunkSize : Z := 1000.

(** What [db.GetIndexChunk] may answer. *)
Inductive chunkLookup : Type :=
| ChunkFound (hi : HistoryIndex)
| ChunkKeyNotFound
| ChunkError (code : Z).

Definition FindProperIndexChunk (lookup : chunkLookup) : HistoryIndex + error :=
  match lookup with
  | ChunkKeyNotFound => inl NewHistoryIndex
  | ChunkError code => inr (ErrDatabase code)
  | ChunkFound hi => inl hi
  end.

(** [ig.cache]: per key, the chunks touched in this run, the open one last.
    The Go slice holds pointers and [Append] writes through the pointer
    taken from the slice: the chunk appended to is the last of the list. *)
Definition indexCache : Type := list (bytes * list HistoryIndex).

Definition cacheGet (cache : indexCache) (k : bytes) : option (list HistoryIndex) :=
  mapGet bytesEqual cache k.

(** [changeSetWalker(blockNum)(k, v)] on the generator's cache;
    [getIndexChunk] stands for [ig.db.GetIndexChunk(ig.bucketToWrite, ., .)]
    and [indexLen] for the encoded length of a chunk. *)
Definition changeSetWalker (indexLen : HistoryIndex -> Z)
    (getIndexChunk : bytes -> Z -> chunkLookup)
    (blockNum : Z) (k v : bytes) (cache : indexCache) : indexCache * option error :=
  let loaded :=
    match cacheGet cache k with
    | Some (i :: is_) => inl (i :: is_)
    | _ =>
        match FindProperIndexChunk (getIndexChunk k blockNum) with
        | inr err => inr err
        | inl index =>
            let index :=
              if maxChunkSize <? indexLen index + 8 then NewHistoryIndex else index in
            inl (match cacheGet cache k with Some is_ => is_ | None => [] end ++ [index])
        end
    end in
  match loaded with
  | inr err => (cache, Some err)
  | inl indexes =>
      let lastIndex := last indexes NewHistoryIndex in
      let indexes :=
        if maxChunkSize <? indexLen lastIndex + 8
        then indexes ++ [Append NewHistoryIndex blockNum]
        else removelast indexes ++ [Append lastIndex blockNum] in
      (mapSet bytesEqual cache k indexes, None)
  end.

(** One key changed in each of the blocks [blocks], in this order. *)
Fixpoint walkBlocks (indexLen : HistoryIndex -> Z)
    (getIndexChunk : bytes -> Z -> chunkLookup) (k : bytes)
    (blocks : list Z) (cache : indexCache) : indexCache * option error :=
  match blocks with
  | [] => (cache, None)
  | blockNum :: rest =>
      match changeSetWalker indexLen getIndexChunk blockNum k [] cache with
      | (cache', None) => walkBlocks indexLen getIndexChunk k rest cache'
      | (cache', Some err) => (cache', Some err)
      end
  end.

(** ** As-of point queries *)











(* ===================================================================== *)
(** * Part II.  Reference definitions                                      *)
(* ===================================================================== *)

(** ** Widths *)

Definition widths : list Z := [1; 2; 4; 8].

(** The number [n] is representable in [w] bytes. *)
Definition fitsWidth (w n : Z) : Prop := n < 2 ^ (8 * w).

(** [w] is the least of the widths 1, 2, 4, 8 in which [n] is representable. *)
Definition isMinimalWidth (w n : Z) : Prop :=
  In w widths /\ fitsWidth w n /\
  forall w', In w' widths -> fitsWidth w' n -> w <= w'.

(** ** The cumulative length table, read by position *)

(** Entry [i] of the table: the first [n8] entries are one byte wide, the
    next [n16] two bytes, the last [n32] four bytes. *)
Definition cumEntry (lenOfVals : bytes) (n8 n16 n32 i : Z) : outcome Z :=
  if i <? n8 then
    e <- index lenOfVals i ;; Return (byte.unsigned e)
  else if i <? n8 + n16 then
    let o := n8 + (i - n8) * 2 in
    s <- slice lenOfVals o (o + 2) ;; Uint16 s
  else if i <? n8 + n16 + n32 then
    let o := n8 + n16 * 2 + (i - n8 - n16) * 4 in
    s <- slice lenOfVals o (o + 4) ;; Uint32 s
  else Panics.

(** What the format asks of [findVal]: the bytes of [values] from the
    cumulative entry before [i] (0 for the first element) to entry [i]. *)
Definition findValSpec (lenOfVals values : bytes) (i n8 n16 n32 : Z) : outcome bytes :=
  e <- cumEntry lenOfVals n8 n16 n32 i ;;
  s <- (if i =? 0 then Return 0 else cumEntry lenOfVals n8 n16 n32 (i - 1)) ;;
  slice values s e.

(** Where [findVal] follows the format: [i] lies in the one-byte bucket, or
    in the two-byte bucket and is not the first element, or in the
    four-byte bucket, is not the first element and has its predecessor
    outside the one-byte bucket. *)
Definition findValCovers (n8 n16 n32 i : Z) : bool :=
  (0 <=? i) &&
  ((i <? n8)
   || ((n8 <=? i) && (1 <=? i) && (i <? n8 + n16))
   || ((n8 + n16 <=? i) && (1 <=? i) && (n8 <=? i - 1) && (i <? n8 + n16 + n32))).

(** ** Decoding what was encoded *)

Fixpoint changesEqual (l1 l2 : list Change) : bool :=
  match l1, l2 with
  | [], [] => true
  | c :: l1', d :: l2' =>
      changeKeyValueEqual (Key c) (Value c) (Key d) (Value d) && changesEqual l1' l2'
  | _, _ => false
  end.

Definition roundTrip (s : ChangeSet) : outcome (ChangeSet * option error) :=
  r <- EncodeStorage s ;; DecodeStorage (snd r).

Definition encoded (s : ChangeSet) : bytes :=
  match EncodeStorage s with
  | Return (_, b) => b
  | Panics => []
  end.

(** ** Sample data *)

Definition hash32 (x : byte) : bytes := repeat x 32.

(** A storage key: address-hash, bit-inverted incarnation, storage-key-hash. *)
Definition storageKey (addr : byte) (incarnation : Z) (key : byte) : bytes :=
  hash32 addr ++ PutUint64 (not64 incarnation) ++ hash32 key.

Definition storageSet (l : list Change) : ChangeSet :=
  {| Changes := l; keyLen := 2 * HashLength + IncarnationLength |}.

(** Three changes whose cumulative value lengths are 1, 2 and 65538: two
    one-byte table entries directly followed by a four-byte entry. *)
Definition csBucketGap : ChangeSet :=
  storageSet
    [ {| Key := storageKey Byte.x01 DefaultIncarnation Byte.x05; Value := [Byte.xaa] |};
      {| Key := storageKey Byte.x02 DefaultIncarnation Byte.x07; Value := [Byte.xab] |};
      {| Key := storageKey Byte.x03 DefaultIncarnation Byte.x09;
         Value := repeat Byte.xbb (Z.to_nat 65536) |} ].

(** One change whose value is 256 bytes long: the first table entry is two
    bytes wide. *)
Definition csFirstLong : ChangeSet :=
  storageSet
    [ {| Key := storageKey Byte.x01 DefaultIncarnation Byte.x05;
         Value := repeat Byte.xbb (Z.to_nat 256) |} ].

(** Address 01 occupies two entries; address 02, of incarnation 5, then has
    element index 2 and dictionary index 1. *)
Definition csSharedAddr : ChangeSet :=
  storageSet
    [ {| Key := storageKey Byte.x01 DefaultIncarnation Byte.x05; Value := [Byte.xaa] |};
      {| Key := storageKey Byte.x01 DefaultIncarnation Byte.x06; Value := [Byte.xab] |};
      {| Key := storageKey Byte.x02 5 Byte.x07; Value := [Byte.xac] |} ].

(** One address-hash under two incarnations. *)
Definition csTwoIncarnations : ChangeSet :=
  storageSet
    [ {| Key := storageKey Byte.x01 7 Byte.x05; Value := [Byte.xaa] |};
      {| Key := storageKey Byte.x01 5 Byte.x06; Value := [Byte.xab] |} ].

(** A change-set the codec handles: two addresses, the second of
    incarnation 5, values of 0, 1 and 300 bytes. *)
Definition csSample : ChangeSet :=
  storageSet
    [ {| Key := storageKey Byte.x01 DefaultIncarnation Byte.x05; Value := [] |};
      {| Key := storageKey Byte.x02 5 Byte.x06; Value := [Byte.xab] |};
      {| Key := storageKey Byte.x02 5 Byte.x07;
         Value := repeat Byte.xcc (Z.to_nat 300) |} ].

(** The encoding of the empty change-set followed by three stray bytes. *)
Definition emptyWithTrailer : bytes :=
  encoded (storageSet []) ++ [Byte.x01; Byte.x02; Byte.x03].

(** ** The order on changes *)

Definition keyLe (a b : Change) : Prop := bytesCompare (Key a) (Key b) <> Gt.

Definition keyLt (a b : Change) : Prop := bytesCompare (Key a) (Key b) = Lt.

(** Strictly ascending keys, as the spec asks of a ChangeSet. *)
Fixpoint sortedKeys (l : list Change) : bool :=
  match l with
  | [] => true
  | c :: l' =>
      match l' with
      | [] => true
      | d :: _ => changeLess c d && sortedKeys l'
      end
  end.

Definition outcomeMap {A B : Type} (f : A -> B) (o : outcome A) : outcome B :=
  match o with
  | Return a => Return (f a)
  | Panics => Panics
  end.

(** ** The chunk budget *)




(** The encoded length of a chunk that is [header] bytes followed by
    [width] bytes for each entry.  The spec speaks of 8-byte entries:
    [entryLen header 8]. *)
Definition entryLen (header width : Z) (hi : HistoryIndex) : Z :=
  header + width * len hi.



(** ** The scenario of TestMutation_GetAsOf *)



(** ** The layout of an encoding, as the format lays it out *)

(** The number of elements an encoding announces. *)
Definition announcedElements (b : bytes) : Z := beUint (firstn 4 b).

(** The offset at which the trailing incarnation exceptions begin: behind
    the two counts, the dictionary, the key rows, the three bucket counts,
    the cumulative length table and the value bytes, whose total length is
    the last entry of the table. *)
Definition exceptionsStart (b : bytes) : outcome Z :=
  nb <- slice b 0 4 ;;
  n <- Uint32 nb ;;
  db <- slice b 4 (4 + 2) ;;
  d <- Uint16 db ;;
  let countsPos := 4 + 2 + d * 32 + n * (getNumOfBytesByLen d + 32) in
  b8 <- slice b countsPos (countsPos + 2) ;;
  n8 <- Uint16 b8 ;;
  b16 <- slice b (countsPos + 2) (countsPos + 4) ;;
  n16 <- Uint16 b16 ;;
  b32 <- slice b (countsPos + 4) (countsPos + 6) ;;
  n32 <- Uint16 b32 ;;
  tail <- sliceFrom b (countsPos + 3 * 2) ;;
  off <- calculateIncarnationPos3 tail n8 n16 n32 ;;
  Return (countsPos + 3 * 2 + off).

(** ** The parts of a storage key *)

Definition addrHashOf (c : Change) : bytes := firstn 32 (Key c).

(** The incarnation as the key stores it, bit-inverted. *)
Definition incarnationOf (c : Change) : bytes := firstn 8 (skipn 32 (Key c)).

Definition keyHashOf (c : Change) : bytes := firstn 32 (skipn 40 (Key c)).

(** The key carries the default incarnation. *)
Definition hasDefaultIncarnation (c : Change) : bool :=
  not64 (beUint (incarnationOf c)) =? DefaultIncarnation.

(** The position of [h] in [l]. *)
Fixpoint indexOf (h : bytes) (l : list bytes) : option Z :=
  match l with
  | [] => None
  | x :: l' =>
      if bytesEqual x h then Some 0
      else match indexOf h l' with
           | Some i => Some (i + 1)
           | None => None
           end
  end.

(** The dictionary of a change-set: its address-hashes in first-seen order. *)
Fixpoint dictionaryFrom (dict : list bytes) (l : list Change) : list bytes :=
  match l with
  | [] => dict
  | c :: l' =>
      match indexOf (addrHashOf c) dict with
      | Some _ => dictionaryFrom dict l'
      | None => dictionaryFrom (dict ++ [addrHashOf c]) l'
      end
  end.

Definition dictionaryOf (l : list Change) : list bytes := dictionaryFrom [] l.

(** The cumulative value lengths of the elements of [l], from [s]. *)
Fixpoint cumLens (s : Z) (l : list Change) : list Z :=
  match l with
  | [] => []
  | c :: l' => (s + len (Value c)) :: cumLens (s + len (Value c)) l'
  end.

Fixpoint totalLen (l : list Change) : Z :=
  match l with
  | [] => 0
  | c :: l' => len (Value c) + totalLen l'
  end.

(** The width of the table entry of a cumulative length. *)
Definition entryWidth (c : Z) : Z :=
  if c <=? 255 then 1 else if c <=? 65535 then 2 else 4.

Definition countWidth (w : Z) (cums : list Z) : Z :=
  len (filter (fun c => entryWidth c =? w) cums).

(** The first match of [Find]'s scan: the value of the first change with
    the given address-hash and storage-key-hash. *)
Fixpoint lookupChange (l : list Change) (addrHash keyHash : bytes) : option bytes :=
  match l with
  | [] => None
  | c :: l' =>
      if bytesEqual addrHash (addrHashOf c) && bytesEqual keyHash (keyHashOf c)
      then Some (Value c)
      else lookupChange l' addrHash keyHash
  end.

(** ** The change-sets the codec carries *)

(** Every key is 72 bytes long. *)
Definition keysWellFormed (l : list Change) : bool :=
  forallb (fun c => len (Key c) =? 72) l.

(** The sizes fit the fields of the format: at most 65535 address-hashes,
    at most 65535 entries in each bucket of the length table, less than
    2^32 value bytes. *)
Definition fitsFormat (l : list Change) : bool :=
  (len (dictionaryOf l) <=? 65535)
  && (countWidth 1 (cumLens 0 l) <=? 65535)
  && (countWidth 2 (cumLens 0 l) <=? 65535)
  && (countWidth 4 (cumLens 0 l) <=? 65535)
  && (totalLen l <? 2 ^ 32).

(** [findVal] follows the format at every element: see [findValCovers]. *)
Definition tableCovered (l : list Change) : bool :=
  let cums := cumLens 0 l in
  forallb
    (fun i => findValCovers (countWidth 1 cums) (countWidth 2 cums) (countWidth 4 cums)
                (Z.of_nat i))
    (seq 0 (length l)).

(** The changes of one address-hash carry one incarnation. *)
Definition oneIncarnationPerAddress (l : list Change) : bool :=
  forallb
    (fun c =>
       forallb
         (fun d =>
            negb (bytesEqual (addrHashOf c) (addrHashOf d))
            || bytesEqual (incarnationOf c) (incarnationOf d))
         l)
    l.

(** An address-hash of non-default incarnation is first seen at the element
    whose index is its dictionary index. *)
Definition exceptionsAddressable (l : list Change) : bool :=
  forallb
    (fun c =>
       hasDefaultIncarnation c
       || match indexOf (addrHashOf c) (map addrHashOf l),
                indexOf (addrHashOf c) (dictionaryOf l) with
          | Some i, Some d => i =? d
          | _, _ => false
          end)
    l.

(** ** The layout of the format (spec 4.1), written out *)

(** A dictionary index in [w] bytes. *)
Definition dictIndexBytes (w d : Z) : bytes :=
  if w =? 1 then [byte.of_Z (uint8 d)]
  else if w =? 2 then PutUint16 (uint16 d)
  else if w =? 4 then PutUint32 d
  else PutUint64 d.

Definition dictIndexOf (dict : list bytes) (c : Change) : Z :=
  match indexOf (addrHashOf c) dict with
  | Some d => d
  | None => 0
  end.

(** The key row of a change: dictionary index, storage-key-hash. *)
Definition rowOf (dict : list bytes) (w : Z) (c : Change) : bytes :=
  dictIndexBytes w (dictIndexOf dict c) ++ keyHashOf c.

(** The table entry of a cumulative length, in the narrowest of the three
    widths that holds it. *)
Definition tableEntry (c : Z) : bytes :=
  if c <=? 255 then [byte.of_Z (uint8 c)]
  else if c <=? 65535 then PutUint16 (uint16 c)
  else PutUint32 c.

(** The exceptions the encoder writes: for every address-hash of
    non-default incarnation, the index of the element where the hash is
    first seen, and the incarnation bytes of that element. *)
Fixpoint exceptionsFrom (dict : list bytes) (i : Z) (l : list Change) : list (Z * bytes) :=
  match l with
  | [] => []
  | c :: l' =>
      match indexOf (addrHashOf c) dict with
      | Some _ => exceptionsFrom dict (i + 1) l'
      | None =>
          (if hasDefaultIncarnation c then [] else [(uint32 i, incarnationOf c)])
          ++ exceptionsFrom (dict ++ [addrHashOf c]) (i + 1) l'
      end
  end.

Definition exceptionRecord (e : Z * bytes) : bytes := PutUint32 (fst e) ++ snd e.

Definition layoutOf (l : list Change) : bytes :=
  let dict := dictionaryOf l in
  let w := getNumOfBytesByLen (len dict) in
  let cums := cumLens 0 l in
  PutUint32 (len l) ++ PutUint16 (len dict)
  ++ concat dict
  ++ flat_map (rowOf dict w) l
  ++ (PutUint16 (countWidth 1 cums) ++ PutUint16 (countWidth 2 cums)
      ++ PutUint16 (countWidth 4 cums) ++ flat_map tableEntry cums)
  ++ flat_map Value l
  ++ flat_map exceptionRecord (exceptionsFrom [] 0 l).

(** ** Loop invariants of the encoder *)

(** The state of the first loop holds the dictionary [dict]. *)
Definition dictState (st : addrState) (dict : list bytes) : Prop :=
  addrHashList st = concat dict
  /\ nextIDAddrHash st = len dict
  /\ len (addrHashesMap st) = len dict
  /\ forall h, mapGet bytesEqual (addrHashesMap st) h = indexOf h dict.

Definition hashes32 (dict : list bytes) : Prop := Forall (fun h => len h = 32) dict.

(** ** What the decoders read back *)

(** The dictionary map after [readDict]: index to address-hash. *)
Definition dictEntry (dict : list bytes) (d : Z) : option bytes :=
  if (0 <=? d) && (d <? len dict) then nth_error dict (Z.to_nat d) else None.

(** The exceptions map after [readIncarnations]: a later record for an
    index replaces an earlier one. *)
Definition insertException (m : list (Z * Z)) (e : Z * bytes) : list (Z * Z) :=
  mapSet Z.eqb m (fst e) (not64 (beUint (snd e))).

Fixpoint lastException (d : Z) (excs : list (Z * bytes)) : option bytes :=
  match excs with
  | [] => None
  | e :: excs' =>
      match lastException d excs' with
      | Some x => Some x
      | None => if fst e =? d then Some (snd e) else None
      end
  end.

(** ** What a walk over a change-set is *)

(** The callback applied to the changes in order, up to and including the
    first call that fails. *)
Fixpoint visitChanges {St : Type} (f : bytes -> bytes -> St -> St * option error)
    (l : list Change) (st : St) : St * option error :=
  match l with
  | [] => (st, None)
  | c :: l' =>
      match f (Key c) (Value c) st with
      | (st', Some err) => (st', Some err)
      | (st', None) => visitChanges f l' st'
      end
  end.

(* ===================================================================== *)
(** * Part III.  Properties                                                *)
(* ===================================================================== *)

(** ** Lengths, slices, big-endian integers *)

Lemma len_nonneg {A} (l : list A) : 0 <= len l.
Proof. unfold len. lia. Qed.

Lemma len_nil {A} : len (@nil A) = 0.
Proof. reflexivity. Qed.

Lemma len_cons {A} (x : A) l : len (x :: l) = 1 + len l.
Proof. unfold len. cbn [length]. lia. Qed.

Lemma len_app {A} (a b : list A) : len (a ++ b) = len a + len b.
Proof. unfold len. rewrite length_app. lia. Qed.

Lemma len_repeat {A} (x : A) n : len (repeat x n) = Z.of_nat n.
Proof. unfold len. now rewrite repeat_length. Qed.

Lemma len_bePut n v : len (bePut n v) = Z.of_nat n.
Proof. unfold len, bePut. now rewrite length_rev, length_le_split. Qed.

Lemma len_PutUint16 v : len (PutUint16 v) = 2.
Proof. apply len_bePut. Qed.

Lemma len_PutUint32 v : len (PutUint32 v) = 4.
Proof. apply len_bePut. Qed.

Lemma len_PutUint64 v : len (PutUint64 v) = 8.
Proof. apply len_bePut. Qed.

Lemma len_0_nil {A} (l : list A) : len l = 0 -> l = [].
Proof. destruct l; [reflexivity | rewrite len_cons; pose proof (len_nonneg l); lia]. Qed.

Create Rewrite HintDb len.
#[global] Hint Rewrite @len_nil @len_cons @len_app @len_repeat len_bePut
  len_PutUint16 len_PutUint32 len_PutUint64 : len.

Lemma beUint_bePut n v : beUint (bePut n v) = v mod 2 ^ (Z.of_nat n * 8).
Proof. unfold beUint, bePut. rewrite rev_involutive. apply le_combine_split. Qed.

Lemma bePut_beUint b : bePut (length b) (beUint b) = b.
Proof.
  unfold beUint, bePut.
  rewrite <- (length_rev b), split_le_combine. apply rev_involutive.
Qed.

Lemma beUint_range b : 0 <= beUint b < 2 ^ (8 * len b).
Proof.
  unfold beUint, len. rewrite <- (length_rev b). apply le_combine_bound.
Qed.

Lemma slice_at {A} (b p m s : list A) lo hi :
  b = p ++ m ++ s -> lo = len p -> hi = lo + len m -> slice b lo hi = Return m.
Proof.
  intros -> -> ->. unfold slice.
  pose proof (len_nonneg p). pose proof (len_nonneg m). pose proof (len_nonneg s).
  rewrite !len_app.
  replace ((0 <=? len p) && (len p <=? len p + len m)
           && (len p + len m <=? len p + (len m + len s))) with true
    by (symmetry; rewrite !andb_true_iff, !Z.leb_le; lia).
  f_equal. unfold len.
  rewrite Nat2Z.id.
  replace (Z.to_nat (Z.of_nat (length p) + Z.of_nat (length m) - Z.of_nat (length p)))
    with (length m) by lia.
  rewrite skipn_app, skipn_all, Nat.sub_diag. cbn [skipn app].
  rewrite firstn_app, firstn_all, Nat.sub_diag. cbn [firstn]. apply app_nil_r.
Qed.

Lemma sliceFrom_at {A} (b p s : list A) lo :
  b = p ++ s -> lo = len p -> sliceFrom b lo = Return s.
Proof.
  intros -> ->. unfold sliceFrom.
  apply slice_at with (p := p) (s := []).
  - now rewrite app_nil_r.
  - reflexivity.
  - now rewrite len_app.
Qed.

Lemma index_at (b p s : bytes) x i :
  b = p ++ x :: s -> i = len p -> index b i = Return x.
Proof.
  intros -> ->. unfold index.
  pose proof (len_nonneg p). pose proof (len_nonneg s).
  rewrite len_app, len_cons.
  replace ((0 <=? len p) && (len p <? len p + (1 + len s))) with true
    by (symmetry; rewrite andb_true_iff, Z.leb_le, Z.ltb_lt; lia).
  f_equal. unfold len. rewrite Nat2Z.id.
  rewrite app_nth2 by lia. now rewrite Nat.sub_diag.
Qed.

Lemma slice_ok_inv {A} (b : list A) lo hi r :
  slice b lo hi = Return r -> 0 <= lo /\ lo <= hi /\ hi <= len b.
Proof.
  unfold slice. destruct ((0 <=? lo) && (lo <=? hi) && (hi <=? len b)) eqn:E; [|discriminate].
  rewrite !andb_true_iff, !Z.leb_le in E. intros _. lia.
Qed.

Lemma slice_len {A} (b : list A) lo hi r :
  slice b lo hi = Return r -> len r = hi - lo.
Proof.
  intros H. pose proof (slice_ok_inv _ _ _ _ H) as (H0 & H1 & H2).
  unfold slice in H.
  destruct ((0 <=? lo) && (lo <=? hi) && (hi <=? len b)); [|discriminate].
  injection H as <-. unfold len in *.
  rewrite firstn_length_le; [lia|]. rewrite length_skipn. lia.
Qed.

Lemma slice_in_range {A} (b : list A) lo hi :
  0 <= lo -> lo <= hi -> hi <= len b -> exists r, slice b lo hi = Return r.
Proof.
  intros. unfold slice.
  replace ((0 <=? lo) && (lo <=? hi) && (hi <=? len b)) with true
    by (symmetry; rewrite !andb_true_iff, !Z.leb_le; lia).
  eauto.
Qed.

Lemma Uint16_exact b : len b = 2 -> Uint16 b = Return (beUint b).
Proof.
  intros H. unfold Uint16. rewrite H. change (2 <=? 2) with true. cbv iota.
  rewrite firstn_all2; [reflexivity | unfold len in H; lia].
Qed.

Lemma Uint32_exact b : len b = 4 -> Uint32 b = Return (beUint b).
Proof.
  intros H. unfold Uint32. rewrite H. change (4 <=? 4) with true. cbv iota.
  rewrite firstn_all2; [reflexivity | unfold len in H; lia].
Qed.

Lemma Uint64_exact b : len b = 8 -> Uint64 b = Return (beUint b).
Proof.
  intros H. unfold Uint64. rewrite H. change (8 <=? 8) with true. cbv iota.
  rewrite firstn_all2; [reflexivity | unfold len in H; lia].
Qed.

Lemma Uint16_Put v : 0 <= v < 2 ^ 16 -> Uint16 (PutUint16 v) = Return v.
Proof.
  intros H. rewrite Uint16_exact by apply len_PutUint16.
  unfold PutUint16. rewrite beUint_bePut. f_equal. now apply Z.mod_small.
Qed.

Lemma Uint32_Put v : 0 <= v < 2 ^ 32 -> Uint32 (PutUint32 v) = Return v.
Proof.
  intros H. rewrite Uint32_exact by apply len_PutUint32.
  unfold PutUint32. rewrite beUint_bePut. f_equal. now apply Z.mod_small.
Qed.

Lemma Uint64_Put v : 0 <= v < 2 ^ 64 -> Uint64 (PutUint64 v) = Return v.
Proof.
  intros H. rewrite Uint64_exact by apply len_PutUint64.
  unfold PutUint64. rewrite beUint_bePut. f_equal. now apply Z.mod_small.
Qed.

Lemma not64_involutive x : not64 (not64 x) = x.
Proof.
  unfold not64. now rewrite Z.lxor_assoc, Z.lxor_nilpotent, Z.lxor_0_r.
Qed.

Lemma not64_inj x y : not64 x = not64 y -> x = y.
Proof. intros H. rewrite <- (not64_involutive x), H. apply not64_involutive. Qed.

Lemma bytesEqual_eq a b : bytesEqual a b = true <-> a = b.
Proof.
  revert b. induction a as [|x a IH]; intros [|y b]; cbn; try (split; congruence).
  rewrite andb_true_iff, IH. split.
  - intros [H ->]. f_equal. now apply Byte.byte_dec_bl.
  - intros [= -> ->]. split; [now apply Byte.byte_dec_lb | reflexivity].
Qed.

Lemma bytesEqual_refl a : bytesEqual a a = true.
Proof. now apply bytesEqual_eq. Qed.

Lemma bytesEqual_neq a b : bytesEqual a b = false <-> a <> b.
Proof.
  split.
  - intros H E. apply bytesEqual_eq in E. congruence.
  - intros H. destruct (bytesEqual a b) eqn:E; [|reflexivity].
    apply bytesEqual_eq in E. contradiction.
Qed.

Lemma changesEqual_eq l1 l2 : changesEqual l1 l2 = true -> l1 = l2.
Proof.
  revert l2. induction l1 as [|[k v] l1 IH]; intros [|[k' v'] l2]; cbn; try congruence.
  unfold changeKeyValueEqual. rewrite !andb_true_iff, !bytesEqual_eq.
  intros [[-> ->] H]. f_equal. now apply IH.
Qed.

(** Equalities on large concrete data are decided by evaluation. *)
Lemma outcome_bytes_by_eval (o : outcome bytes) v :
  match o with Return r => bytesEqual r v | Panics => false end = true ->
  o = Return v.
Proof. destruct o; [rewrite bytesEqual_eq; congruence | discriminate]. Qed.

Lemma decoded_by_eval (o : outcome (ChangeSet * option error)) l :
  match o with
  | Return (h, None) => changesEqual (Changes h) l && (keyLen h =? 72)
  | _ => false
  end = true ->
  o = Return (storageSet l, None).
Proof.
  destruct o as [[[l' k] [e|]]|]; try discriminate.
  cbn [Changes keyLen]. rewrite andb_true_iff, Z.eqb_eq.
  intros [H ->]. apply changesEqual_eq in H. now subst.
Qed.

(** ** Width selection *)

Lemma getNumOfBytesByLen_widths n : In (getNumOfBytesByLen n) widths.
Proof.
  unfold getNumOfBytesByLen, widths.
  destruct (n <? 255); [cbn; auto|].
  destruct (n <? 65535); [cbn; auto|].
  destruct (n <? 4294967295); cbn; auto.
Qed.

(** C6, as stated, fails: with 255 address-hashes the largest dictionary
    index is 254, which one byte holds, and the codec takes two. *)
Lemma getNumOfBytesByLen_not_minimal_at_255 :
  ~ isMinimalWidth (getNumOfBytesByLen 255) (255 - 1).
Proof.
  intros (_ & _ & Hmin).
  specialize (Hmin 1). cbn in Hmin.
  assert (2 <= 1) by (apply Hmin; [auto | unfold fitsWidth; cbn; lia]).
  lia.
Qed.

(** C6 (amended).  For a number [N >= 1] of distinct address-hashes (a Go
    [int]) the width [getNumOfBytesByLen N] is one of 1, 2, 4, 8, is chosen
    by the thresholds [N < 255], [N < 65535], [N < 4294967295], and is
    always sufficient for the largest dictionary index [N - 1]; it is the
    least sufficient width except at the six boundary counts 255, 256,
    65535, 65536, 4294967295 and 4294967296, where it is the next wider
    one. *)
Theorem getNumOfBytesByLen_sufficient (N : Z) (Hpos : 1 <= N) (Hint : N < 2 ^ 63) :
  let w := getNumOfBytesByLen N in
  In w widths /\
  w = (if N <? 255 then 1 else if N <? 65535 then 2
       else if N <? 4294967295 then 4 else 8) /\
  fitsWidth w (N - 1) /\
  (~ In N [255; 256; 65535; 65536; 4294967295; 4294967296] ->
   isMinimalWidth w (N - 1)) /\
  (In N [255; 256; 65535; 65536; 4294967295; 4294967296] ->
   ~ isMinimalWidth w (N - 1)).
Proof.
  cbv zeta. split; [apply getNumOfBytesByLen_widths|]. split; [reflexivity|].
  assert (Hsuff : fitsWidth (getNumOfBytesByLen N) (N - 1)).
  { unfold fitsWidth, getNumOfBytesByLen.
    destruct (Z.ltb_spec N 255); [cbn; lia|].
    destruct (Z.ltb_spec N 65535); [cbn; lia|].
    destruct (Z.ltb_spec N 4294967295); cbn in *; lia. }
  split; [exact Hsuff|]. split.
  - intros Hnot. split; [apply getNumOfBytesByLen_widths|]. split; [exact Hsuff|].
    intros w' Hw' Hfit. cbn in Hnot.
    unfold getNumOfBytesByLen.
    unfold widths in Hw'. cbn in Hw'. unfold fitsWidth in Hfit.
    destruct (Z.ltb_spec N 255); [destruct Hw' as [<-|[<-|[<-|[<-|[]]]]]; lia|].
    destruct (Z.ltb_spec N 65535);
      [destruct Hw' as [<-|[<-|[<-|[<-|[]]]]]; cbn in Hfit; lia|].
    destruct (Z.ltb_spec N 4294967295);
      destruct Hw' as [<-|[<-|[<-|[<-|[]]]]]; cbn in Hfit; lia.
  - intros Hin (_ & _ & Hmin). cbn in Hin.
    destruct Hin as [<-|[<-|[<-|[<-|[<-|[<-|[]]]]]]].
    + specialize (Hmin 1). cbn in Hmin.
      assert (2 <= 1) by (apply Hmin; [auto | unfold fitsWidth; cbn; lia]). lia.
    + specialize (Hmin 1). cbn in Hmin.
      assert (2 <= 1) by (apply Hmin; [auto | unfold fitsWidth; cbn; lia]). lia.
    + specialize (Hmin 2). cbn in Hmin.
      assert (4 <= 2) by (apply Hmin; [auto | unfold fitsWidth; cbn; lia]). lia.
    + specialize (Hmin 2). cbn in Hmin.
      assert (4 <= 2) by (apply Hmin; [auto | unfold fitsWidth; cbn; lia]). lia.
    + specialize (Hmin 4). cbn in Hmin.
      assert (8 <= 4) by (apply Hmin; [auto 6 | unfold fitsWidth; cbn; lia]). lia.
    + specialize (Hmin 4). cbn in Hmin.
      assert (8 <= 4) by (apply Hmin; [auto 6 | unfold fitsWidth; cbn; lia]). lia.
Qed.

Lemma getNumOfBytesByLen_sufficient_witness :
  In (getNumOfBytesByLen 300) widths /\ fitsWidth (getNumOfBytesByLen 300) (300 - 1).
Proof.
  pose proof (getNumOfBytesByLen_sufficient 300 ltac:(lia) ltac:(cbn; lia)) as H.
  cbv zeta in H. destruct H as (H1 & _ & H2 & _). split; assumption.
Defined.

(** ** Width validation: what the helpers do on a width they do not know *)

Lemma writeKeyRow_panics_iff id rowLen :
  writeKeyRow id rowLen = Panics <-> ~ In rowLen widths.
Proof.
  unfold writeKeyRow, widths. cbn [In].
  destruct (Z.eqb_spec rowLen 1); [split; [discriminate | intros H; exfalso; apply H; auto]|].
  destruct (Z.eqb_spec rowLen 2); [split; [discriminate | intros H; exfalso; apply H; auto]|].
  destruct (Z.eqb_spec rowLen 4); [split; [discriminate | intros H; exfalso; apply H; auto]|].
  destruct (Z.eqb_spec rowLen 8); [split; [discriminate | intros H; exfalso; apply H; auto 6]|].
  split; [intros _ [H|[H|[H|[H|[]]]]]; congruence | reflexivity].
Qed.

Lemma getUint32_panics_iff row :
  getUint32 row = Panics <-> ~ In (len row) widths.
Proof.
  unfold getUint32, widths. cbn [In].
  destruct (Z.eqb_spec (len row) 1); [split; [discriminate | intros H; exfalso; apply H; auto]|].
  destruct (Z.eqb_spec (len row) 2); [split; [discriminate | intros H; exfalso; apply H; auto]|].
  destruct (Z.eqb_spec (len row) 4); [split; [discriminate | intros H; exfalso; apply H; auto]|].
  destruct (Z.eqb_spec (len row) 8); [split; [discriminate | intros H; exfalso; apply H; auto 6]|].
  split; [intros _ [H|[H|[H|[H|[]]]]]; congruence | reflexivity].
Qed.

Lemma findVal_panics_beyond lenOfVals vals i n8 n16 n32 :
  0 <= n16 -> 0 <= n32 -> n8 + n16 + n32 <= i ->
  findVal lenOfVals vals i n8 n16 n32 = Panics.
Proof.
  intros. unfold findVal.
  destruct (Z.ltb_spec i n8); [lia|].
  destruct (Z.ltb_spec i (n8 + n16)); [lia|].
  destruct (Z.ltb_spec i (n8 + n16 + n32)); [lia|reflexivity].
Qed.

(** C7, as stated, fails: a width outside 1, 2, 4, 8 makes the helpers
    panic instead of returning an error, and a four-byte input that
    announces one element makes [DecodeStorage] panic. *)
Lemma decoding_can_panic :
  getUint32 [Byte.x00; Byte.x00; Byte.x00] = Panics
  /\ writeKeyRow 0 3 = Panics
  /\ DecodeStorage [Byte.x00; Byte.x00; Byte.x00; Byte.x01] = Panics.
Proof. repeat split; vm_compute; reflexivity. Qed.

(** C7 (amended).  [writeKeyRow] and [getUint32] accept exactly the widths
    1, 2, 4 and 8 and panic on every other width; [findVal] panics on an
    index beyond its three buckets; none of them returns an error.  The
    widths the codec itself passes come from [getNumOfBytesByLen] and are
    always among 1, 2, 4, 8. *)
Theorem width_helpers_panic_outside_widths :
  (forall id rowLen, writeKeyRow id rowLen = Panics <-> ~ In rowLen widths)
  /\ (forall row, getUint32 row = Panics <-> ~ In (len row) widths)
  /\ (forall lenOfVals vals i n8 n16 n32,
         0 <= n16 -> 0 <= n32 -> n8 + n16 + n32 <= i ->
         findVal lenOfVals vals i n8 n16 n32 = Panics)
  /\ (forall n id, In (getNumOfBytesByLen n) widths
                   /\ writeKeyRow id (getNumOfBytesByLen n) <> Panics).
Proof.
  split; [exact writeKeyRow_panics_iff|].
  split; [exact getUint32_panics_iff|].
  split; [exact findVal_panics_beyond|].
  intros n id. split; [apply getNumOfBytesByLen_widths|].
  rewrite writeKeyRow_panics_iff. intros H. apply H, getNumOfBytesByLen_widths.
Qed.

Lemma width_helpers_panic_outside_widths_witness :
  findVal [Byte.x01] [Byte.xaa] 1 1 0 0 = Panics.
Proof.
  destruct width_helpers_panic_outside_widths as (_ & _ & H & _).
  apply H; lia.
Defined.

(** ** The defects of [findVal] and of the incarnation exceptions *)

(** C3 (code at a failing input).  In the encoding of [csBucketGap] the
    length table is 01 02 | 00 01 00 02: two one-byte entries, no two-byte
    entry, one four-byte entry.  For the third element the format asks for
    the 65536 value bytes from offset 2 to 65538; [findVal] reads its start
    offset as the two-byte number 0x0102 = 258 and returns 65280 bytes.
    When the first element already lies in a wider bucket ([csFirstLong])
    [findVal] indexes the table at -1 and decoding panics. *)
Theorem findVal_wrong_across_empty_uint16_bucket :
  let lenOfVals := [Byte.x01; Byte.x02; Byte.x00; Byte.x01; Byte.x00; Byte.x02] in
  let vals := Byte.xaa :: Byte.xab :: repeat Byte.xbb (Z.to_nat 65536) in
  findValSpec lenOfVals vals 2 2 0 1 = Return (repeat Byte.xbb (Z.to_nat 65536))
  /\ findVal lenOfVals vals 2 2 0 1 = Return (repeat Byte.xbb (Z.to_nat 65280))
  /\ (exists k1 k2 k3,
        roundTrip csBucketGap =
        Return (storageSet [ {| Key := k1; Value := [Byte.xaa] |};
                             {| Key := k2; Value := [Byte.xab] |};
                             {| Key := k3; Value := repeat Byte.xbb (Z.to_nat 65280) |} ],
                None))
  /\ findValSpec [Byte.x01; Byte.x00] (repeat Byte.xbb (Z.to_nat 256)) 0 0 1 0
     = Return (repeat Byte.xbb (Z.to_nat 256))
  /\ findVal [Byte.x01; Byte.x00] (repeat Byte.xbb (Z.to_nat 256)) 0 0 1 0 = Panics
  /\ roundTrip csFirstLong = Panics.
Proof.
  cbv zeta.
  split; [apply outcome_bytes_by_eval; vm_compute; reflexivity|].
  split; [apply outcome_bytes_by_eval; vm_compute; reflexivity|].
  split.
  { exists (storageKey Byte.x01 DefaultIncarnation Byte.x05),
           (storageKey Byte.x02 DefaultIncarnation Byte.x07),
           (storageKey Byte.x03 DefaultIncarnation Byte.x09).
    apply decoded_by_eval. vm_compute. reflexivity. }
  split; [apply outcome_bytes_by_eval; vm_compute; reflexivity|].
  split; vm_compute; reflexivity.
Qed.

(** C4 (code at a failing input).  Inverting twice gives the incarnation
    back.  In [csSharedAddr] the address 02 has incarnation 5, element
    index 2 and dictionary index 1: the encoder files the exception under
    2, the decoder looks it up under 1, and the entry comes back with the
    default incarnation. *)
Theorem incarnation_lost_when_element_index_differs :
  (forall x, not64 (not64 x) = x)
  /\ roundTrip csSharedAddr =
     Return (storageSet
               [ {| Key := storageKey Byte.x01 DefaultIncarnation Byte.x05; Value := [Byte.xaa] |};
                 {| Key := storageKey Byte.x01 DefaultIncarnation Byte.x06; Value := [Byte.xab] |};
                 {| Key := storageKey Byte.x02 DefaultIncarnation Byte.x07; Value := [Byte.xac] |} ],
             None)
  /\ storageKey Byte.x02 DefaultIncarnation Byte.x07 <> storageKey Byte.x02 5 Byte.x07.
Proof.
  split; [exact not64_involutive|].
  split; [vm_compute; reflexivity|].
  vm_compute. discriminate.
Qed.

(** ** Counterexamples on the codec *)

(** C1, as stated, fails: the keys of [csTwoIncarnations] are strictly
    sorted, and the second entry comes back under the incarnation of the
    first: the format keeps one incarnation per address-hash. *)
Lemma roundTrip_one_incarnation_per_address :
  map Key (Changes csTwoIncarnations)
  = [storageKey Byte.x01 7 Byte.x05; storageKey Byte.x01 5 Byte.x06]
  /\ bytesCompare (storageKey Byte.x01 7 Byte.x05) (storageKey Byte.x01 5 Byte.x06) = Lt
  /\ (exists v1 v2,
        roundTrip csTwoIncarnations =
        Return (storageSet [ {| Key := storageKey Byte.x01 7 Byte.x05; Value := v1 |};
                             {| Key := storageKey Byte.x01 7 Byte.x06; Value := v2 |} ],
                None))
  /\ roundTrip csTwoIncarnations <> Return (csTwoIncarnations, None).
Proof.
  split; [reflexivity|].
  split; [vm_compute; reflexivity|].
  split; [do 2 eexists; vm_compute; reflexivity|].
  vm_compute. discriminate.
Qed.

(** C8, as stated, fails: behind the twelve bytes that encode the empty
    change-set, three stray bytes are a trailing region (it starts at
    offset 12) whose length is not a multiple of 12, and both decoders
    report success. *)
Lemma trailing_bytes_accepted_on_zero_elements :
  EncodeStorage (storageSet []) = Return (storageSet [], repeat Byte.x00 12)
  /\ emptyWithTrailer = repeat Byte.x00 12 ++ [Byte.x01; Byte.x02; Byte.x03]
  /\ exceptionsStart emptyWithTrailer = Return 12
  /\ (len emptyWithTrailer - 12) mod 12 = 3
  /\ DecodeStorage emptyWithTrailer = Return (storageSet [], None)
  /\ Walk emptyWithTrailer (fun _ _ (n : Z) => (n + 1, None)) 0 = Return (0, None).
Proof. repeat split; vm_compute; reflexivity. Qed.

(** C9, as stated, fails: on the empty slice and on the encoding of the
    empty change-set [Find] returns a nil value and a nil error. *)
Lemma Find_nil_nil :
  Find [] (hash32 Byte.x01) (hash32 Byte.x05) = Return (None, None)
  /\ Find (encoded (storageSet [])) (hash32 Byte.x01) (hash32 Byte.x05) = Return (None, None).
Proof. split; vm_compute; reflexivity. Qed.

(** ** Sorting by key *)

Lemma bytesCompare_eq a b : bytesCompare a b = Eq <-> a = b.
Proof.
  revert b. induction a as [|x a IH]; intros [|y b]; cbn; try (split; congruence).
  destruct (Z.compare_spec (byte.unsigned x) (byte.unsigned y)) as [E|E|E].
  - apply byte.unsigned_inj in E. subst y. rewrite IH. split; congruence.
  - split; [discriminate | intros [= -> _]; lia].
  - split; [discriminate | intros [= -> _]; lia].
Qed.

Lemma bytesCompare_antisym a b : bytesCompare b a = CompOpp (bytesCompare a b).
Proof.
  revert b. induction a as [|x a IH]; intros [|y b]; cbn; try reflexivity.
  rewrite (Z.compare_antisym (byte.unsigned x) (byte.unsigned y)).
  destruct (byte.unsigned x ?= byte.unsigned y); cbn; auto.
Qed.

Lemma bytesCompare_trans a b c :
  bytesCompare a b = Lt -> bytesCompare b c = Lt -> bytesCompare a c = Lt.
Proof.
  revert b c. induction a as [|x a IH]; intros [|y b] [|z c]; cbn; try congruence.
  destruct (Z.compare_spec (byte.unsigned x) (byte.unsigned y)) as [E1|E1|E1];
    destruct (Z.compare_spec (byte.unsigned y) (byte.unsigned z)) as [E2|E2|E2];
    try discriminate; intros H1 H2.
  - rewrite E1, E2, Z.compare_refl. eauto.
  - rewrite E1. now apply Z.compare_lt_iff in E2 as ->.
  - rewrite <- E2. now apply Z.compare_lt_iff in E1 as ->.
  - assert (E : byte.unsigned x < byte.unsigned z) by lia.
    now apply Z.compare_lt_iff in E as ->.
Qed.

Lemma keyLe_trans a b c : keyLe a b -> keyLe b c -> keyLe a c.
Proof.
  unfold keyLe. intros H1 H2.
  destruct (bytesCompare (Key a) (Key b)) eqn:E1; [| |congruence].
  - apply bytesCompare_eq in E1. now rewrite E1.
  - destruct (bytesCompare (Key b) (Key c)) eqn:E2; [| |congruence].
    + apply bytesCompare_eq in E2. rewrite <- E2, E1. discriminate.
    + rewrite (bytesCompare_trans _ _ _ E1 E2). discriminate.
Qed.

Lemma keyLe_antisym a b : keyLe a b -> keyLe b a -> Key a = Key b.
Proof.
  unfold keyLe. rewrite (bytesCompare_antisym (Key a) (Key b)).
  destruct (bytesCompare (Key a) (Key b)) eqn:E; cbn; try congruence.
  intros _ _. now apply bytesCompare_eq.
Qed.

Lemma changeLess_false c d : changeLess d c = false -> keyLe c d.
Proof.
  unfold changeLess, keyLe. rewrite (bytesCompare_antisym (Key d) (Key c)).
  destruct (bytesCompare (Key d) (Key c)); cbn; congruence.
Qed.

Lemma changeLess_true c d : changeLess d c = true -> keyLe d c.
Proof.
  unfold changeLess, keyLe. destruct (bytesCompare (Key d) (Key c)); congruence.
Qed.

Lemma insertChange_perm c l : Permutation (insertChange c l) (c :: l).
Proof.
  induction l as [|d l IH]; cbn; [reflexivity|].
  destruct (changeLess d c); [|reflexivity].
  eapply perm_trans; [apply perm_skip, IH | apply perm_swap].
Qed.

Lemma sortChanges_perm l : Permutation (sortChanges l) l.
Proof.
  induction l as [|c l IH]; cbn; [reflexivity|].
  eapply perm_trans; [apply insertChange_perm | now constructor].
Qed.

Lemma insertChange_sorted c l :
  StronglySorted keyLe l -> StronglySorted keyLe (insertChange c l).
Proof.
  induction 1 as [|d l Hs IH Hd]; cbn.
  - repeat constructor.
  - destruct (changeLess d c) eqn:E.
    + constructor; [exact IH|].
      apply changeLess_true in E.
      rewrite Forall_forall in *. intros x Hx.
      apply (Permutation_in _ (insertChange_perm c l)) in Hx.
      destruct Hx as [<-|Hx]; auto.
    + apply changeLess_false in E.
      constructor; [now constructor|].
      constructor; [exact E|].
      rewrite Forall_forall in *. intros x Hx.
      eapply keyLe_trans; eauto.
Qed.

Lemma sortChanges_sorted l : StronglySorted keyLe (sortChanges l).
Proof.
  induction l as [|c l IH]; cbn; [constructor | now apply insertChange_sorted].
Qed.

Lemma same_key_same_change (l : list Change) a b :
  NoDup (map Key l) -> In a l -> In b l -> Key a = Key b -> a = b.
Proof.
  induction l as [|c l IH]; cbn; [contradiction|].
  intros Hnd Ha Hb E. inversion Hnd as [|? ? Hnin Hnd']; subst.
  destruct Ha as [<-|Ha], Hb as [<-|Hb]; auto.
  - exfalso. apply Hnin. rewrite E. now apply in_map.
  - exfalso. apply Hnin. rewrite <- E. now apply in_map.
Qed.

(** Two sorted arrangements of the same changes with unique keys agree. *)
Lemma sorted_unique l1 l2 :
  StronglySorted keyLe l1 -> StronglySorted keyLe l2 ->
  Permutation l1 l2 -> NoDup (map Key l1) -> l1 = l2.
Proof.
  intros H1. revert l2. induction H1 as [|a l1 Hs1 IH Ha]; intros l2 H2 Hp Hnd.
  - apply Permutation_nil in Hp. now subst.
  - destruct l2 as [|b l2]; [apply Permutation_sym, Permutation_nil in Hp; discriminate|].
    inversion H2 as [|? ? Hs2 Hb]; subst.
    assert (Hab : a = b).
    { assert (Hin_b : In b (a :: l1))
        by (apply (Permutation_in _ (Permutation_sym Hp)); now left).
      assert (Hin_a : In a (b :: l2)) by (apply (Permutation_in _ Hp); now left).
      apply (same_key_same_change (a :: l1)); auto; [now left|].
      rewrite Forall_forall in Ha, Hb.
      destruct Hin_b as [->|Hin_b]; [reflexivity|].
      destruct Hin_a as [->|Hin_a]; [reflexivity|].
      apply keyLe_antisym; auto. }
    subst b. f_equal.
    apply IH; auto.
    + now apply Permutation_cons_inv in Hp.
    + now inversion Hnd.
Qed.

Lemma sortChanges_canonical l1 l2 :
  Permutation l1 l2 -> NoDup (map Key l1) -> sortChanges l1 = sortChanges l2.
Proof.
  intros Hp Hnd. apply sorted_unique; try apply sortChanges_sorted.
  - eapply perm_trans; [apply sortChanges_perm|].
    eapply perm_trans; [exact Hp | apply Permutation_sym, sortChanges_perm].
  - eapply Permutation_NoDup; [|exact Hnd].
    apply Permutation_map, Permutation_sym, sortChanges_perm.
Qed.

Lemma sorted_strict l :
  StronglySorted keyLe l -> NoDup (map Key l) -> StronglySorted keyLt l.
Proof.
  induction 1 as [|a l Hs IH Ha]; intros Hnd; constructor.
  - apply IH. now inversion Hnd.
  - inversion Hnd as [|? ? Hnin _]; subst.
    rewrite Forall_forall in *. intros x Hx. specialize (Ha x Hx).
    unfold keyLe, keyLt in *.
    destruct (bytesCompare (Key a) (Key x)) eqn:E; try congruence.
    apply bytesCompare_eq in E. exfalso. apply Hnin. rewrite E. now apply in_map.
Qed.

Lemma EncodeStorage_sorts s s' b :
  EncodeStorage s = Return (s', b) -> Changes s' = sortChanges (Changes s).
Proof.
  unfold EncodeStorage. cbv zeta.
  destruct (collectAddrs _ _ _) as [st|]; [|discriminate]. cbn [bind].
  destruct (writeRows _ _ _ _) as [rs|]; [|discriminate]. cbn [bind].
  now intros [= <- _].
Qed.

Lemma EncodeStorage_bytes_of_sorted s1 s2 :
  sortChanges (Changes s1) = sortChanges (Changes s2) ->
  outcomeMap snd (EncodeStorage s1) = outcomeMap snd (EncodeStorage s2).
Proof.
  intros E. unfold EncodeStorage. cbv zeta. cbn [Changes]. rewrite E.
  destruct (collectAddrs _ _ _) as [st|]; [|reflexivity]. cbn [bind].
  destruct (writeRows _ _ _ _) as [rs|]; reflexivity.
Qed.

(** ** History-index chunking *)



Lemma Forall_removelast {A} (P : A -> Prop) l : Forall P l -> Forall P (removelast l).
Proof.
  induction 1 as [|x l Hx Hl IH]; cbn; [constructor|].
  destruct l; [constructor | constructor; auto].
Qed.

Lemma Forall_last {A} (P : A -> Prop) l d : Forall P l -> P d -> P (last l d).
Proof.
  induction 1 as [|x l Hx Hl IH]; cbn; auto.
  destruct l; auto.
Qed.

Lemma mapGet_mapSet_bytes {V} (m : list (bytes * V)) k v k' :
  mapGet bytesEqual (mapSet bytesEqual m k v) k'
  = if bytesEqual k k' then Some v else mapGet bytesEqual m k'.
Proof.
  unfold mapSet. cbn [mapGet]. destruct (bytesEqual k k') eqn:E; [reflexivity|].
  apply bytesEqual_neq in E.
  induction m as [|[a x] m IH]; cbn [filter mapGet fst]; [reflexivity|].
  destruct (bytesEqual a k) eqn:Ea; cbn [negb mapGet].
  - apply bytesEqual_eq in Ea. subst a.
    replace (bytesEqual k k') with false by (symmetry; now apply bytesEqual_neq).
    exact IH.
  - destruct (bytesEqual a k'); [reflexivity | exact IH].
Qed.


Lemma cacheGet_mapSet_other (cache : indexCache) k cs k' :
  k' <> k -> cacheGet (mapSet bytesEqual cache k cs) k' = cacheGet cache k'.
Proof.
  intros Hk. unfold cacheGet. rewrite mapGet_mapSet_bytes.
  replace (bytesEqual k k') with false; [reflexivity|].
  symmetry. apply bytesEqual_neq. congruence.
Qed.

(** The next chunks of a key: the size test of the walker. *)
Lemma changeSetWalker_cached indexLen g blockNum k v cache c cs :
  cacheGet cache k = Some (c :: cs) ->
  changeSetWalker indexLen g blockNum k v cache
  = (mapSet bytesEqual cache k
       (if maxChunkSize <? indexLen (last (c :: cs) []) + 8
        then (c :: cs) ++ [[blockNum]]
        else removelast (c :: cs) ++ [last (c :: cs) [] ++ [blockNum]]),
     None).
Proof.
  intros H. unfold changeSetWalker. rewrite H. cbv zeta.
  unfold NewHistoryIndex, Append. cbn [app].
  destruct (maxChunkSize <? indexLen (last (c :: cs) []) + 8); reflexivity.
Qed.

(** The first block of a key that neither the cache nor the database
    knows opens its first chunk. *)
Lemma changeSetWalker_first indexLen g blockNum k v cache :
  indexLen [] + 8 <= maxChunkSize ->
  cacheGet cache k = None ->
  g k blockNum = ChunkKeyNotFound ->
  changeSetWalker indexLen g blockNum k v cache
  = (mapSet bytesEqual cache k [[blockNum]], None).
Proof.
  intros Hroom Hnew Hg. unfold changeSetWalker. rewrite Hnew, Hg.
  cbn [FindProperIndexChunk]. cbv zeta. unfold NewHistoryIndex, Append.
  destruct (Z.ltb_spec maxChunkSize (indexLen [] + 8)) as [Hlt|_]; [lia|].
  cbn [app last removelast].
  destruct (Z.ltb_spec maxChunkSize (indexLen [] + 8)) as [Hlt|_]; [lia|].
  reflexivity.
Qed.






(** *** Chunks of [width]-byte entries behind a [header] *)





Lemma concat_removelast_last (cs : list HistoryIndex) x :
  cs <> [] -> concat (removelast cs ++ [last cs [] ++ x]) = concat cs ++ x.
Proof.
  intros Hne. rewrite (app_removelast_last [] Hne) at 3.
  rewrite !concat_app. cbn [concat]. now rewrite !app_nil_r, app_assoc.
Qed.







(** ** As-of queries: the binary search and the test scenario *)









(** ** Loops and monadic steps *)

Lemma bind_inv {A B} (m : outcome A) (k : A -> outcome B) r :
  bind m k = Return r -> exists a, m = Return a /\ k a = Return r.
Proof. destruct m; [eauto | discriminate]. Qed.

Lemma Return_inj {A} (a b : A) : Return a = Return b -> a = b.
Proof. now intros [= ->]. Qed.

Ltac inv_bind H :=
  let a := fresh "a" in
  let E := fresh "E" in
  apply bind_inv in H; destruct H as (a & E & H); cbv beta in H.

Ltac unfold_consts :=
  unfold storageEnodingLengthOfNumOfElements, storageEnodingLengthOfDict,
    storageEnodingStartElem, storageEnodingLengthOfNumTypeOfElements,
    HashLength, IncarnationLength in *.

Lemma forLoop_ok {St} (body : Z -> St -> outcome St) step :
  forall n i s,
    (forall k s', (k < n)%nat -> exists s'', body (i + Z.of_nat k * step) s' = Return s'') ->
    exists s', forLoop n i step body s = Return s'.
Proof.
  induction n as [|n IH]; intros i s Hb; cbn [forLoop]; [eauto|].
  destruct (Hb 0%nat s ltac:(lia)) as [s1 H1].
  replace (i + Z.of_nat 0 * step) with i in H1 by lia.
  rewrite H1. cbn [bind]. apply IH.
  intros k s' Hk. destruct (Hb (S k) s' ltac:(lia)) as [s2 H2].
  exists s2. rewrite <- H2. f_equal. lia.
Qed.

(** A loop whose [k]-th iteration is [g] applied to the [k]-th element of
    a list is a fold over the list. *)
Lemma forLoop_fold {St A} (body : Z -> St -> outcome St) (g : St -> A -> St) step d :
  forall (l : list A) i s,
    (forall k s', (k < length l)%nat ->
                  body (i + Z.of_nat k * step) s' = Return (g s' (nth k l d))) ->
    forLoop (length l) i step body s = Return (fold_left g l s).
Proof.
  induction l as [|x l IH]; intros i s Hb; cbn [forLoop length fold_left]; [reflexivity|].
  pose proof (Hb 0%nat s ltac:(cbn; lia)) as H1.
  replace (i + Z.of_nat 0 * step) with i in H1 by lia.
  rewrite H1. cbn [bind nth]. apply IH.
  intros k s' Hk. specialize (Hb (S k) s' ltac:(cbn; lia)).
  cbn [nth] in Hb. rewrite <- Hb. f_equal. lia.
Qed.

Lemma readDict_ok b d :
  0 <= d -> 4 + 2 + d * 32 <= len b -> exists m, readDict b d = Return m.
Proof.
  intros Hd Hlen. unfold readDict. apply forLoop_ok.
  intros k m Hk. unfold_consts.
  destruct (slice_in_range b (4 + 2 + (0 + Z.of_nat k * 1) * 32)
              (4 + 2 + (0 + Z.of_nat k * 1) * 32 + 32)) as [h Hh]; try lia.
  rewrite Hh. cbn [bind]. eauto.
Qed.

Lemma slice_prefix {A} (b : list A) n r :
  slice b 0 n = Return r -> r = firstn (Z.to_nat n) b.
Proof.
  unfold slice. destruct ((0 <=? 0) && (0 <=? n) && (n <=? len b)); [|discriminate].
  intros [= <-]. now rewrite Z.sub_0_r.
Qed.

Lemma Uint32_value b n : Uint32 b = Return n -> n = beUint (firstn 4 b) /\ 0 <= n < 2 ^ 32.
Proof.
  unfold Uint32. destruct (Z.leb_spec 4 (len b)); [|discriminate].
  intros [= <-]. split; [reflexivity|].
  pose proof (beUint_range (firstn 4 b)) as Hr.
  assert (len (firstn 4 b) = 4) by (unfold len in *; rewrite length_firstn; lia).
  rewrite H0 in Hr. exact Hr.
Qed.

Lemma Uint16_value b n : Uint16 b = Return n -> n = beUint (firstn 2 b) /\ 0 <= n < 2 ^ 16.
Proof.
  unfold Uint16. destruct (Z.leb_spec 2 (len b)); [|discriminate].
  intros [= <-]. split; [reflexivity|].
  pose proof (beUint_range (firstn 2 b)) as Hr.
  assert (len (firstn 2 b) = 2) by (unfold len in *; rewrite length_firstn; lia).
  rewrite H0 in Hr. exact Hr.
Qed.

Lemma getNumOfBytesByLen_pos n : 0 < getNumOfBytesByLen n.
Proof.
  unfold getNumOfBytesByLen.
  destruct (n <? 255), (n <? 65535), (n <? 4294967295); lia.
Qed.

(** ** Malformed trailing region *)

(** C8 (amended).  On an input that announces at least one element and
    whose structural offsets are in range, a trailing exceptions region of
    a length that is not a multiple of 12 makes [DecodeStorage] and [Walk]
    return the error "incarnation part is incorrect"; neither panics,
    neither succeeds, and [Walk] does not call its callback. *)
Theorem trailing_region_not_multiple_of_12 (b : bytes) (pos : Z)
    (Hlayout : exceptionsStart b = Return pos)
    (Hn : announcedElements b <> 0)
    (Hregion : pos < len b)
    (Hmod : (len b - pos) mod 12 <> 0) :
  DecodeStorage b =
    Return ({| Changes := repeat emptyChange (Z.to_nat (announcedElements b));
               keyLen := 72 |},
            Some (ErrIncarnationPart (len b - pos)))
  /\ forall (St : Type) (f : bytes -> bytes -> St -> St * option error) (st : St),
       Walk b f st = Return (st, Some (ErrIncarnationPart (len b - pos))).
Proof.
  unfold exceptionsStart in Hlayout.
  inv_bind Hlayout. rename a into nb. inv_bind Hlayout. rename a into n.
  inv_bind Hlayout. rename a into db. inv_bind Hlayout. rename a into d.
  cbv zeta in Hlayout.
  inv_bind Hlayout. rename a into b8. inv_bind Hlayout. rename a into n8.
  inv_bind Hlayout. rename a into b16. inv_bind Hlayout. rename a into n16.
  inv_bind Hlayout. rename a into b32. inv_bind Hlayout. rename a into n32.
  inv_bind Hlayout. rename a into tail. inv_bind Hlayout. rename a into off.
  apply Return_inj in Hlayout. rename Hlayout into Hpos.
  pose proof (slice_ok_inv _ _ _ _ E) as Hb4.
  pose proof (slice_prefix _ _ _ E) as Hnb. change (Z.to_nat 4) with 4%nat in Hnb.
  pose proof (Uint32_value _ _ E0) as [Hnval Hnrange].
  assert (Hann : announcedElements b = n).
  { unfold announcedElements. rewrite Hnval, Hnb. now rewrite firstn_firstn. }
  rewrite Hann in *.
  pose proof (Uint16_value _ _ E2) as [_ Hdrange].
  pose proof (slice_ok_inv _ _ _ _ E3) as Hb8.
  pose proof (getNumOfBytesByLen_pos d) as Hw.
  assert (Hdict : 4 + 2 + d * 32 <= len b) by nia.
  destruct (readDict_ok b d ltac:(lia) Hdict) as [addMap HaddMap].
  assert (Hcond : (4 + 2 + d * 32 + n * (getNumOfBytesByLen d + 32) + 3 * 2 + off <? len b)
                  && negb ((len b - (4 + 2 + d * 32 + n * (getNumOfBytesByLen d + 32)
                                     + 3 * 2 + off)) mod 12 =? 0) = true).
  { rewrite Hpos. apply andb_true_iff. split; [now apply Z.ltb_lt|].
    apply negb_true_iff. now apply Z.eqb_neq. }
  split.
  - unfold DecodeStorage. cbv zeta. unfold_consts.
    destruct (Z.eqb_spec (len b) 0); [lia|].
    destruct (Z.ltb_spec (len b) 4); [lia|].
    rewrite E. cbn [bind]. rewrite E0. cbn [bind].
    destruct (Z.eqb_spec n 0); [contradiction|].
    rewrite E1. cbn [bind]. rewrite E2. cbn [bind].
    rewrite HaddMap. cbn [bind].
    rewrite E3. cbn [bind]. rewrite E4. cbn [bind].
    rewrite E5. cbn [bind]. rewrite E6. cbn [bind].
    rewrite E7. cbn [bind]. rewrite E8. cbn [bind].
    rewrite E9. cbn [bind]. rewrite E10. cbn [bind].
    rewrite Hcond. rewrite Hpos. reflexivity.
  - intros St f st. unfold Walk. cbv zeta. unfold_consts.
    change (2 * 2) with 4. change (2 * 3) with 6. change (3 * 2) with 6 in *.
    destruct (Z.eqb_spec (len b) 0); [lia|].
    destruct (Z.ltb_spec (len b) 8); [nia|].
    rewrite E. cbn [bind]. rewrite E0. cbn [bind].
    destruct (Z.eqb_spec n 0); [contradiction|].
    rewrite E1. cbn [bind]. rewrite E2. cbn [bind].
    rewrite E3. cbn [bind]. rewrite E4. cbn [bind].
    rewrite E5. cbn [bind]. rewrite E6. cbn [bind].
    rewrite E7. cbn [bind]. rewrite E8. cbn [bind].
    rewrite E9. cbn [bind]. rewrite E10. cbn [bind].
    rewrite Hcond. rewrite Hpos. reflexivity.
Qed.

Lemma trailing_region_not_multiple_of_12_witness :
  DecodeStorage (encoded csSample ++ [Byte.x00]) =
    Return ({| Changes := repeat emptyChange 3; keyLen := 72 |},
            Some (ErrIncarnationPart 13)).
Proof.
  refine (proj1 (trailing_region_not_multiple_of_12
                   (encoded csSample ++ [Byte.x00]) 480 _ _ _ _)).
  - vm_compute. reflexivity.
  - vm_compute. discriminate.
  - vm_compute. reflexivity.
  - vm_compute. discriminate.
Defined.

(** ** The parts of a key *)

Lemma slice_eq {A} (b : list A) lo hi :
  0 <= lo -> lo <= hi -> hi <= len b ->
  slice b lo hi = Return (firstn (Z.to_nat (hi - lo)) (skipn (Z.to_nat lo) b)).
Proof.
  intros. unfold slice.
  replace ((0 <=? lo) && (lo <=? hi) && (hi <=? len b)) with true
    by (symmetry; rewrite !andb_true_iff, !Z.leb_le; lia).
  reflexivity.
Qed.

Lemma keysWellFormed_cons c l :
  keysWellFormed (c :: l) = true <-> len (Key c) = 72 /\ keysWellFormed l = true.
Proof. unfold keysWellFormed. cbn [forallb]. now rewrite andb_true_iff, Z.eqb_eq. Qed.

Lemma key_addr c : len (Key c) = 72 -> slice (Key c) 0 32 = Return (addrHashOf c).
Proof. intros H. rewrite slice_eq by lia. reflexivity. Qed.

Lemma key_inc c : len (Key c) = 72 -> slice (Key c) 32 (32 + 8) = Return (incarnationOf c).
Proof. intros H. rewrite slice_eq by lia. reflexivity. Qed.

Lemma key_hash c : len (Key c) = 72 -> slice (Key c) (8 + 32) (8 + 2 * 32) = Return (keyHashOf c).
Proof. intros H. rewrite slice_eq by lia. reflexivity. Qed.

Lemma len_firstn_le {A} (l : list A) n : (n <= length l)%nat -> len (firstn n l) = Z.of_nat n.
Proof. intros. unfold len. rewrite firstn_length_le; auto. Qed.

Lemma len_skipn {A} (l : list A) n : len (skipn n l) = len l - Z.of_nat (Nat.min n (length l)).
Proof. unfold len. rewrite length_skipn. lia. Qed.

Lemma len_addrHashOf c : len (Key c) = 72 -> len (addrHashOf c) = 32.
Proof. intros H. unfold addrHashOf. rewrite len_firstn_le; unfold len in *; lia. Qed.

Lemma len_incarnationOf c : len (Key c) = 72 -> len (incarnationOf c) = 8.
Proof.
  intros H. unfold incarnationOf.
  rewrite len_firstn_le; [lia|]. rewrite length_skipn. unfold len in *. lia.
Qed.

Lemma len_keyHashOf c : len (Key c) = 72 -> len (keyHashOf c) = 32.
Proof.
  intros H. unfold keyHashOf.
  rewrite len_firstn_le; [lia|]. rewrite length_skipn. unfold len in *. lia.
Qed.

Lemma key_parts c :
  len (Key c) = 72 -> Key c = addrHashOf c ++ incarnationOf c ++ keyHashOf c.
Proof.
  intros H. unfold addrHashOf, incarnationOf, keyHashOf.
  rewrite <- (firstn_skipn 32 (Key c)) at 1. f_equal.
  rewrite <- (firstn_skipn 8 (skipn 32 (Key c))) at 1. f_equal.
  rewrite skipn_skipn. cbn [Nat.add].
  symmetry. apply firstn_all2. rewrite length_skipn. unfold len in H. lia.
Qed.

(** ** Positions in the dictionary *)

Lemma indexOf_range h l d :
  indexOf h l = Some d -> 0 <= d < len l /\ nth_error l (Z.to_nat d) = Some h.
Proof.
  revert d. induction l as [|x l IH]; cbn [indexOf]; intros d; [discriminate|].
  rewrite len_cons. destruct (bytesEqual x h) eqn:E.
  - intros [= <-]. apply bytesEqual_eq in E. subst. pose proof (len_nonneg l).
    split; [lia | reflexivity].
  - destruct (indexOf h l) as [i|]; [|discriminate].
    intros [= <-]. destruct (IH i eq_refl) as [Hr Hn].
    split; [lia|]. replace (Z.to_nat (i + 1)) with (S (Z.to_nat i)) by lia. exact Hn.
Qed.

Lemma indexOf_None h l : indexOf h l = None <-> ~ In h l.
Proof.
  induction l as [|x l IH]; cbn [indexOf In]; [tauto|].
  destruct (bytesEqual x h) eqn:E.
  - apply bytesEqual_eq in E. split; [discriminate | intros H; exfalso; auto].
  - apply bytesEqual_neq in E. destruct (indexOf h l).
    + split; [discriminate|]. intros H. exfalso. apply H. right.
      destruct (in_dec (list_eq_dec Byte.byte_eq_dec) h l); [assumption|].
      now apply IH in n.
    + split; [|reflexivity]. intros _ [H|H]; [contradiction|]. now apply IH.
Qed.

Lemma indexOf_In h l : In h l -> exists d, indexOf h l = Some d.
Proof.
  intros H. destruct (indexOf h l) eqn:E; [eauto|].
  apply indexOf_None in E. contradiction.
Qed.

Lemma indexOf_snoc h l a :
  indexOf h (l ++ [a]) =
  match indexOf h l with
  | Some d => Some d
  | None => if bytesEqual a h then Some (len l) else None
  end.
Proof.
  induction l as [|x l IH]; cbn [app indexOf].
  - destruct (bytesEqual a h); reflexivity.
  - destruct (bytesEqual x h); [reflexivity|]. rewrite IH, len_cons.
    destruct (indexOf h l); [reflexivity|].
    destruct (bytesEqual a h); [f_equal; lia | reflexivity].
Qed.

Lemma indexOf_app_l h l l' d : indexOf h l = Some d -> indexOf h (l ++ l') = Some d.
Proof.
  revert d. induction l as [|x l IH]; cbn [app indexOf]; intros d; [discriminate|].
  destruct (bytesEqual x h); [auto|].
  destruct (indexOf h l) as [i|]; [|discriminate].
  intros [= <-]. now rewrite (IH i eq_refl).
Qed.

Lemma indexOf_inj h1 h2 l d : indexOf h1 l = Some d -> indexOf h2 l = Some d -> h1 = h2.
Proof.
  intros H1 H2. apply indexOf_range in H1, H2.
  destruct H1 as [_ H1], H2 as [_ H2]. congruence.
Qed.

(** ** Go maps *)

Lemma mapGet_filter_absent {V} (m : list (bytes * V)) k :
  mapGet bytesEqual m k = None ->
  filter (fun p => negb (bytesEqual (fst p) k)) m = m.
Proof.
  induction m as [|[k' v] m IH]; cbn [mapGet filter fst]; [reflexivity|].
  destruct (bytesEqual k' k); [discriminate|]. cbn [negb]. intros H. now rewrite IH.
Qed.

(** ** The first loop of the encoder *)

Lemma dictState_init : dictState initAddrState [].
Proof. repeat split. Qed.

Lemma collectAddrs_spec : forall l i st dict,
  dictState st dict ->
  keysWellFormed l = true ->
  len dict + len l < 2 ^ 32 ->
  exists st',
    collectAddrs l i st = Return st'
    /\ dictState st' (dictionaryFrom dict l)
    /\ notDefaultIncarnationList st' =
       notDefaultIncarnationList st ++ flat_map exceptionRecord (exceptionsFrom dict i l).
Proof.
  induction l as [|c l IH]; intros i st dict Hst Hwf Hlen.
  - exists st. cbn. now rewrite app_nil_r.
  - apply keysWellFormed_cons in Hwf. destruct Hwf as [Hk Hwf].
    rewrite len_cons in Hlen. pose proof (len_nonneg l) as Hl.
    pose proof (len_nonneg dict) as Hd.
    cbn [collectAddrs dictionaryFrom exceptionsFrom]. unfold_consts.
    rewrite (key_addr c Hk). cbn [bind].
    destruct Hst as (Hlist & Hnext & Hmlen & Hget).
    rewrite Hget.
    destruct (indexOf (addrHashOf c) dict) as [d|] eqn:Eidx.
    + apply IH; [repeat split; assumption | assumption | lia].
    + rewrite (key_inc c Hk). cbn [bind].
      rewrite (Uint64_exact _ (len_incarnationOf c Hk)). cbn [bind]. cbv zeta.
      edestruct (IH (i + 1)) as (st' & Hrun & Hst' & Hnd);
        [| exact Hwf | | exists st'; split; [exact Hrun|]; split; [exact Hst'|] ].
      * unfold dictState. cbn [addrHashList nextIDAddrHash addrHashesMap].
        split; [|split; [|split]].
        -- rewrite concat_app, Hlist. cbn [concat]. now rewrite app_nil_r.
        -- rewrite Hnext, len_app, len_cons, len_nil. unfold uint32.
           apply Z.mod_small. lia.
        -- unfold mapSet. rewrite len_cons, mapGet_filter_absent by (now rewrite Hget).
           rewrite Hmlen, len_app, len_cons, len_nil. lia.
        -- intros h. unfold mapSet. cbn [mapGet].
           rewrite mapGet_filter_absent by (now rewrite Hget).
           rewrite indexOf_snoc, Hget, Hnext.
           destruct (bytesEqual (addrHashOf c) h) eqn:E.
           ++ apply bytesEqual_eq in E. subst h. now rewrite Eidx.
           ++ destruct (indexOf h dict); reflexivity.
      * rewrite len_app, len_cons, len_nil. lia.
      * rewrite Hnd. cbn [notDefaultIncarnationList].
        unfold hasDefaultIncarnation.
        destruct (not64 (beUint (incarnationOf c)) =? DefaultIncarnation).
        -- reflexivity.
        -- rewrite <- app_assoc. f_equal. cbn [app flat_map]. f_equal.
           unfold exceptionRecord. cbn [fst snd]. f_equal.
           rewrite not64_involutive. unfold PutUint64.
           replace 8%nat with (length (incarnationOf c))
             by (pose proof (len_incarnationOf c Hk) as H8; unfold len in H8; lia).
           apply bePut_beUint.
Qed.

(** ** The second loop of the encoder *)

Lemma countWidth_cons w x cums :
  countWidth w (x :: cums) = (if entryWidth x =? w then 1 else 0) + countWidth w cums.
Proof.
  unfold countWidth. cbn [filter]. destruct (entryWidth x =? w); [apply len_cons | lia].
Qed.

Lemma countWidth_nonneg w cums : 0 <= countWidth w cums.
Proof. apply len_nonneg. Qed.

Lemma totalLen_nonneg l : 0 <= totalLen l.
Proof.
  induction l as [|c l IH]; cbn [totalLen]; [lia|].
  pose proof (len_nonneg (Value c)). lia.
Qed.

Lemma writeKeyRow_widths id w : In w widths -> writeKeyRow id w = Return (dictIndexBytes w id).
Proof.
  unfold widths. cbn [In]. intros [<-|[<-|[<-|[<-|[]]]]]; reflexivity.
Qed.

Lemma writeRows_spec : forall l st m dict w s,
  keysWellFormed l = true ->
  In w widths ->
  (forall h, mapGet bytesEqual m h = indexOf h dict) ->
  lengthOfValues st = s -> 0 <= s -> s + totalLen l < 2 ^ 32 ->
  0 <= numOfUint8 st -> numOfUint8 st + countWidth 1 (cumLens s l) <= 65535 ->
  0 <= numOfUint16 st -> numOfUint16 st + countWidth 2 (cumLens s l) <= 65535 ->
  0 <= numOfUint32 st -> numOfUint32 st + countWidth 4 (cumLens s l) <= 65535 ->
  exists st',
    writeRows l m w st = Return st'
    /\ keys st' = keys st ++ flat_map (rowOf dict w) l
    /\ lengthes st' = lengthes st ++ flat_map tableEntry (cumLens s l)
    /\ values st' = values st ++ flat_map Value l
    /\ numOfUint8 st' = numOfUint8 st + countWidth 1 (cumLens s l)
    /\ numOfUint16 st' = numOfUint16 st + countWidth 2 (cumLens s l)
    /\ numOfUint32 st' = numOfUint32 st + countWidth 4 (cumLens s l).
Proof.
  induction l as [|c l IH]; intros st m dict w s Hwf Hw Hget Hs Hs0 Htot H8 H8' H16 H16' H32 H32'.
  - exists st. cbn. rewrite !app_nil_r. unfold countWidth. cbn. repeat split; lia.
  - apply keysWellFormed_cons in Hwf. destruct Hwf as [Hk Hwf].
    cbn [totalLen] in Htot. cbn [cumLens] in *.
    pose proof (len_nonneg (Value c)) as Hv. pose proof (totalLen_nonneg l) as Ht.
    rewrite !countWidth_cons in *.
    pose proof (countWidth_nonneg 1 (cumLens (s + len (Value c)) l)).
    pose proof (countWidth_nonneg 2 (cumLens (s + len (Value c)) l)).
    pose proof (countWidth_nonneg 4 (cumLens (s + len (Value c)) l)).
    cbn [writeRows flat_map]. unfold_consts.
    rewrite (key_addr c Hk). cbn [bind].
    rewrite (writeKeyRow_widths _ _ Hw). cbn [bind].
    rewrite (key_hash c Hk). cbn [bind]. cbv zeta.
    rewrite Hget, Hs.
    replace (uint32 (s + uint32 (len (Value c)))) with (s + len (Value c))
      by (unfold uint32; rewrite (Z.mod_small (len (Value c))) by lia;
          rewrite Z.mod_small by lia; reflexivity).
    fold (dictIndexOf dict c). fold (rowOf dict w c).
    unfold tableEntry at 1. unfold entryWidth in *.
    destruct (Z.leb_spec (s + len (Value c)) 255) as [Hc|Hc];
      [|destruct (Z.leb_spec (s + len (Value c)) 65535) as [Hc'|Hc']];
      cbn [Z.eqb Pos.eqb] in *;
      match goal with
      | |- exists st', writeRows l m w ?st1 = _ /\ _ =>
          pose proof (IH st1 m dict w (s + len (Value c)) Hwf Hw Hget eq_refl) as IH';
            cbn [keys lengthes values numOfUint8 numOfUint16 numOfUint32 lengthOfValues] in IH';
            unfold uint16 in *;
            rewrite ?Z.mod_small in IH' by lia;
            rewrite ?Z.mod_small by lia;
            destruct IH' as (st' & Hrun & Hks & Hls & Hvs & Hn8 & Hn16 & Hn32); try lia;
            exists st'; split; [exact Hrun|];
            rewrite Hks, Hls, Hvs, Hn8, Hn16, Hn32;
            rewrite <- ?app_assoc;
            repeat split; try reflexivity; try lia
      end.
Qed.

(** ** The encoder writes the layout of the format *)

Lemma entryWidth_cases c : entryWidth c = 1 \/ entryWidth c = 2 \/ entryWidth c = 4.
Proof. unfold entryWidth. destruct (c <=? 255), (c <=? 65535); auto. Qed.

Lemma countWidth_total cums :
  countWidth 1 cums + countWidth 2 cums + countWidth 4 cums = len cums.
Proof.
  induction cums as [|c cums IH]; [reflexivity|].
  rewrite !countWidth_cons, len_cons.
  destruct (entryWidth_cases c) as [E | [E | E]]; rewrite E; cbn [Z.eqb Pos.eqb]; lia.
Qed.

Lemma len_cumLens s l : len (cumLens s l) = len l.
Proof.
  revert s. induction l as [|c l IH]; intros s; cbn [cumLens]; [reflexivity|].
  now rewrite !len_cons, IH.
Qed.

Lemma fitsFormat_spec l :
  fitsFormat l = true ->
  len (dictionaryOf l) <= 65535
  /\ countWidth 1 (cumLens 0 l) <= 65535
  /\ countWidth 2 (cumLens 0 l) <= 65535
  /\ countWidth 4 (cumLens 0 l) <= 65535
  /\ totalLen l < 2 ^ 32
  /\ len l <= 196605.
Proof.
  unfold fitsFormat. rewrite !andb_true_iff, !Z.leb_le, Z.ltb_lt.
  intros [[[[H1 H2] H3] H4] H5].
  repeat split; try assumption.
  rewrite <- (len_cumLens 0 l), <- countWidth_total. lia.
Qed.

Lemma EncodeStorage_layout (s : ChangeSet) :
  let l := sortChanges (Changes s) in
  keysWellFormed l = true ->
  fitsFormat l = true ->
  EncodeStorage s = Return ({| Changes := l; keyLen := keyLen s |}, layoutOf l).
Proof.
  cbv zeta. intros Hwf Hfit.
  destruct (fitsFormat_spec _ Hfit) as (Hd & H8 & H16 & H32 & Htot & Hn).
  set (l := sortChanges (Changes s)) in *.
  pose proof (len_nonneg l) as Hl.
  unfold EncodeStorage. cbv zeta. cbn [Changes]. fold l.
  destruct (collectAddrs_spec l 0 initAddrState [] dictState_init Hwf)
    as (st & Hrun & (Hlist & Hnext & Hmlen & Hget) & Hnd);
    [rewrite len_nil; lia|].
  rewrite Hrun. cbn [bind].
  fold (dictionaryOf l) in *.
  pose proof (countWidth_nonneg 1 (cumLens 0 l)).
  pose proof (countWidth_nonneg 2 (cumLens 0 l)).
  pose proof (countWidth_nonneg 4 (cumLens 0 l)).
  destruct (writeRows_spec l initRowState (addrHashesMap st) (dictionaryOf l)
              (getNumOfBytesByLen (len (addrHashesMap st))) 0 Hwf
              (getNumOfBytesByLen_widths _) Hget eq_refl (Z.le_refl 0)
              ltac:(lia) (Z.le_refl 0) ltac:(cbn [initRowState numOfUint8]; lia)
              (Z.le_refl 0) ltac:(cbn [initRowState numOfUint16]; lia)
              (Z.le_refl 0) ltac:(cbn [initRowState numOfUint32]; lia))
    as (rs & Hrows & Hks & Hls & Hvs & Hn8 & Hn16 & Hn32).
  rewrite Hrows. cbn [bind]. f_equal. f_equal.
  unfold layoutOf. cbv zeta.
  rewrite Hlist, Hks, Hls, Hvs, Hn8, Hn16, Hn32, Hnd, Hmlen.
  cbn [initRowState keys lengthes values numOfUint8 numOfUint16 numOfUint32
       initAddrState notDefaultIncarnationList app].
  rewrite !Z.add_0_l.
  pose proof (len_nonneg (dictionaryOf l)).
  unfold uint32, uint16. rewrite !Z.mod_small by lia.
  unfold_consts. change (Z.to_nat (2 * 3)) with 6%nat. change (Z.to_nat (3 * 2)) with 6%nat.
  cbn [repeat app skipn]. rewrite <- !app_assoc. reflexivity.
Qed.

(** ** Lists cut at an index *)

Lemma nth_cut {A} (l : list A) k d :
  (k < length l)%nat -> l = firstn k l ++ nth k l d :: skipn (S k) l.
Proof.
  revert k. induction l as [|x l IH]; intros k Hk; cbn [length] in Hk; [lia|].
  destruct k as [|k]; cbn [firstn nth skipn app]; [reflexivity|].
  f_equal. apply IH. lia.
Qed.

Lemma in_firstn {A} (l : list A) k x : In x (firstn k l) -> In x l.
Proof. intros H. rewrite <- (firstn_skipn k l). apply in_or_app. now left. Qed.

Lemma in_skipn {A} (l : list A) k x : In x (skipn k l) -> In x l.
Proof. intros H. rewrite <- (firstn_skipn k l). apply in_or_app. now right. Qed.

Lemma len_firstn_lt {A} (l : list A) k : (k <= length l)%nat -> len (firstn k l) = Z.of_nat k.
Proof. apply len_firstn_le. Qed.

Lemma len_flat_map_const {A} (f : A -> bytes) k (l : list A) :
  (forall x, In x l -> len (f x) = k) -> len (flat_map f l) = k * len l.
Proof.
  induction l as [|x l IH]; intros H; cbn [flat_map]; [unfold len; cbn [length]; lia|].
  rewrite len_app, len_cons.
  rewrite IH by (intros y Hy; apply H; now right).
  rewrite (H x) by now left. lia.
Qed.

Lemma len_concat_hashes dict : hashes32 dict -> len (concat dict) = 32 * len dict.
Proof.
  induction 1 as [|h dict Hh Hd IH]; cbn [concat]; [reflexivity|].
  rewrite len_app, len_cons, IH, Hh. lia.
Qed.

Lemma len_flat_map_Value l : len (flat_map Value l) = totalLen l.
Proof.
  induction l as [|c l IH]; cbn [flat_map totalLen]; [reflexivity|].
  now rewrite len_app, IH.
Qed.

Lemma len_dictIndexBytes w d : In w widths -> len (dictIndexBytes w d) = w.
Proof.
  unfold widths. cbn [In]. intros [<-|[<-|[<-|[<-|[]]]]]; reflexivity.
Qed.

Lemma len_rowOf dict w c :
  In w widths -> len (Key c) = 72 -> len (rowOf dict w c) = w + 32.
Proof.
  intros Hw Hk. unfold rowOf.
  now rewrite len_app, len_dictIndexBytes, len_keyHashOf.
Qed.

Lemma len_tableEntry c : len (tableEntry c) = entryWidth c.
Proof.
  unfold tableEntry, entryWidth. destruct (c <=? 255), (c <=? 65535); reflexivity.
Qed.

Lemma len_table cums :
  len (flat_map tableEntry cums)
  = countWidth 1 cums + 2 * countWidth 2 cums + 4 * countWidth 4 cums.
Proof.
  induction cums as [|c cums IH]; [reflexivity|].
  cbn [flat_map]. rewrite len_app, IH, len_tableEntry, !countWidth_cons.
  destruct (entryWidth_cases c) as [E | [E | E]]; rewrite E; cbn [Z.eqb Pos.eqb]; lia.
Qed.

Lemma keysWellFormed_In l c : keysWellFormed l = true -> In c l -> len (Key c) = 72.
Proof.
  unfold keysWellFormed. rewrite forallb_forall. intros H Hc.
  apply Z.eqb_eq. now apply H.
Qed.

(** ** The dictionary of a change-set *)

Lemma dictionaryFrom_hashes32 l : forall dict,
  keysWellFormed l = true -> hashes32 dict -> hashes32 (dictionaryFrom dict l).
Proof.
  induction l as [|c l IH]; intros dict Hwf Hd; cbn [dictionaryFrom]; [exact Hd|].
  apply keysWellFormed_cons in Hwf. destruct Hwf as [Hk Hwf].
  destruct (indexOf (addrHashOf c) dict); [now apply IH|].
  apply IH; [exact Hwf|]. apply Forall_app. split; [exact Hd|].
  constructor; [now apply len_addrHashOf | constructor].
Qed.

Lemma dictionaryFrom_In l : forall dict h,
  In h (dictionaryFrom dict l) <-> In h dict \/ In h (map addrHashOf l).
Proof.
  induction l as [|c l IH]; intros dict h; cbn [dictionaryFrom map In]; [tauto|].
  destruct (indexOf (addrHashOf c) dict) as [d|] eqn:E.
  - rewrite IH. split; [tauto|]. intros [H|[<-|H]]; auto.
    left. apply indexOf_range in E. destruct E as [_ E]. eapply nth_error_In; eauto.
  - rewrite IH, in_app_iff. cbn [In]. tauto.
Qed.

Lemma dictionaryFrom_stable l : forall dict h d,
  indexOf h dict = Some d -> indexOf h (dictionaryFrom dict l) = Some d.
Proof.
  induction l as [|c l IH]; intros dict h d H; cbn [dictionaryFrom]; [exact H|].
  destruct (indexOf (addrHashOf c) dict); [now apply IH|].
  apply IH. now apply indexOf_app_l.
Qed.

Lemma dictionaryOf_has l c :
  In c l -> exists d, indexOf (addrHashOf c) (dictionaryOf l) = Some d.
Proof.
  intros Hc. apply indexOf_In, dictionaryFrom_In. right. now apply in_map.
Qed.

(** ** Go maps keyed by numbers *)

Lemma mapGet_filter_Z {V} (m : list (Z * V)) k k' :
  k <> k' ->
  mapGet Z.eqb (filter (fun p => negb (fst p =? k)) m) k' = mapGet Z.eqb m k'.
Proof.
  intros Hne. induction m as [|[a v] m IH]; cbn [filter mapGet fst]; [reflexivity|].
  destruct (Z.eqb_spec a k) as [->|Ha]; cbn [negb mapGet].
  - destruct (Z.eqb_spec k k'); [contradiction | exact IH].
  - destruct (a =? k'); [reflexivity | exact IH].
Qed.

Lemma mapGet_mapSet_Z {V} (m : list (Z * V)) k v k' :
  mapGet Z.eqb (mapSet Z.eqb m k v) k' = if k =? k' then Some v else mapGet Z.eqb m k'.
Proof.
  unfold mapSet. cbn [mapGet]. destruct (Z.eqb_spec k k'); [reflexivity|].
  now apply mapGet_filter_Z.
Qed.

Lemma filter_absent_Z {V} (m : list (Z * V)) k :
  mapGet Z.eqb m k = None -> filter (fun p => negb (fst p =? k)) m = m.
Proof.
  induction m as [|[a v] m IH]; cbn [mapGet filter fst]; [reflexivity|].
  destruct (a =? k); [discriminate|]. cbn [negb]. intros H. now rewrite IH.
Qed.

(** ** Reading the dictionary back *)

Lemma dictEntry_snoc dict h d :
  dictEntry (dict ++ [h]) d = if len dict =? d then Some h else dictEntry dict d.
Proof.
  unfold dictEntry. rewrite len_app. change (len [h]) with 1.
  pose proof (len_nonneg dict).
  destruct (Z.eqb_spec (len dict) d) as [<-|Hne].
  - replace ((0 <=? len dict) && (len dict <? len dict + 1)) with true
      by (symmetry; rewrite andb_true_iff, Z.leb_le, Z.ltb_lt; lia).
    unfold len. rewrite Nat2Z.id. rewrite nth_error_app2 by lia.
    rewrite Nat.sub_diag. reflexivity.
  - destruct (Z.leb_spec 0 d); cbn [andb]; [|reflexivity].
    destruct (Z.ltb_spec d (len dict)).
    + replace (d <? len dict + 1) with true by (symmetry; apply Z.ltb_lt; lia).
      apply nth_error_app1. unfold len in *. lia.
    + replace (d <? len dict + 1) with false by (symmetry; apply Z.ltb_ge; lia).
      reflexivity.
Qed.

Lemma readDict_loop b p r : forall dict2 dict1 m,
  b = p ++ concat (dict1 ++ dict2) ++ r ->
  len p = 4 + 2 ->
  hashes32 (dict1 ++ dict2) ->
  len (dict1 ++ dict2) < 2 ^ 32 ->
  (forall d, mapGet Z.eqb m d = dictEntry dict1 d) ->
  len m = len dict1 ->
  exists m',
    forLoop (length dict2) (len dict1) 1
      (fun i m =>
         let elemStart :=
           storageEnodingLengthOfNumOfElements + storageEnodingLengthOfDict + i * HashLength in
         h <- slice b elemStart (elemStart + HashLength) ;;
         Return (mapSet Z.eqb m (uint32 i) h)) m = Return m'
    /\ (forall d, mapGet Z.eqb m' d = dictEntry (dict1 ++ dict2) d)
    /\ len m' = len (dict1 ++ dict2).
Proof.
  induction dict2 as [|h dict2 IH]; intros dict1 m Hb Hp Hh Hlen Hget Hm.
  - exists m. rewrite app_nil_r. cbn [length forLoop]. auto.
  - cbn [length forLoop]. cbv zeta. unfold_consts.
    pose proof (len_nonneg dict1) as Hd1.
    assert (Hh1 : hashes32 dict1) by (apply Forall_app in Hh; tauto).
    assert (Hhh : len h = 32).
    { apply Forall_app in Hh. destruct Hh as [_ Hh]. now inversion Hh. }
    rewrite (slice_at b (p ++ concat dict1) h (concat dict2 ++ r)).
    2:{ rewrite Hb, concat_app. cbn [concat]. now rewrite <- !app_assoc. }
    2:{ rewrite len_app, len_concat_hashes, Hp by assumption. lia. }
    2:{ lia. }
    cbn [bind].
    assert (Hu : uint32 (len dict1) = len dict1).
    { unfold uint32. apply Z.mod_small. rewrite len_app, len_cons in Hlen.
      pose proof (len_nonneg dict2). lia. }
    rewrite Hu.
    destruct (IH (dict1 ++ [h]) (mapSet Z.eqb m (len dict1) h)) as (m' & Hrun & Hget' & Hm').
    + now rewrite <- app_assoc.
    + exact Hp.
    + now rewrite <- app_assoc.
    + now rewrite <- app_assoc.
    + intros d. rewrite mapGet_mapSet_Z, dictEntry_snoc, Hget. reflexivity.
    + unfold mapSet. rewrite len_cons, filter_absent_Z.
      * rewrite Hm, len_app, len_cons, len_nil. lia.
      * rewrite Hget. unfold dictEntry.
        replace (len dict1 <? len dict1) with false by (symmetry; apply Z.ltb_ge; lia).
        now rewrite andb_false_r.
    + exists m'. rewrite <- app_assoc in Hget', Hm'. cbn [app] in Hget', Hm'.
      split; [|split; assumption].
      rewrite <- Hrun. f_equal. rewrite len_app, len_cons, len_nil. lia.
Qed.

Lemma readDict_spec b p dict r :
  b = p ++ concat dict ++ r ->
  len p = 4 + 2 ->
  hashes32 dict ->
  len dict < 2 ^ 32 ->
  exists m,
    readDict b (len dict) = Return m
    /\ (forall d, mapGet Z.eqb m d = dictEntry dict d)
    /\ len m = len dict.
Proof.
  intros Hb Hp Hh Hlen. unfold readDict, len at 1. rewrite Nat2Z.id.
  apply (readDict_loop b p r dict [] []); auto.
  intros d. unfold dictEntry.
  destruct ((0 <=? d) && (d <? len [])); [|reflexivity].
  now destruct (Z.to_nat d).
Qed.

(** ** Reading the exceptions back *)

Lemma mapGet_exceptions excs : forall m d,
  mapGet Z.eqb (fold_left insertException excs m) d =
  match lastException d excs with
  | Some incB => Some (not64 (beUint incB))
  | None => mapGet Z.eqb m d
  end.
Proof.
  induction excs as [|e excs IH]; intros m d; cbn [fold_left lastException]; [reflexivity|].
  rewrite IH. destruct (lastException d excs); [reflexivity|].
  unfold insertException. rewrite mapGet_mapSet_Z.
  destruct (fst e =? d); reflexivity.
Qed.

Lemma readIncarnations_spec b p excs :
  b = p ++ flat_map exceptionRecord excs ->
  (forall e, In e excs -> 0 <= fst e < 2 ^ 32 /\ len (snd e) = 8) ->
  readIncarnations b (len p) = Return (fold_left insertException excs []).
Proof.
  intros Hb He.
  assert (Hrec : forall e, In e excs -> len (exceptionRecord e) = 12).
  { intros e Hin. unfold exceptionRecord. rewrite len_app, len_PutUint32.
    destruct (He e Hin) as [_ ->]. reflexivity. }
  unfold readIncarnations.
  replace (Z.to_nat ((len b - len p + 11) / 12)) with (length excs).
  2:{ rewrite Hb, len_app, (len_flat_map_const _ 12) by exact Hrec.
      replace (len p + 12 * len excs - len p + 11) with (len excs * 12 + 11) by lia.
      rewrite Z.div_add_l by lia. change (11 / 12) with 0. unfold len. lia. }
  apply (forLoop_fold _ insertException 12 (0, [])).
  intros k m Hk.
  pose proof (nth_cut excs k (0, []) Hk) as Hcut.
  set (e := nth k excs (0, [])) in *.
  assert (Hin : In e excs) by (apply nth_In; exact Hk).
  destruct (He e Hin) as [Hid Hinc].
  assert (Hpre : len (flat_map exceptionRecord (firstn k excs)) = 12 * Z.of_nat k).
  { rewrite (len_flat_map_const _ 12).
    - rewrite len_firstn_le by lia. reflexivity.
    - intros x Hx. apply Hrec. eapply in_firstn; eauto. }
  assert (Hb' : b = (p ++ flat_map exceptionRecord (firstn k excs))
                    ++ PutUint32 (fst e)
                    ++ (snd e ++ flat_map exceptionRecord (skipn (S k) excs))).
  { rewrite Hb. rewrite Hcut at 1.
    rewrite flat_map_app. cbn [flat_map]. unfold exceptionRecord at 2.
    now rewrite <- !app_assoc. }
  rewrite (slice_at b _ _ _ _ _ Hb');
    [| rewrite len_app, Hpre; lia | rewrite len_PutUint32; lia].
  cbn [bind]. rewrite Uint32_Put by exact Hid. cbn [bind].
  rewrite (slice_at b ((p ++ flat_map exceptionRecord (firstn k excs)) ++ PutUint32 (fst e))
             (snd e) (flat_map exceptionRecord (skipn (S k) excs))).
  - cbn [bind]. rewrite (Uint64_exact _ Hinc). cbn [bind]. reflexivity.
  - rewrite Hb'. now rewrite <- !app_assoc.
  - rewrite !len_app, Hpre, len_PutUint32. lia.
  - rewrite Hinc. lia.
Qed.

(** ** Which exceptions the encoder writes *)

Lemma lastException_In d excs x : lastException d excs = Some x -> In (d, x) excs.
Proof.
  induction excs as [|[i v] excs IH]; cbn [lastException In fst snd]; [discriminate|].
  destruct (lastException d excs) as [y|].
  - intros [= ->]. right. now apply IH.
  - destruct (Z.eqb_spec i d) as [->|]; [|discriminate]. intros [= ->]. now left.
Qed.

Lemma lastException_some d excs x :
  In (d, x) excs -> exists y, lastException d excs = Some y.
Proof.
  induction excs as [|[i v] excs IH]; cbn [lastException In fst snd]; [contradiction|].
  intros [[= -> ->]|H].
  - destruct (lastException d excs); [eauto|]. rewrite Z.eqb_refl. eauto.
  - destruct (IH H) as [y ->]. eauto.
Qed.

Lemma exceptionsFrom_In : forall l dict i id incB,
  In (id, incB) (exceptionsFrom dict i l) <->
  exists l1 c l2,
    l = l1 ++ c :: l2
    /\ id = uint32 (i + len l1)
    /\ ~ In (addrHashOf c) dict
    /\ ~ In (addrHashOf c) (map addrHashOf l1)
    /\ hasDefaultIncarnation c = false
    /\ incB = incarnationOf c.
Proof.
  induction l as [|c0 l IH]; intros dict i id incB; cbn [exceptionsFrom].
  - split; [contradiction|]. intros (l1 & c & l2 & H & _). now destruct l1.
  - destruct (indexOf (addrHashOf c0) dict) as [d0|] eqn:E0.
    + assert (Hin0 : In (addrHashOf c0) dict).
      { apply indexOf_range in E0. destruct E0 as [_ E0]. eapply nth_error_In; eauto. }
      rewrite IH. split.
      * intros (l1 & c & l2 & -> & -> & Hd & Hl1 & Hdef & ->).
        exists (c0 :: l1), c, l2. rewrite len_cons. cbn [map In app].
        split; [reflexivity|]. split; [f_equal; lia|]. split; [exact Hd|].
        split; [|split; [exact Hdef | reflexivity]].
        intros [H|H]; [|contradiction]. apply Hd. now rewrite <- H.
      * intros (l1 & c & l2 & Hl & -> & Hd & Hl1 & Hdef & ->).
        destruct l1 as [|c1 l1]; cbn [app] in Hl; injection Hl as <- ->.
        -- contradiction.
        -- exists l1, c, l2. rewrite len_cons. cbn [map In] in Hl1.
           split; [reflexivity|]. split; [f_equal; lia|]. split; [exact Hd|].
           split; [tauto|split; [exact Hdef | reflexivity]].
    + apply indexOf_None in E0. rewrite in_app_iff, IH. split.
      * intros [H|(l1 & c & l2 & -> & -> & Hd & Hl1 & Hdef & ->)].
        -- destruct (hasDefaultIncarnation c0) eqn:Edef; [contradiction|].
           destruct H as [[= <- <-]|[]].
           exists [], c0, l. cbn [app map In]. rewrite len_nil, Z.add_0_r.
           split; [reflexivity|]. split; [reflexivity|]. split; [exact E0|].
           split; [tauto|split; [exact Edef | reflexivity]].
        -- exists (c0 :: l1), c, l2. rewrite len_cons. cbn [map In app].
           rewrite in_app_iff in Hd. cbn [In] in Hd.
           split; [reflexivity|]. split; [f_equal; lia|]. split; [tauto|].
           split; [|split; [exact Hdef | reflexivity]].
           intros [H|H]; [|contradiction]. apply Hd. right. left. exact H.
      * intros (l1 & c & l2 & Hl & -> & Hd & Hl1 & Hdef & ->).
        destruct l1 as [|c1 l1]; cbn [app] in Hl; injection Hl as <- ->.
        -- left. rewrite Hdef. rewrite len_nil, Z.add_0_r. now left.
        -- right. exists l1, c, l2. rewrite len_cons. cbn [map In] in Hl1.
           split; [reflexivity|]. split; [f_equal; lia|].
           split; [|split; [tauto|split; [exact Hdef | reflexivity]]].
           rewrite in_app_iff. cbn [In]. intros [H|[H|[]]]; [contradiction|].
           apply Hl1. now left.
Qed.

Lemma indexOf_first l1 c l2 :
  ~ In (addrHashOf c) (map addrHashOf l1) ->
  indexOf (addrHashOf c) (map addrHashOf (l1 ++ c :: l2)) = Some (len l1).
Proof.
  induction l1 as [|c1 l1 IH]; cbn [app map indexOf In]; intros H.
  - now rewrite bytesEqual_refl.
  - destruct (bytesEqual (addrHashOf c1) (addrHashOf c)) eqn:E.
    + apply bytesEqual_eq in E. tauto.
    + rewrite IH by tauto. rewrite len_cons. f_equal. lia.
Qed.

Lemma first_occurrence (l : list Change) c :
  In c l ->
  exists l1 c' l2,
    l = l1 ++ c' :: l2
    /\ addrHashOf c' = addrHashOf c
    /\ ~ In (addrHashOf c) (map addrHashOf l1).
Proof.
  induction l as [|c0 l IH]; cbn [In]; [contradiction|].
  intros Hin.
  destruct (list_eq_dec Byte.byte_eq_dec (addrHashOf c0) (addrHashOf c)) as [E|E].
  - exists [], c0, l. cbn. auto.
  - destruct Hin as [->|Hin]; [contradiction|].
    destruct (IH Hin) as (l1 & c' & l2 & -> & Ha & Hn).
    exists (c0 :: l1), c', l2. cbn [app map In]. repeat split; auto. tauto.
Qed.

Lemma split_same_length {A} (l1 l1' : list A) c c' l2 l2' :
  l1 ++ c :: l2 = l1' ++ c' :: l2' -> len l1 = len l1' -> c = c'.
Proof.
  revert l1'. induction l1 as [|x l1 IH]; intros [|x' l1']; cbn [app];
    rewrite ?len_cons, ?len_nil; intros H Hl.
  - congruence.
  - pose proof (len_nonneg l1'). lia.
  - pose proof (len_nonneg l1). lia.
  - injection H as _ H. apply (IH l1'); [exact H | lia].
Qed.

Lemma oneIncarnationPerAddress_spec l c d :
  oneIncarnationPerAddress l = true -> In c l -> In d l ->
  addrHashOf c = addrHashOf d -> incarnationOf c = incarnationOf d.
Proof.
  unfold oneIncarnationPerAddress. rewrite forallb_forall. intros H Hc Hd E.
  specialize (H c Hc). rewrite forallb_forall in H. specialize (H d Hd).
  rewrite E, bytesEqual_refl in H. cbn [negb orb] in H. now apply bytesEqual_eq.
Qed.

Lemma exceptionsAddressable_spec l c :
  exceptionsAddressable l = true -> In c l -> hasDefaultIncarnation c = false ->
  exists i,
    indexOf (addrHashOf c) (map addrHashOf l) = Some i
    /\ indexOf (addrHashOf c) (dictionaryOf l) = Some i.
Proof.
  unfold exceptionsAddressable. rewrite forallb_forall. intros H Hc Hdef.
  specialize (H c Hc). rewrite Hdef in H. cbn [orb] in H.
  destruct (indexOf (addrHashOf c) (map addrHashOf l)) as [i|]; [|discriminate].
  destruct (indexOf (addrHashOf c) (dictionaryOf l)) as [d|]; [|discriminate].
  apply Z.eqb_eq in H. subst. eauto.
Qed.

Lemma hasDefaultIncarnation_ext c d :
  incarnationOf c = incarnationOf d -> hasDefaultIncarnation c = hasDefaultIncarnation d.
Proof. unfold hasDefaultIncarnation. now intros ->. Qed.

(** The exception the decoder finds under the dictionary index of an
    element is the incarnation of that element, when each address-hash has
    one incarnation and the exceptions are addressable. *)
Lemma lastException_of_element l c :
  oneIncarnationPerAddress l = true ->
  exceptionsAddressable l = true ->
  len l < 2 ^ 32 ->
  In c l ->
  lastException (dictIndexOf (dictionaryOf l) c) (exceptionsFrom [] 0 l)
  = if hasDefaultIncarnation c then None else Some (incarnationOf c).
Proof.
  intros Hone Haddr Hlen Hc.
  destruct (dictionaryOf_has l c Hc) as [d Hd].
  unfold dictIndexOf. rewrite Hd.
  assert (Hsmall : forall l1 c' l2, l = l1 ++ c' :: l2 -> uint32 (0 + len l1) = len l1).
  { intros l1 c' l2 ->. rewrite len_app, len_cons in Hlen.
    pose proof (len_nonneg l1). pose proof (len_nonneg l2).
    unfold uint32. apply Z.mod_small. lia. }
  destruct (hasDefaultIncarnation c) eqn:Edef.
  - destruct (lastException d (exceptionsFrom [] 0 l)) as [x|] eqn:El; [|reflexivity].
    exfalso. apply lastException_In, exceptionsFrom_In in El.
    destruct El as (l1 & c' & l2 & Hl & Hid & _ & Hfirst & Hdef' & _).
    rewrite (Hsmall _ _ _ Hl) in Hid.
    assert (Hc' : In c' l) by (rewrite Hl; apply in_or_app; right; now left).
    destruct (exceptionsAddressable_spec l c' Haddr Hc' Hdef') as (i & Hi1 & Hi2).
    rewrite Hl in Hi1. rewrite (indexOf_first l1 c' l2 Hfirst) in Hi1.
    injection Hi1 as <-. rewrite <- Hid in Hi2.
    pose proof (indexOf_inj _ _ _ _ Hd Hi2) as Ea.
    pose proof (oneIncarnationPerAddress_spec l c c' Hone Hc Hc' Ea) as Ei.
    rewrite (hasDefaultIncarnation_ext _ _ Ei) in Edef. congruence.
  - destruct (first_occurrence l c Hc) as (l1 & c' & l2 & Hl & Ha & Hfirst).
    assert (Hc' : In c' l) by (rewrite Hl; apply in_or_app; right; now left).
    pose proof (oneIncarnationPerAddress_spec l c' c Hone Hc' Hc Ha) as Ei.
    assert (Hdef' : hasDefaultIncarnation c' = false)
      by (rewrite (hasDefaultIncarnation_ext _ _ Ei); exact Edef).
    assert (Hin : In (len l1, incarnationOf c') (exceptionsFrom [] 0 l)).
    { apply exceptionsFrom_In. exists l1, c', l2.
      rewrite (Hsmall _ _ _ Hl), Ha. repeat split; auto. }
    destruct (exceptionsAddressable_spec l c Haddr Hc Edef) as (i & Hi1 & Hi2).
    rewrite Hl in Hi1. rewrite <- Ha in Hi1.
    rewrite <- Ha in Hfirst.
    rewrite (indexOf_first l1 c' l2 Hfirst) in Hi1. injection Hi1 as <-.
    assert (d = len l1) by congruence. subst d.
    destruct (lastException_some _ _ _ Hin) as [y Hy].
    rewrite Hy. f_equal.
    apply lastException_In, exceptionsFrom_In in Hy.
    destruct Hy as (l1' & c'' & l2' & Hl' & Hid' & _ & _ & _ & ->).
    rewrite (Hsmall _ _ _ Hl') in Hid'.
    rewrite Hl in Hl'. rewrite (split_same_length _ _ _ _ _ _ Hl' Hid') in Ei.
    exact Ei.
Qed.

(** ** [findVal] against the format *)

(** Where [findValCovers] holds, [findVal] is the range lookup of the
    format, on any table and any value bytes. *)
Lemma findVal_follows_format lenOfVals vals i n8 n16 n32 :
  findValCovers n8 n16 n32 i = true ->
  findVal lenOfVals vals i n8 n16 n32 = findValSpec lenOfVals vals i n8 n16 n32.
Proof.
  unfold findValCovers. rewrite andb_true_iff, !orb_true_iff, !andb_true_iff.
  rewrite !Z.leb_le, !Z.ltb_lt. intros [H0 Hc].
  unfold findVal, findValSpec, cumEntry.
  destruct (Z.ltb_spec i n8) as [H8|H8].
  - destruct (index lenOfVals i); cbn [bind]; [|reflexivity].
    destruct (Z.ltb_spec 0 i), (Z.eqb_spec i 0); try lia; [|reflexivity].
    destruct (Z.ltb_spec (i - 1) n8); [|lia].
    destruct (index lenOfVals (i - 1)); reflexivity.
  - destruct (Z.ltb_spec i (n8 + n16)) as [H16|H16].
    + assert (H1 : 1 <= i) by lia.
      replace (n8 + (i - n8) * 2) with (i * 2 - n8) by lia.
      destruct (slice lenOfVals (i * 2 - n8) (i * 2 - n8 + 2)); cbn [bind]; [|reflexivity].
      destruct (Uint16 a); cbn [bind]; [|reflexivity].
      destruct (Z.eqb_spec i 0); [lia|].
      destruct (Z.ltb_spec (i - 1) n8).
      * destruct (index lenOfVals (i - 1)); reflexivity.
      * destruct (Z.ltb_spec (i - 1) (n8 + n16)); [|lia].
        replace (n8 + (i - 1 - n8) * 2) with ((i - 1) * 2 - n8) by lia.
        reflexivity.
    + destruct (Z.ltb_spec i (n8 + n16 + n32)) as [H32|H32]; [|lia].
      assert (H1 : n8 <= i - 1) by lia.
      destruct (slice lenOfVals _ _); cbn [bind]; [|reflexivity].
      destruct (Uint32 a); cbn [bind]; [|reflexivity].
      destruct (Z.eqb_spec i 0); [lia|].
      destruct (Z.ltb_spec (i - 1) n8); [lia|].
      destruct (Z.ltb_spec (i - 1) (n8 + n16)).
      * replace (n8 + (i - 1 - n8) * 2) with ((i - 1) * 2 - n8) by lia.
        reflexivity.
      * destruct (Z.ltb_spec (i - 1) (n8 + n16 + n32)); [|lia]. reflexivity.
Qed.

(** ** The cumulative length table of an encoding *)

Lemma countWidth_app w a b : countWidth w (a ++ b) = countWidth w a + countWidth w b.
Proof. unfold countWidth. now rewrite filter_app, len_app. Qed.

Lemma countWidth_none w cums :
  Forall (fun c => entryWidth c <> w) cums -> countWidth w cums = 0.
Proof.
  induction 1 as [|c cums Hc _ IH]; [reflexivity|].
  rewrite countWidth_cons, IH. destruct (Z.eqb_spec (entryWidth c) w); [contradiction|lia].
Qed.

Lemma cumLens_app s l1 l2 :
  cumLens s (l1 ++ l2) = cumLens s l1 ++ cumLens (s + totalLen l1) l2.
Proof.
  revert s. induction l1 as [|c l1 IH]; intros s; cbn [app cumLens totalLen].
  - now rewrite Z.add_0_r.
  - rewrite IH. do 3 f_equal. lia.
Qed.

Lemma cumLens_bounds s l :
  Forall (fun y => s <= y <= s + totalLen l) (cumLens s l).
Proof.
  revert s. induction l as [|c l IH]; intros s; cbn [cumLens totalLen]; constructor.
  - pose proof (len_nonneg (Value c)). pose proof (totalLen_nonneg l). lia.
  - eapply Forall_impl; [|apply IH]. cbn beta. intros y Hy.
    pose proof (len_nonneg (Value c)). lia.
Qed.

Lemma totalLen_app l1 l2 : totalLen (l1 ++ l2) = totalLen l1 + totalLen l2.
Proof. induction l1 as [|c l1 IH]; cbn [app totalLen]; lia. Qed.

(** Entry [len l1] of the table written for [l1 ++ x :: l2] is the
    cumulative length up to and including [x]. *)
Lemma cumEntry_table l1 x l2 r :
  let l := l1 ++ x :: l2 in
  let cums := cumLens 0 l in
  totalLen l < 2 ^ 32 ->
  cumEntry (flat_map tableEntry cums ++ r)
    (countWidth 1 cums) (countWidth 2 cums) (countWidth 4 cums) (len l1)
  = Return (totalLen l1 + len (Value x)).
Proof.
  cbv zeta. intros Htot.
  rewrite cumLens_app. cbn [cumLens]. rewrite Z.add_0_l.
  set (c := totalLen l1 + len (Value x)).
  assert (Hcdef : c = totalLen l1 + len (Value x)) by reflexivity.
  set (C1 := cumLens 0 l1). set (C2 := cumLens c l2).
  pose proof (cumLens_bounds 0 l1) as HC1. fold C1 in HC1.
  pose proof (cumLens_bounds c l2) as HC2. fold C2 in HC2.
  rewrite totalLen_app in Htot. cbn [totalLen] in Htot.
  pose proof (len_nonneg (Value x)) as Hx. pose proof (totalLen_nonneg l1) as H1.
  pose proof (totalLen_nonneg l2) as H2.
  assert (Hi : len l1 = countWidth 1 C1 + countWidth 2 C1 + countWidth 4 C1)
    by (rewrite countWidth_total; subst C1; now rewrite len_cumLens).
  pose proof (len_table C1) as HT1.
  pose proof (countWidth_nonneg 1 C1). pose proof (countWidth_nonneg 2 C1).
  pose proof (countWidth_nonneg 4 C1). pose proof (countWidth_nonneg 1 C2).
  pose proof (countWidth_nonneg 2 C2). pose proof (countWidth_nonneg 4 C2).
  rewrite !countWidth_app, !countWidth_cons.
  rewrite flat_map_app. cbn [flat_map]. rewrite <- !app_assoc.
  unfold cumEntry.
  destruct (Z.le_gt_cases c 255) as [Hc|Hc].
  - assert (Ew : entryWidth c = 1)
      by (unfold entryWidth; destruct (Z.leb_spec c 255); [reflexivity | lia]).
    assert (Et : tableEntry c = [byte.of_Z (uint8 c)])
      by (unfold tableEntry; destruct (Z.leb_spec c 255); [reflexivity | lia]).
    rewrite Ew, Et. cbn [Z.eqb Pos.eqb].
    assert (countWidth 2 C1 = 0 /\ countWidth 4 C1 = 0) as [E2 E4].
    { split; apply countWidth_none; eapply Forall_impl; try exact HC1;
        cbn beta; intros y Hy; unfold entryWidth;
        destruct (Z.leb_spec y 255); try discriminate; exfalso; lia. }
    destruct (Z.ltb_spec (len l1) (countWidth 1 C1 + (1 + countWidth 1 C2))); [|lia].
    rewrite (index_at _ (flat_map tableEntry C1) (flat_map tableEntry C2 ++ r)
               (byte.of_Z (uint8 c)) (len l1)); [| reflexivity | lia].
    cbn [bind]. f_equal. rewrite byte.unsigned_of_Z. unfold byte.wrap, uint8.
    change (2 ^ 8) with 256. rewrite (Z.mod_small c 256) by lia.
    apply Z.mod_small. lia.
  - destruct (Z.le_gt_cases c 65535) as [Hc'|Hc'].
    + assert (Ew : entryWidth c = 2).
      { unfold entryWidth. destruct (Z.leb_spec c 255); [lia|].
        destruct (Z.leb_spec c 65535); [reflexivity | lia]. }
      assert (Et : tableEntry c = PutUint16 (uint16 c)).
      { unfold tableEntry. destruct (Z.leb_spec c 255); [lia|].
        destruct (Z.leb_spec c 65535); [reflexivity | lia]. }
      rewrite Ew, Et. cbn [Z.eqb Pos.eqb].
      assert (E4 : countWidth 4 C1 = 0).
      { apply countWidth_none; eapply Forall_impl; try exact HC1;
          cbn beta; intros y Hy; unfold entryWidth;
          destruct (Z.leb_spec y 255); [discriminate|].
          destruct (Z.leb_spec y 65535); [discriminate | exfalso; lia]. }
      assert (E1 : countWidth 1 C2 = 0).
      { apply countWidth_none; eapply Forall_impl; try exact HC2;
          cbn beta; intros y Hy; unfold entryWidth;
          destruct (Z.leb_spec y 255); [exfalso; lia|].
          destruct (Z.leb_spec y 65535); discriminate. }
      destruct (Z.ltb_spec (len l1) (countWidth 1 C1 + (0 + countWidth 1 C2))); [lia|].
      destruct (Z.ltb_spec (len l1) (countWidth 1 C1 + (0 + countWidth 1 C2)
                                     + (countWidth 2 C1 + (1 + countWidth 2 C2)))); [|lia].
      rewrite (slice_at _ (flat_map tableEntry C1) (PutUint16 (uint16 c))
                 (flat_map tableEntry C2 ++ r)); [| reflexivity | lia | rewrite len_PutUint16; lia].
      cbn [bind]. unfold uint16. change (2 ^ 16) with 65536.
      rewrite Z.mod_small by lia. rewrite Uint16_Put; [reflexivity|].
      change (2 ^ 16) with 65536. lia.
    + assert (Ew : entryWidth c = 4).
      { unfold entryWidth. destruct (Z.leb_spec c 255); [lia|].
        destruct (Z.leb_spec c 65535); [lia | reflexivity]. }
      assert (Et : tableEntry c = PutUint32 c).
      { unfold tableEntry. destruct (Z.leb_spec c 255); [lia|].
        destruct (Z.leb_spec c 65535); [lia | reflexivity]. }
      rewrite Ew, Et. cbn [Z.eqb Pos.eqb].
      assert (E1 : countWidth 1 C2 = 0 /\ countWidth 2 C2 = 0).
      { split; apply countWidth_none; eapply Forall_impl; try exact HC2;
          cbn beta; intros y Hy; unfold entryWidth;
          destruct (Z.leb_spec y 255); try (exfalso; lia);
          destruct (Z.leb_spec y 65535); try (exfalso; lia); discriminate. }
      destruct E1 as [E1 E2].
      destruct (Z.ltb_spec (len l1) (countWidth 1 C1 + (0 + countWidth 1 C2))); [lia|].
      destruct (Z.ltb_spec (len l1) (countWidth 1 C1 + (0 + countWidth 1 C2)
                                     + (countWidth 2 C1 + (0 + countWidth 2 C2)))); [lia|].
      destruct (Z.ltb_spec (len l1) (countWidth 1 C1 + (0 + countWidth 1 C2)
                                     + (countWidth 2 C1 + (0 + countWidth 2 C2))
                                     + (countWidth 4 C1 + (1 + countWidth 4 C2)))); [|lia].
      rewrite (slice_at _ (flat_map tableEntry C1) (PutUint32 c)
                 (flat_map tableEntry C2 ++ r)); [| reflexivity | lia | rewrite len_PutUint32; lia].
      cbn [bind]. rewrite Uint32_Put by lia. reflexivity.
Qed.

(** ** One element of an encoding *)

Lemma findVal_element l1 x l2 r :
  let l := l1 ++ x :: l2 in
  let cums := cumLens 0 l in
  totalLen l < 2 ^ 32 ->
  findValCovers (countWidth 1 cums) (countWidth 2 cums) (countWidth 4 cums) (len l1) = true ->
  findVal (flat_map tableEntry cums) (flat_map Value l ++ r) (len l1)
    (countWidth 1 cums) (countWidth 2 cums) (countWidth 4 cums)
  = Return (Value x).
Proof.
  cbv zeta. intros Htot Hcov.
  rewrite findVal_follows_format by exact Hcov.
  unfold findValSpec.
  pose proof (cumEntry_table l1 x l2 [] Htot) as He. cbv zeta in He.
  rewrite app_nil_r in He. rewrite He. cbn [bind].
  assert (Hstart :
    (if len l1 =? 0 then Return 0
     else cumEntry (flat_map tableEntry (cumLens 0 (l1 ++ x :: l2)))
            (countWidth 1 (cumLens 0 (l1 ++ x :: l2)))
            (countWidth 2 (cumLens 0 (l1 ++ x :: l2)))
            (countWidth 4 (cumLens 0 (l1 ++ x :: l2))) (len l1 - 1))
    = Return (totalLen l1)).
  { destruct l1 as [|y0 l1'] using rev_ind; [reflexivity|]. clear IHl1'.
    rewrite len_app, len_cons, len_nil.
    pose proof (len_nonneg l1') as Hl1.
    destruct (Z.eqb_spec (len l1' + (1 + 0)) 0); [lia|].
    replace (len l1' + (1 + 0) - 1) with (len l1') by lia.
    rewrite <- app_assoc in *. cbn [app] in *.
    pose proof (cumEntry_table l1' y0 (x :: l2) [] Htot) as Hp. cbv zeta in Hp.
    rewrite app_nil_r in Hp. rewrite Hp.
    rewrite totalLen_app. cbn [totalLen]. f_equal. lia. }
  rewrite Hstart. cbn [bind].
  apply slice_at with (p := flat_map Value l1) (s := flat_map Value l2 ++ r).
  - rewrite flat_map_app. cbn [flat_map]. now rewrite <- !app_assoc.
  - symmetry. apply len_flat_map_Value.
  - reflexivity.
Qed.

(** The bucket counts are enough to find the end of the value bytes. *)
Lemma calculateIncarnationPos3_last b n8 n16 n32 :
  0 <= n8 -> 0 <= n16 -> 0 <= n32 -> 0 < n8 + n16 + n32 ->
  calculateIncarnationPos3 b n8 n16 n32 =
  (v <- cumEntry b n8 n16 n32 (n8 + n16 + n32 - 1) ;;
   Return (v + (n8 + n16 * 2 + n32 * 4))).
Proof.
  intros H8 H16 H32 Hpos. unfold calculateIncarnationPos3, cumEntry.
  destruct (Z.ltb_spec 0 n32).
  - destruct (Z.ltb_spec (n8 + n16 + n32 - 1) n8); [lia|].
    destruct (Z.ltb_spec (n8 + n16 + n32 - 1) (n8 + n16)); [lia|].
    destruct (Z.ltb_spec (n8 + n16 + n32 - 1) (n8 + n16 + n32)); [|lia].
    replace (n8 + n16 * 2 + (n8 + n16 + n32 - 1 - n8 - n16) * 4)
      with (n8 + n16 * 2 + n32 * 4 - 4) by lia.
    replace (n8 + n16 * 2 + n32 * 4 - 4 + 4) with (n8 + n16 * 2 + n32 * 4) by lia.
    destruct (slice b _ _); cbn [bind]; [|reflexivity].
    destruct (Uint32 a); reflexivity.
  - assert (n32 = 0) by lia. subst n32.
    destruct (Z.ltb_spec 0 n16).
    + destruct (Z.ltb_spec (n8 + n16 + 0 - 1) n8); [lia|].
      destruct (Z.ltb_spec (n8 + n16 + 0 - 1) (n8 + n16)); [|lia].
      replace (n8 + (n8 + n16 + 0 - 1 - n8) * 2) with (n8 + n16 * 2 - 2) by lia.
      replace (n8 + n16 * 2 - 2 + 2) with (n8 + n16 * 2) by lia.
      replace (n8 + n16 * 2 + 0 * 4) with (n8 + n16 * 2) by lia.
      destruct (slice b _ _); cbn [bind]; [|reflexivity].
      destruct (Uint16 a); reflexivity.
    + assert (n16 = 0) by lia. subst n16.
      destruct (Z.ltb_spec 0 n8); [|lia].
      destruct (Z.ltb_spec (n8 + 0 + 0 - 1) n8); [|lia].
      replace (n8 + 0 + 0 - 1) with (n8 - 1) by lia.
      replace (n8 + 0 * 2 + 0 * 4) with n8 by lia.
      destruct (index b (n8 - 1)); reflexivity.
Qed.

Lemma getUint32_dictIndexBytes D d :
  0 <= d < D -> D <= 65535 ->
  getUint32 (dictIndexBytes (getNumOfBytesByLen D) d) = Return d.
Proof.
  intros Hd HD. unfold getNumOfBytesByLen.
  destruct (Z.ltb_spec D 255).
  - cbn. f_equal. rewrite byte.unsigned_of_Z. unfold byte.wrap, uint8.
    change (2 ^ 8) with 256. rewrite (Z.mod_small d 256) by lia. apply Z.mod_small. lia.
  - destruct (Z.ltb_spec D 65535).
    + unfold dictIndexBytes, getUint32. cbn [Z.eqb Pos.eqb].
      rewrite len_PutUint16. cbn [Z.eqb Pos.eqb].
      unfold PutUint16. rewrite beUint_bePut. f_equal.
      unfold uint16. change (2 ^ (Z.of_nat 2 * 8)) with 65536. change (2 ^ 16) with 65536.
      rewrite (Z.mod_small d 65536) by lia. apply Z.mod_small. lia.
    + destruct (Z.ltb_spec D 4294967295); [|lia].
      unfold dictIndexBytes, getUint32. cbn [Z.eqb Pos.eqb].
      rewrite len_PutUint32. cbn [Z.eqb Pos.eqb].
      unfold PutUint32. rewrite beUint_bePut. f_equal.
      change (2 ^ (Z.of_nat 4 * 8)) with 4294967296. apply Z.mod_small. lia.
Qed.

Lemma copy_onto_zeros h : len h = 32 -> copy (repeat Byte.x00 (Z.to_nat 32)) h = h.
Proof.
  intros H. unfold copy. rewrite repeat_length.
  rewrite firstn_all2 by (unfold len in H; lia).
  rewrite skipn_all2 by (rewrite repeat_length; unfold len in H; lia).
  apply app_nil_r.
Qed.

Lemma default_incarnation_bytes c :
  len (Key c) = 72 -> hasDefaultIncarnation c = true ->
  incarnationOf c = PutUint64 (not64 DefaultIncarnation).
Proof.
  intros Hk Hd. unfold hasDefaultIncarnation in Hd. apply Z.eqb_eq in Hd.
  unfold DefaultIncarnation in *. apply not64_inj in Hd.
  rewrite not64_involutive, <- Hd. unfold PutUint64.
  replace 8%nat with (length (incarnationOf c))
    by (pose proof (len_incarnationOf c Hk) as H8; unfold len in H8; lia).
  symmetry. apply bePut_beUint.
Qed.

(** The incarnation bytes the decoders rebuild for an element. *)
Lemma incarnationBytes_of_element l c :
  keysWellFormed l = true ->
  oneIncarnationPerAddress l = true ->
  exceptionsAddressable l = true ->
  len l < 2 ^ 32 ->
  In c l ->
  incarnationBytes (fold_left insertException (exceptionsFrom [] 0 l) [])
    (dictIndexOf (dictionaryOf l) c)
  = incarnationOf c.
Proof.
  intros Hwf Hone Haddr Hlen Hc.
  pose proof (keysWellFormed_In l c Hwf Hc) as Hk.
  unfold incarnationBytes. rewrite mapGet_exceptions.
  rewrite (lastException_of_element l c Hone Haddr Hlen Hc).
  destruct (hasDefaultIncarnation c) eqn:Ed.
  - cbn [mapGet]. symmetry. now apply default_incarnation_bytes.
  - rewrite not64_involutive. unfold PutUint64.
    replace 8%nat with (length (incarnationOf c))
      by (pose proof (len_incarnationOf c Hk) as H8; unfold len in H8; lia).
    apply bePut_beUint.
Qed.

(** [decodeElement] on a buffer cut into its parts. *)
Lemma decodeElement_at (b pre rows1 idB kh rows2 cnt tbl vals : bytes)
    addMap nd w d i addr inc v n8 n16 n32 elementStart lenOfValsPos valuesPos :
  b = pre ++ rows1 ++ idB ++ kh ++ rows2 ++ cnt ++ tbl ++ vals ->
  elementStart = len pre ->
  len rows1 = i * (w + 32) ->
  len idB = w ->
  len kh = 32 ->
  getUint32 idB = Return d ->
  copy (repeat Byte.x00 (Z.to_nat 32)) (mapGetBytes addMap d) = addr ->
  incarnationBytes nd d = inc ->
  lenOfValsPos = len (pre ++ rows1 ++ idB ++ kh ++ rows2 ++ cnt) ->
  valuesPos = lenOfValsPos + len tbl ->
  findVal tbl vals i n8 n16 n32 = Return v ->
  decodeElement b addMap nd elementStart w lenOfValsPos valuesPos n8 n16 n32 i
  = Return {| Key := addr ++ inc ++ kh; Value := v |}.
Proof.
  intros Hb He Hr Hid Hkh Hget Haddr Hinc Hlv Hvp Hfv.
  unfold decodeElement. cbv zeta. unfold_consts.
  rewrite (slice_at b (pre ++ rows1) idB (kh ++ rows2 ++ cnt ++ tbl ++ vals));
    [| rewrite Hb; now rewrite <- !app_assoc | rewrite len_app; lia | lia].
  cbn [bind]. rewrite Hget. cbn [bind].
  rewrite (slice_at b (pre ++ rows1 ++ idB) kh (rows2 ++ cnt ++ tbl ++ vals));
    [| rewrite Hb; now rewrite <- !app_assoc | rewrite !len_app; lia | lia].
  cbn [bind].
  rewrite (slice_at b (pre ++ rows1 ++ idB ++ kh ++ rows2 ++ cnt) tbl vals);
    [| rewrite Hb; now rewrite <- !app_assoc | exact Hlv | lia].
  cbn [bind].
  rewrite (sliceFrom_at b ((pre ++ rows1 ++ idB ++ kh ++ rows2 ++ cnt) ++ tbl) vals);
    [| rewrite Hb; now rewrite <- !app_assoc | rewrite len_app; lia].
  cbn [bind]. rewrite Hfv. cbn [bind]. now rewrite Haddr, Hinc.
Qed.

(** ** Decoding the layout *)

Lemma fold_left_snoc {A} (l acc : list A) :
  fold_left (fun acc c => acc ++ [c]) l acc = acc ++ l.
Proof.
  revert acc. induction l as [|x l IH]; intros acc; cbn [fold_left].
  - now rewrite app_nil_r.
  - rewrite IH, <- app_assoc. reflexivity.
Qed.

Lemma exceptions_wellformed l e :
  keysWellFormed l = true -> In e (exceptionsFrom [] 0 l) ->
  0 <= fst e < 2 ^ 32 /\ len (snd e) = 8.
Proof.
  intros Hwf Hin. destruct e as [id incB].
  apply exceptionsFrom_In in Hin.
  destruct Hin as (l1 & c & l2 & Hl & -> & _ & _ & _ & ->). cbn [fst snd].
  split; [apply Z.mod_pos_bound; lia|].
  apply len_incarnationOf, (keysWellFormed_In l); [exact Hwf|].
  rewrite Hl. apply in_or_app. right. now left.
Qed.

Lemma tableCovered_spec l k :
  tableCovered l = true -> (k < length l)%nat ->
  findValCovers (countWidth 1 (cumLens 0 l)) (countWidth 2 (cumLens 0 l))
    (countWidth 4 (cumLens 0 l)) (Z.of_nat k) = true.
Proof.
  unfold tableCovered. cbv zeta. rewrite forallb_forall. intros H Hk.
  apply H, in_seq. lia.
Qed.

(** The parts of the layout, with the lengths the decoders compute. *)
Lemma layout_parts l :
  keysWellFormed l = true ->
  let dict := dictionaryOf l in
  let w := getNumOfBytesByLen (len dict) in
  let cums := cumLens 0 l in
  hashes32 dict
  /\ len (concat dict) = 32 * len dict
  /\ len (flat_map (rowOf dict w) l) = (w + 32) * len l
  /\ len (flat_map tableEntry cums)
     = countWidth 1 cums + 2 * countWidth 2 cums + 4 * countWidth 4 cums
  /\ len (flat_map Value l) = totalLen l.
Proof.
  intros Hwf. cbv zeta.
  assert (Hh : hashes32 (dictionaryOf l))
    by (apply dictionaryFrom_hashes32; [exact Hwf | constructor]).
  split; [exact Hh|]. split; [now apply len_concat_hashes|].
  split; [|split; [apply len_table | apply len_flat_map_Value]].
  apply len_flat_map_const. intros c Hc. apply len_rowOf.
  - apply getNumOfBytesByLen_widths.
  - now apply (keysWellFormed_In l).
Qed.

Lemma element_of_layout l k :
  keysWellFormed l = true ->
  fitsFormat l = true ->
  tableCovered l = true ->
  oneIncarnationPerAddress l = true ->
  exceptionsAddressable l = true ->
  (k < length l)%nat ->
  forall addMap,
    (forall d, mapGet Z.eqb addMap d = dictEntry (dictionaryOf l) d) ->
    let dict := dictionaryOf l in
    let w := getNumOfBytesByLen (len dict) in
    let cums := cumLens 0 l in
    let n8 := countWidth 1 cums in
    let n16 := countWidth 2 cums in
    let n32 := countWidth 4 cums in
    let lenOfValsPos := 4 + 2 + len dict * 32 + len l * (w + 32) + 3 * 2 in
    decodeElement (layoutOf l) addMap
      (fold_left insertException (exceptionsFrom [] 0 l) [])
      (4 + 2 + len dict * 32) w lenOfValsPos
      (lenOfValsPos + n8 + n16 * 2 + n32 * 4) n8 n16 n32 (Z.of_nat k)
    = Return (nth k l emptyChange).
Proof.
  intros Hwf Hfit Hcov Hone Haddr Hk addMap HaddMap. cbv zeta.
  destruct (fitsFormat_spec _ Hfit) as (HD & H8 & H16 & H32 & Htot & Hn).
  destruct (layout_parts l Hwf) as (Hh & Hldict & Hlrows & Hltbl & Hlvals).
  cbv zeta in Hlrows, Hltbl.
  pose proof (nth_cut l k emptyChange Hk) as Hcut.
  set (x := nth k l emptyChange) in *.
  set (l1 := firstn k l) in *. set (l2 := skipn (S k) l) in *.
  assert (Hl1 : len l1 = Z.of_nat k) by (subst l1; apply len_firstn_le; lia).
  assert (Hx : In x l) by (subst x; apply nth_In; exact Hk).
  clearbody x l1 l2.
  pose proof (keysWellFormed_In l x Hwf Hx) as Hkx.
  destruct (dictionaryOf_has l x Hx) as [d Hd].
  pose proof (indexOf_range _ _ _ Hd) as [Hdr Hdn].
  set (dict := dictionaryOf l) in *.
  set (w := getNumOfBytesByLen (len dict)) in *.
  pose proof (getNumOfBytesByLen_widths (len dict)) as Hw. fold w in Hw.
  pose proof (getNumOfBytesByLen_pos (len dict)) as Hwpos. fold w in Hwpos.
  assert (Hrow : forall c, In c l -> len (rowOf dict w c) = w + 32).
  { intros c Hc. apply len_rowOf; [exact Hw | now apply (keysWellFormed_In l)]. }
  assert (Hrows1 : len (flat_map (rowOf dict w) l1) = Z.of_nat k * (w + 32)).
  { rewrite (len_flat_map_const _ (w + 32)).
    - rewrite Hl1. lia.
    - intros c Hc. apply Hrow. rewrite Hcut. apply in_or_app. now left. }
  assert (Hrows2 : len (flat_map (rowOf dict w) l2) = (len l - Z.of_nat k - 1) * (w + 32)).
  { rewrite (len_flat_map_const _ (w + 32)).
    - assert (len l = len l1 + 1 + len l2)
        by (rewrite Hcut at 1; rewrite len_app, len_cons; lia).
      lia.
    - intros c Hc. apply Hrow. rewrite Hcut. apply in_or_app. right. now right. }
  rewrite <- Hl1.
  transitivity (Return {| Key := addrHashOf x ++ incarnationOf x ++ keyHashOf x;
                          Value := Value x |});
    [| rewrite <- key_parts by exact Hkx; destruct x as [kx vx]; reflexivity].
  eapply (decodeElement_at (layoutOf l)
            (PutUint32 (len l) ++ PutUint16 (len dict) ++ concat dict)
            (flat_map (rowOf dict w) l1)
            (dictIndexBytes w (dictIndexOf dict x)) (keyHashOf x)
            (flat_map (rowOf dict w) l2)
            (PutUint16 (countWidth 1 (cumLens 0 l)) ++ PutUint16 (countWidth 2 (cumLens 0 l))
             ++ PutUint16 (countWidth 4 (cumLens 0 l)))
            (flat_map tableEntry (cumLens 0 l))
            (flat_map Value l ++ flat_map exceptionRecord (exceptionsFrom [] 0 l))
            addMap _ w d (len l1) (addrHashOf x) (incarnationOf x) (Value x)).
  - unfold layoutOf. cbv zeta. fold dict. fold w.
    rewrite Hcut at 2. rewrite flat_map_app. cbn [flat_map]. unfold rowOf at 2.
    now rewrite <- !app_assoc.
  - rewrite !len_app, len_PutUint32, len_PutUint16, Hldict. lia.
  - rewrite Hrows1, Hl1. reflexivity.
  - now apply len_dictIndexBytes.
  - now apply len_keyHashOf.
  - unfold dictIndexOf. rewrite Hd. apply getUint32_dictIndexBytes; lia.
  - unfold mapGetBytes. rewrite HaddMap. unfold dictEntry.
    replace ((0 <=? d) && (d <? len dict)) with true
      by (symmetry; rewrite andb_true_iff, Z.leb_le, Z.ltb_lt; exact Hdr).
    rewrite Hdn. apply copy_onto_zeros. now apply len_addrHashOf.
  - replace d with (dictIndexOf dict x) by (unfold dictIndexOf; now rewrite Hd).
    apply incarnationBytes_of_element; auto. lia.
  - rewrite !len_app, len_PutUint32, !len_PutUint16, Hldict, Hrows1, Hrows2.
    rewrite len_dictIndexBytes, len_keyHashOf by assumption. lia.
  - rewrite Hltbl. lia.
  - pose proof (tableCovered_spec l k Hcov Hk) as Hck.
    rewrite <- Hl1 in Hck. revert Htot Hck. rewrite Hcut. intros Htot Hck.
    now apply findVal_element.
Qed.

(** ** DecodeStorage on the layout *)

Lemma bind_Return {A B} (a : A) (k : A -> outcome B) : bind (Return a) k = k a.
Proof. reflexivity. Qed.

Lemma len_exceptions l :
  keysWellFormed l = true ->
  len (flat_map exceptionRecord (exceptionsFrom [] 0 l)) = 12 * len (exceptionsFrom [] 0 l).
Proof.
  intros Hwf. apply len_flat_map_const. intros e He.
  destruct (exceptions_wellformed l e Hwf He) as [_ Hinc].
  unfold exceptionRecord. rewrite len_app, len_PutUint32, Hinc. reflexivity.
Qed.

(** The last entry of the length table is the total length of the values. *)
Lemma cumEntry_last l r :
  l <> [] -> totalLen l < 2 ^ 32 ->
  cumEntry (flat_map tableEntry (cumLens 0 l) ++ r)
    (countWidth 1 (cumLens 0 l)) (countWidth 2 (cumLens 0 l)) (countWidth 4 (cumLens 0 l))
    (countWidth 1 (cumLens 0 l) + countWidth 2 (cumLens 0 l) + countWidth 4 (cumLens 0 l) - 1)
  = Return (totalLen l).
Proof.
  intros Hne Htot.
  pose proof (app_removelast_last emptyChange Hne) as Hcut.
  set (l1 := removelast l) in *. set (x := last l emptyChange) in *.
  clearbody l1 x. subst l.
  rewrite countWidth_total, len_cumLens, len_app. change (len [x]) with 1.
  replace (len l1 + 1 - 1) with (len l1) by lia.
  pose proof (cumEntry_table l1 x [] r) as H. cbv zeta in H.
  rewrite H by exact Htot.
  rewrite totalLen_app. cbn [totalLen]. do 2 f_equal. lia.
Qed.

Lemma layout_flat l :
  let dict := dictionaryOf l in
  let w := getNumOfBytesByLen (len dict) in
  let cums := cumLens 0 l in
  layoutOf l =
  PutUint32 (len l) ++ PutUint16 (len dict) ++ concat dict
  ++ flat_map (rowOf dict w) l
  ++ PutUint16 (countWidth 1 cums) ++ PutUint16 (countWidth 2 cums)
  ++ PutUint16 (countWidth 4 cums) ++ flat_map tableEntry cums
  ++ flat_map Value l
  ++ flat_map exceptionRecord (exceptionsFrom [] 0 l).
Proof. unfold layoutOf. cbv zeta. now rewrite <- !app_assoc. Qed.

(** The sizes of the parts. *)
Lemma layout_sizes l :
  keysWellFormed l = true ->
  fitsFormat l = true ->
  l <> [] ->
  let dict := dictionaryOf l in
  let w := getNumOfBytesByLen (len dict) in
  let cums := cumLens 0 l in
  let n8 := countWidth 1 cums in
  let n16 := countWidth 2 cums in
  let n32 := countWidth 4 cums in
  0 < len l < 2 ^ 32
  /\ 0 <= len dict < 2 ^ 16
  /\ 0 <= n8 < 2 ^ 16 /\ 0 <= n16 < 2 ^ 16 /\ 0 <= n32 < 2 ^ 16
  /\ n8 + n16 + n32 = len l
  /\ 0 < w
  /\ len (concat dict) = 32 * len dict
  /\ len (flat_map (rowOf dict w) l) = (w + 32) * len l
  /\ 0 <= (w + 32) * len l
  /\ len (flat_map tableEntry cums) = n8 + 2 * n16 + 4 * n32
  /\ len (flat_map Value l) = totalLen l
  /\ 0 <= totalLen l
  /\ len (flat_map exceptionRecord (exceptionsFrom [] 0 l))
     = 12 * len (exceptionsFrom [] 0 l).
Proof.
  intros Hwf Hfit Hne. cbv zeta.
  destruct (fitsFormat_spec _ Hfit) as (HD & H8 & H16 & H32 & Htot & Hn).
  destruct (layout_parts l Hwf) as (Hh & Hldict & Hlrows & Hltbl & Hlvals).
  cbv zeta in Hlrows, Hltbl.
  pose proof (countWidth_total (cumLens 0 l)) as Hcnt. rewrite len_cumLens in Hcnt.
  pose proof (countWidth_nonneg 1 (cumLens 0 l)).
  pose proof (countWidth_nonneg 2 (cumLens 0 l)).
  pose proof (countWidth_nonneg 4 (cumLens 0 l)).
  pose proof (len_nonneg (dictionaryOf l)). pose proof (totalLen_nonneg l).
  pose proof (getNumOfBytesByLen_pos (len (dictionaryOf l))) as Hw.
  assert (0 < len l).
  { destruct l; [congruence|]. rewrite len_cons. pose proof (len_nonneg l). lia. }
  change (2 ^ 32) with 4294967296. change (2 ^ 16) with 65536.
  repeat split; try assumption; try lia;
    first [now apply len_exceptions | apply Z.mul_nonneg_nonneg; lia].
Qed.

(** [DecodeStorage] reads back the change-set a layout was written from. *)
Lemma DecodeStorage_layout l :
  keysWellFormed l = true ->
  fitsFormat l = true ->
  tableCovered l = true ->
  oneIncarnationPerAddress l = true ->
  exceptionsAddressable l = true ->
  DecodeStorage (layoutOf l) = Return ({| Changes := l; keyLen := 72 |}, None).
Proof.
  intros Hwf Hfit Hcov Hone Haddr.
  assert (Hne : l = [] \/ l <> []) by (destruct l; [now left | right; discriminate]).
  destruct Hne as [-> | Hne]; [vm_compute; reflexivity|].
  pose proof (layout_flat l) as Hb.
  destruct (layout_sizes l Hwf Hfit Hne)
    as (Hn & HD & H8 & H16 & H32 & Hcnt & Hw & HlD & HlR & HRpos & HlT & HlV & HVpos & HlX).
  destruct (fitsFormat_spec _ Hfit) as (_ & _ & _ & _ & Htot & _).
  assert (Hh : hashes32 (dictionaryOf l)) by (apply (layout_parts l Hwf)).
  cbv zeta in *.
  set (dict := dictionaryOf l) in *.
  set (w := getNumOfBytesByLen (len dict)) in *.
  set (n8 := countWidth 1 (cumLens 0 l)) in *.
  set (n16 := countWidth 2 (cumLens 0 l)) in *.
  set (n32 := countWidth 4 (cumLens 0 l)) in *.
  set (T := flat_map tableEntry (cumLens 0 l)) in *.
  set (R := flat_map (rowOf dict w) l) in *.
  set (V := flat_map Value l) in *.
  set (E := exceptionsFrom [] 0 l) in *.
  set (X := flat_map exceptionRecord E) in *.
  set (b := layoutOf l) in *.
  pose proof (len_nonneg E) as HEpos.
  assert (Hlen : len b = 4 + 2 + 32 * len dict + (w + 32) * len l + 6
                         + (n8 + 2 * n16 + 4 * n32) + totalLen l + 12 * len E).
  { rewrite Hb, !len_app, len_PutUint32, !len_PutUint16, HlD, HlR, HlT, HlV, HlX. lia. }
  unfold DecodeStorage. cbv zeta. unfold_consts.
  destruct (Z.eqb_spec (len b) 0) as [H0|_]; [lia|].
  destruct (Z.ltb_spec (len b) 4) as [H0|_]; [lia|].
  rewrite (slice_at b [] (PutUint32 (len l)) _ 0 4 Hb)
    by (rewrite ?len_PutUint32; reflexivity).
  rewrite bind_Return. cbv beta. rewrite Uint32_Put by lia.
  rewrite bind_Return. cbv beta.
  destruct (Z.eqb_spec (len l) 0) as [H0|_]; [lia|].
  rewrite (slice_at b (PutUint32 (len l)) (PutUint16 (len dict))
             (concat dict ++ R ++ PutUint16 n8 ++ PutUint16 n16 ++ PutUint16 n32
              ++ T ++ V ++ X) 4 (4 + 2) Hb)
    by (rewrite ?len_PutUint32, ?len_PutUint16; reflexivity).
  rewrite bind_Return. cbv beta. rewrite Uint16_Put by lia.
  rewrite bind_Return. cbv beta. fold w.
  destruct (readDict_spec b (PutUint32 (len l) ++ PutUint16 (len dict)) dict
              (R ++ PutUint16 n8 ++ PutUint16 n16 ++ PutUint16 n32 ++ T ++ V ++ X))
    as (m & Hrd & Hget & Hmlen).
  { rewrite Hb. now rewrite <- !app_assoc. }
  { rewrite len_app, len_PutUint32, len_PutUint16. reflexivity. }
  { exact Hh. }
  { change (2 ^ 32) with 4294967296. change (2 ^ 16) with 65536 in HD. lia. }
  rewrite Hrd, bind_Return. cbv beta. rewrite Hmlen. fold w.
  set (lvp := 4 + 2 + len dict * 32 + len l * (w + 32)).
  assert (Hlvp : lvp = len (PutUint32 (len l) ++ PutUint16 (len dict) ++ concat dict ++ R)).
  { rewrite !len_app, len_PutUint32, len_PutUint16, HlD, HlR. subst lvp. lia. }
  rewrite (slice_at b (PutUint32 (len l) ++ PutUint16 (len dict) ++ concat dict ++ R)
             (PutUint16 n8) (PutUint16 n16 ++ PutUint16 n32 ++ T ++ V ++ X) lvp (lvp + 2));
    [| rewrite Hb; now rewrite <- !app_assoc | exact Hlvp | now rewrite len_PutUint16].
  rewrite bind_Return. cbv beta. rewrite Uint16_Put by lia.
  rewrite bind_Return. cbv beta.
  rewrite (slice_at b ((PutUint32 (len l) ++ PutUint16 (len dict) ++ concat dict ++ R)
                       ++ PutUint16 n8)
             (PutUint16 n16) (PutUint16 n32 ++ T ++ V ++ X) (lvp + 2) (lvp + 4));
    [| rewrite Hb; now rewrite <- !app_assoc
     | rewrite !len_app, len_PutUint32, !len_PutUint16, HlD, HlR; unfold lvp; lia
     | rewrite len_PutUint16; lia].
  rewrite bind_Return. cbv beta. rewrite Uint16_Put by lia.
  rewrite bind_Return. cbv beta.
  rewrite (slice_at b (((PutUint32 (len l) ++ PutUint16 (len dict) ++ concat dict ++ R)
                        ++ PutUint16 n8) ++ PutUint16 n16)
             (PutUint16 n32) (T ++ V ++ X) (lvp + 4) (lvp + 6));
    [| rewrite Hb; now rewrite <- !app_assoc
     | rewrite !len_app, len_PutUint32, !len_PutUint16, HlD, HlR; unfold lvp; lia
     | rewrite len_PutUint16; lia].
  rewrite bind_Return. cbv beta. rewrite Uint16_Put by lia.
  rewrite bind_Return. cbv beta.
  rewrite (sliceFrom_at b ((((PutUint32 (len l) ++ PutUint16 (len dict) ++ concat dict ++ R)
                        ++ PutUint16 n8) ++ PutUint16 n16) ++ PutUint16 n32)
             (T ++ V ++ X) (lvp + 3 * 2));
    [| rewrite Hb; now rewrite <- !app_assoc
     | rewrite !len_app, len_PutUint32, !len_PutUint16, HlD, HlR; unfold lvp; lia].
  rewrite bind_Return. cbv beta.
  rewrite calculateIncarnationPos3_last by lia.
  unfold T at 1, n8 at 1 2 3, n16 at 1 2 3, n32 at 1 2 3.
  rewrite cumEntry_last by assumption.
  fold n8 n16 n32. rewrite !bind_Return. cbv beta.
  set (pos := lvp + 3 * 2 + (totalLen l + (n8 + n16 * 2 + n32 * 4))).
  assert (Hpos : pos = len (PutUint32 (len l) ++ PutUint16 (len dict) ++ concat dict ++ R
                            ++ PutUint16 n8 ++ PutUint16 n16 ++ PutUint16 n32 ++ T ++ V)).
  { rewrite !len_app, len_PutUint32, !len_PutUint16, HlD, HlR, HlT, HlV.
    subst pos lvp. lia. }
  assert (Hrest : len b - pos = len E * 12) by (subst pos lvp; lia).
  rewrite Hrest, Z.mod_mul by lia. cbn [Z.eqb negb]. rewrite andb_false_r.
  assert (Hexc : (if pos <? len b then readIncarnations b pos else Return [])
                 = Return (fold_left insertException E [])).
  { destruct (Z.ltb_spec pos (len b)) as [Hlt | Hge].
    - rewrite Hpos. apply readIncarnations_spec.
      + rewrite Hb. now rewrite <- !app_assoc.
      + intros e He. now apply (exceptions_wellformed l).
    - assert (HE0 : E = []) by (apply len_0_nil; lia).
      now rewrite HE0. }
  rewrite Hexc, bind_Return. cbv beta.
  replace (Z.to_nat (len l)) with (length l) by (unfold len; lia).
  rewrite (forLoop_fold _ (fun acc c => acc ++ [c]) 1 emptyChange l 0 []).
  - rewrite bind_Return. cbv beta. rewrite fold_left_snoc. reflexivity.
  - intros k s' Hk.
    replace (0 + Z.of_nat k * 1) with (Z.of_nat k) by lia.
    pose proof (element_of_layout l k Hwf Hfit Hcov Hone Haddr Hk m Hget) as He.
    cbv zeta in He. fold dict w n8 n16 n32 b in He. fold lvp in He.
    match goal with
    | |- bind ?d _ = _ =>
        replace d with (Return (nth k l emptyChange)) by (symmetry; exact He)
    end.
    reflexivity.
Qed.

(** ** The round trip *)

(** Sorting leaves a strictly ascending list as it is. *)
Lemma sorted_sortChanges l : sortedKeys l = true -> sortChanges l = l.
Proof.
  induction l as [|c l IH]; [reflexivity|].
  intros Hs. unfold sortChanges in *. cbn [fold_right].
  destruct l as [|d l'].
  - reflexivity.
  - cbn [sortedKeys] in Hs. apply andb_true_iff in Hs. destruct Hs as [Hcd Hs].
    rewrite IH by exact Hs. cbn [insertChange].
    replace (changeLess d c) with false; [reflexivity|].
    unfold changeLess in *. rewrite (bytesCompare_antisym (Key c) (Key d)).
    destruct (bytesCompare (Key c) (Key d)); try discriminate. reflexivity.
Qed.

(** C1 (amended).  The format keeps one incarnation per address-hash.  For a
    storage change-set of 72-byte keys, strictly ascending, in which the
    changes of one address-hash carry one incarnation, whose sizes fit the
    fields of the format, whose length table [findVal] follows at every
    element and whose non-default incarnations are recorded at the index the
    decoder looks them up by, [DecodeStorage] of the bytes [EncodeStorage]
    wrote returns the change-set itself, with no error: the same keys and
    the same values in the same order, so that sorting the result again
    changes nothing. *)
Theorem roundTrip_sorted_one_incarnation (s : ChangeSet)
    (Hlen : keyLen s = 72)
    (Hkeys : keysWellFormed (Changes s) = true)
    (Hsorted : sortedKeys (Changes s) = true)
    (Hone : oneIncarnationPerAddress (Changes s) = true)
    (Hfits : fitsFormat (Changes s) = true)
    (Hcov : tableCovered (Changes s) = true)
    (Haddr : exceptionsAddressable (Changes s) = true) :
  roundTrip s = Return (s, None)
  /\ sortChanges (Changes s) = Changes s.
Proof.
  pose proof (sorted_sortChanges _ Hsorted) as Hs.
  split; [|exact Hs].
  unfold roundTrip.
  pose proof (EncodeStorage_layout s) as He. cbv zeta in He.
  rewrite Hs in He. rewrite (He Hkeys Hfits). cbn [bind snd].
  rewrite DecodeStorage_layout by assumption.
  destruct s as [l k]. cbn [keyLen] in Hlen. now rewrite Hlen.
Qed.

Lemma roundTrip_sorted_one_incarnation_witness :
  roundTrip csSample = Return (csSample, None)
  /\ sortChanges (Changes csSample) = Changes csSample.
Proof.
  apply (roundTrip_sorted_one_incarnation csSample); vm_compute; reflexivity.
Defined.

(** ** Find on the layout *)

Lemma bytesEqual_sym a b : bytesEqual a b = bytesEqual b a.
Proof.
  destruct (bytesEqual b a) eqn:E.
  - apply bytesEqual_eq in E. subst. apply bytesEqual_refl.
  - apply bytesEqual_neq in E. apply bytesEqual_neq. congruence.
Qed.

(** The first loop of [Find] is [indexOf] on the dictionary. *)
Lemma findAddrHash_loop b p r a : forall dict2 dict1,
  b = p ++ concat (dict1 ++ dict2) ++ r ->
  len p = 4 + 2 ->
  hashes32 (dict1 ++ dict2) ->
  len (dict1 ++ dict2) < 2 ^ 32 ->
  findAddrHash b a (length dict2) (len dict1)
  = Return (match indexOf a dict2 with
            | Some i => Some (len dict1 + i)
            | None => None
            end).
Proof.
  induction dict2 as [|h dict2 IH]; intros dict1 Hb Hp Hh Hlen; [reflexivity|].
  cbn [length findAddrHash indexOf]. cbv zeta. unfold_consts.
  pose proof (len_nonneg dict1) as Hd1. pose proof (len_nonneg dict2) as Hd2.
  assert (Hh1 : hashes32 dict1) by (apply Forall_app in Hh; tauto).
  assert (Hhh : len h = 32).
  { apply Forall_app in Hh. destruct Hh as [_ Hh]. now inversion Hh. }
  rewrite (slice_at b (p ++ concat dict1) h (concat dict2 ++ r)).
  2:{ rewrite Hb, concat_app. cbn [concat]. now rewrite <- !app_assoc. }
  2:{ rewrite len_app, len_concat_hashes, Hp by assumption. lia. }
  2:{ lia. }
  rewrite bind_Return. cbv beta. rewrite (bytesEqual_sym a h).
  destruct (bytesEqual h a).
  - do 2 f_equal. unfold uint32. rewrite len_app, len_cons in Hlen.
    rewrite Z.mod_small by lia. lia.
  - replace (len dict1 + 1) with (len (dict1 ++ [h]))
      by (rewrite len_app; reflexivity).
    rewrite IH; [| first [assumption | rewrite <- app_assoc; assumption] ..].
    destruct (indexOf a dict2); [|reflexivity].
    do 2 f_equal. rewrite len_app. change (len [h]) with 1. lia.
Qed.

Lemma findAddrHash_spec b p dict r a :
  b = p ++ concat dict ++ r ->
  len p = 4 + 2 ->
  hashes32 dict ->
  len dict < 2 ^ 32 ->
  findAddrHash b a (Z.to_nat (len dict)) 0 = Return (indexOf a dict).
Proof.
  intros Hb Hp Hh Hlen. unfold len at 1. rewrite Nat2Z.id.
  pose proof (findAddrHash_loop b p r a dict [] Hb Hp Hh Hlen) as H.
  change (len (@nil bytes)) with 0 in H. rewrite H.
  destruct (indexOf a dict); reflexivity.
Qed.

(** One step of the second loop of [Find], on a buffer cut into its parts. *)
Lemma findElement_at (b pre rows1 idB kh rows2 cnt tbl vals enc k : bytes)
    D w i n n8 n16 n32 lenOfValsPos valuesPos :
  b = pre ++ rows1 ++ idB ++ kh ++ rows2 ++ cnt ++ tbl ++ vals ->
  4 + 2 + D * 32 = len pre ->
  len rows1 = i * (w + 32) ->
  len idB = w ->
  len kh = 32 ->
  lenOfValsPos = len (pre ++ rows1 ++ idB ++ kh ++ rows2 ++ cnt) ->
  valuesPos = lenOfValsPos + len tbl ->
  findElement b enc k D w lenOfValsPos valuesPos n8 n16 n32 (S n) i
  = if bytesEqual enc idB && bytesEqual k kh
    then v <- findVal tbl vals i n8 n16 n32 ;; Return (Some v, None)
    else findElement b enc k D w lenOfValsPos valuesPos n8 n16 n32 n (i + 1).
Proof.
  intros Hb He Hr Hid Hkh Hlv Hvp.
  cbn [findElement]. cbv zeta. unfold_consts.
  rewrite (slice_at b (pre ++ rows1) idB (kh ++ rows2 ++ cnt ++ tbl ++ vals));
    [| rewrite Hb; now rewrite <- !app_assoc | rewrite len_app; lia | lia].
  rewrite bind_Return. cbv beta.
  destruct (bytesEqual enc idB); cbn [negb andb]; [|reflexivity].
  rewrite (slice_at b (pre ++ rows1 ++ idB) kh (rows2 ++ cnt ++ tbl ++ vals));
    [| rewrite Hb; now rewrite <- !app_assoc | rewrite !len_app; lia | lia].
  rewrite bind_Return. cbv beta.
  destruct (bytesEqual k kh); cbn [negb]; [|reflexivity].
  rewrite (slice_at b (pre ++ rows1 ++ idB ++ kh ++ rows2 ++ cnt) tbl vals);
    [| rewrite Hb; now rewrite <- !app_assoc | exact Hlv | lia].
  rewrite bind_Return. cbv beta.
  rewrite (sliceFrom_at b ((pre ++ rows1 ++ idB ++ kh ++ rows2 ++ cnt) ++ tbl) vals);
    [| rewrite Hb; now rewrite <- !app_assoc | rewrite len_app; lia].
  rewrite bind_Return. cbv beta. reflexivity.
Qed.

(** Dictionary indexes are told apart by their bytes. *)
Lemma dictIndexBytes_inj D d d' :
  0 <= d < D -> 0 <= d' < D -> D <= 65535 ->
  dictIndexBytes (getNumOfBytesByLen D) d = dictIndexBytes (getNumOfBytesByLen D) d' ->
  d = d'.
Proof.
  intros Hd Hd' HD E.
  pose proof (getUint32_dictIndexBytes D d Hd HD) as H1.
  pose proof (getUint32_dictIndexBytes D d' Hd' HD) as H2.
  rewrite E in H1. congruence.
Qed.

(** An address-hash outside the dictionary is in no change. *)
Lemma lookupChange_absent l a k :
  indexOf a (dictionaryOf l) = None -> lookupChange l a k = None.
Proof.
  intros Hnone.
  assert (H : forall l', (forall c, In c l' -> In c l) -> lookupChange l' a k = None).
  { induction l' as [|c l' IH]; intros Hsub; [reflexivity|]. cbn [lookupChange].
    destruct (bytesEqual a (addrHashOf c)) eqn:E.
    - apply bytesEqual_eq in E. exfalso.
      destruct (dictionaryOf_has l c (Hsub c (or_introl eq_refl))) as [d Hd].
      rewrite <- E in Hd. congruence.
    - cbn [andb]. apply IH. intros c' Hc'. apply Hsub. now right. }
  apply H. auto.
Qed.

(** The second loop of [Find] is [lookupChange] on the elements left. *)
Lemma findElement_layout l a k d :
  keysWellFormed l = true ->
  fitsFormat l = true ->
  tableCovered l = true ->
  indexOf a (dictionaryOf l) = Some d ->
  forall l2 l1, l = l1 ++ l2 ->
    let dict := dictionaryOf l in
    let w := getNumOfBytesByLen (len dict) in
    let cums := cumLens 0 l in
    let n8 := countWidth 1 cums in
    let n16 := countWidth 2 cums in
    let n32 := countWidth 4 cums in
    let lenOfValsPos := 4 + 2 + len dict * 32 + len l * (w + 32) + 2 * 3 in
    findElement (layoutOf l) (dictIndexBytes w d) k (len dict) w lenOfValsPos
      (lenOfValsPos + n8 + n16 * 2 + n32 * 4) n8 n16 n32 (length l2) (len l1)
    = match lookupChange l2 a k with
      | Some v => Return (Some v, None)
      | None => Return (None, Some ErrNotFound)
      end.
Proof.
  intros Hwf Hfit Hcov Hd.
  destruct (fitsFormat_spec _ Hfit) as (HD & H8 & H16 & H32 & Htot & Hn).
  destruct (layout_parts l Hwf) as (Hh & Hldict & Hlrows & Hltbl & Hlvals).
  cbv zeta in Hlrows, Hltbl |- *.
  pose proof (indexOf_range _ _ _ Hd) as [Hdr _].
  set (dict := dictionaryOf l) in *.
  set (w := getNumOfBytesByLen (len dict)) in *.
  pose proof (getNumOfBytesByLen_widths (len dict)) as Hw. fold w in Hw.
  assert (Hrow : forall c, In c l -> len (rowOf dict w c) = w + 32).
  { intros c Hc. apply len_rowOf; [exact Hw | now apply (keysWellFormed_In l)]. }
  induction l2 as [|x l2 IH]; intros l1 Hcut; [reflexivity|].
  assert (Hx : In x l) by (rewrite Hcut; apply in_or_app; right; now left).
  pose proof (keysWellFormed_In l x Hwf Hx) as Hkx.
  destruct (dictionaryOf_has l x Hx) as [dx Hdx]. fold dict in Hdx.
  pose proof (indexOf_range _ _ _ Hdx) as [Hdxr _].
  assert (Hlen : len l = len l1 + 1 + len l2)
    by (rewrite Hcut at 1; rewrite len_app, len_cons; lia).
  assert (Hrows1 : len (flat_map (rowOf dict w) l1) = len l1 * (w + 32)).
  { rewrite (len_flat_map_const _ (w + 32)); [lia|].
    intros c Hc. apply Hrow. rewrite Hcut. apply in_or_app. now left. }
  assert (Hrows2 : len (flat_map (rowOf dict w) l2) = len l2 * (w + 32)).
  { rewrite (len_flat_map_const _ (w + 32)); [lia|].
    intros c Hc. apply Hrow. rewrite Hcut. apply in_or_app. right. now right. }
  assert (Hfv : bytesEqual a (addrHashOf x) && bytesEqual k (keyHashOf x) = true ->
                findVal (flat_map tableEntry (cumLens 0 l))
                  (flat_map Value l ++ flat_map exceptionRecord (exceptionsFrom [] 0 l))
                  (len l1) (countWidth 1 (cumLens 0 l)) (countWidth 2 (cumLens 0 l))
                  (countWidth 4 (cumLens 0 l)) = Return (Value x)).
  { intros _.
    assert (Hk : (length l1 < length l)%nat) by (unfold len in Hlen; lia).
    pose proof (tableCovered_spec l (length l1) Hcov Hk) as Hck.
    change (Z.of_nat (length l1)) with (len l1) in Hck.
    clear IH. revert Htot Hck. rewrite Hcut. intros Htot Hck.
    now apply findVal_element. }
  assert (Hid : bytesEqual (dictIndexBytes w d) (dictIndexBytes w (dictIndexOf dict x))
                = bytesEqual a (addrHashOf x)).
  { unfold dictIndexOf. rewrite Hdx.
    destruct (bytesEqual a (addrHashOf x)) eqn:Ea.
    - apply bytesEqual_eq in Ea. rewrite <- Ea in Hdx.
      replace dx with d by congruence. apply bytesEqual_refl.
    - apply bytesEqual_neq. intros Eb. apply bytesEqual_neq in Ea. apply Ea.
      apply (dictIndexBytes_inj (len dict)) in Eb; [| lia ..].
      subst dx. eapply indexOf_inj; eauto. }
  cbn [length lookupChange].
  rewrite (findElement_at (layoutOf l)
            (PutUint32 (len l) ++ PutUint16 (len dict) ++ concat dict)
            (flat_map (rowOf dict w) l1)
            (dictIndexBytes w (dictIndexOf dict x)) (keyHashOf x)
            (flat_map (rowOf dict w) l2)
            (PutUint16 (countWidth 1 (cumLens 0 l)) ++ PutUint16 (countWidth 2 (cumLens 0 l))
             ++ PutUint16 (countWidth 4 (cumLens 0 l)))
            (flat_map tableEntry (cumLens 0 l))
            (flat_map Value l ++ flat_map exceptionRecord (exceptionsFrom [] 0 l))).
  - rewrite Hid.
    destruct (bytesEqual a (addrHashOf x) && bytesEqual k (keyHashOf x)) eqn:Em.
    + rewrite (Hfv eq_refl). reflexivity.
    + replace (len l1 + 1) with (len (l1 ++ [x])) by (rewrite len_app; reflexivity).
      apply IH. rewrite Hcut, <- app_assoc. reflexivity.
  - unfold layoutOf. cbv zeta. fold dict. fold w.
    rewrite Hcut at 2. rewrite flat_map_app. cbn [flat_map]. unfold rowOf at 2.
    now rewrite <- !app_assoc.
  - rewrite !len_app, len_PutUint32, len_PutUint16, Hldict. lia.
  - exact Hrows1.
  - now apply len_dictIndexBytes.
  - now apply len_keyHashOf.
  - rewrite !len_app, len_PutUint32, !len_PutUint16, Hldict, Hrows1, Hrows2.
    rewrite len_dictIndexBytes, len_keyHashOf by assumption. lia.
  - rewrite Hltbl. lia.
Qed.

(** [Find] on a layout: nothing on the layout of the empty change-set, else
    the first change of the address-hash and storage-key-hash, if any. *)
Lemma Find_layout l a k :
  keysWellFormed l = true ->
  fitsFormat l = true ->
  tableCovered l = true ->
  Find (layoutOf l) a k =
  match l with
  | [] => Return (None, None)
  | _ :: _ =>
      match lookupChange l a k with
      | Some v => Return (Some v, None)
      | None => Return (None, Some ErrNotFound)
      end
  end.
Proof.
  intros Hwf Hfit Hcov.
  assert (Hne : l = [] \/ l <> []) by (destruct l; [now left | right; discriminate]).
  destruct Hne as [-> | Hne]; [vm_compute; reflexivity|].
  replace (match l with
           | [] => Return (None, None)
           | _ :: _ =>
               match lookupChange l a k with
               | Some v => Return (Some v, None)
               | None => Return (None, Some ErrNotFound)
               end
           end)
    with (match lookupChange l a k with
          | Some v => Return (Some v, @None error)
          | None => Return (None, Some ErrNotFound)
          end)
    by (destruct l; [congruence | reflexivity]).
  pose proof (layout_flat l) as Hb.
  destruct (layout_sizes l Hwf Hfit Hne)
    as (Hn & HD & H8 & H16 & H32 & Hcnt & Hw & HlD & HlR & HRpos & HlT & HlV & HVpos & HlX).
  assert (Hh : hashes32 (dictionaryOf l)) by (apply (layout_parts l Hwf)).
  cbv zeta in *.
  set (dict := dictionaryOf l) in *.
  set (w := getNumOfBytesByLen (len dict)) in *.
  set (n8 := countWidth 1 (cumLens 0 l)) in *.
  set (n16 := countWidth 2 (cumLens 0 l)) in *.
  set (n32 := countWidth 4 (cumLens 0 l)) in *.
  set (T := flat_map tableEntry (cumLens 0 l)) in *.
  set (R := flat_map (rowOf dict w) l) in *.
  set (V := flat_map Value l) in *.
  set (X := flat_map exceptionRecord (exceptionsFrom [] 0 l)) in *.
  set (b := layoutOf l) in *.
  pose proof (len_nonneg (exceptionsFrom [] 0 l)) as HEpos.
  assert (Hlen : len b = 4 + 2 + 32 * len dict + (w + 32) * len l + 6
                         + (n8 + 2 * n16 + 4 * n32) + totalLen l
                         + 12 * len (exceptionsFrom [] 0 l)).
  { rewrite Hb, !len_app, len_PutUint32, !len_PutUint16, HlD, HlR, HlT, HlV, HlX. lia. }
  unfold Find. unfold_consts.
  destruct (Z.eqb_spec (len b) 0) as [H0|_]; [lia|].
  destruct (Z.ltb_spec (len b) 8) as [H0|_]; [lia|].
  rewrite (slice_at b [] (PutUint32 (len l)) _ 0 4 Hb)
    by (rewrite ?len_PutUint32; reflexivity).
  rewrite bind_Return. cbv beta. rewrite Uint32_Put by lia.
  rewrite bind_Return. cbv beta.
  destruct (Z.eqb_spec (len l) 0) as [H0|_]; [lia|].
  rewrite (slice_at b (PutUint32 (len l)) (PutUint16 (len dict))
             (concat dict ++ R ++ PutUint16 n8 ++ PutUint16 n16 ++ PutUint16 n32
              ++ T ++ V ++ X) 4 (4 + 2) Hb)
    by (rewrite ?len_PutUint32, ?len_PutUint16; reflexivity).
  rewrite bind_Return. cbv beta. rewrite Uint16_Put by lia.
  rewrite bind_Return. cbv beta. fold w.
  rewrite (findAddrHash_spec b (PutUint32 (len l) ++ PutUint16 (len dict)) dict
             (R ++ PutUint16 n8 ++ PutUint16 n16 ++ PutUint16 n32 ++ T ++ V ++ X)).
  2:{ rewrite Hb. now rewrite <- !app_assoc. }
  2:{ rewrite len_app, len_PutUint32, len_PutUint16. reflexivity. }
  2:{ exact Hh. }
  2:{ change (2 ^ 32) with 4294967296. change (2 ^ 16) with 65536 in HD. lia. }
  rewrite bind_Return. cbv beta.
  destruct (indexOf a dict) as [d|] eqn:Hd;
    [| now rewrite (lookupChange_absent l a k Hd)].
  cbv zeta.
  set (lvp := 4 + 2 + len dict * 32 + len l * (w + 32)).
  rewrite (slice_at b (PutUint32 (len l) ++ PutUint16 (len dict) ++ concat dict ++ R)
             (PutUint16 n8) (PutUint16 n16 ++ PutUint16 n32 ++ T ++ V ++ X));
    [| rewrite Hb; now rewrite <- !app_assoc
     | rewrite !len_app, len_PutUint32, !len_PutUint16, HlD, HlR; unfold lvp; lia
     | now rewrite len_PutUint16].
  rewrite bind_Return. cbv beta. rewrite Uint16_Put by lia.
  rewrite bind_Return. cbv beta.
  rewrite (slice_at b ((PutUint32 (len l) ++ PutUint16 (len dict) ++ concat dict ++ R)
                       ++ PutUint16 n8)
             (PutUint16 n16) (PutUint16 n32 ++ T ++ V ++ X));
    [| rewrite Hb; now rewrite <- !app_assoc
     | rewrite !len_app, len_PutUint32, !len_PutUint16, HlD, HlR; unfold lvp; lia
     | rewrite len_PutUint16; lia].
  rewrite bind_Return. cbv beta. rewrite Uint16_Put by lia.
  rewrite bind_Return. cbv beta.
  rewrite (slice_at b (((PutUint32 (len l) ++ PutUint16 (len dict) ++ concat dict ++ R)
                        ++ PutUint16 n8) ++ PutUint16 n16)
             (PutUint16 n32) (T ++ V ++ X));
    [| rewrite Hb; now rewrite <- !app_assoc
     | rewrite !len_app, len_PutUint32, !len_PutUint16, HlD, HlR; unfold lvp; lia
     | rewrite len_PutUint16; lia].
  rewrite bind_Return. cbv beta. rewrite Uint16_Put by lia.
  rewrite bind_Return. cbv beta.
  rewrite writeKeyRow_widths by apply getNumOfBytesByLen_widths.
  rewrite bind_Return. cbv beta.
  replace (Z.to_nat (len l)) with (length l) by (unfold len; lia).
  pose proof (findElement_layout l a k d Hwf Hfit Hcov Hd l [] eq_refl) as Hfe.
  cbv zeta in Hfe. exact Hfe.
Qed.

(** The second loop of [Find] ends in a value or in "not found". *)
Lemma findElement_not_nil_nil b enc k D w lvp vp n8 n16 n32 : forall n i,
  findElement b enc k D w lvp vp n8 n16 n32 n i <> Return (None, None).
Proof.
  induction n as [|n IH]; intros i; cbn [findElement]; [discriminate|].
  cbv zeta.
  destruct (slice b _ _) as [row|]; [|discriminate]. rewrite bind_Return. cbv beta.
  destruct (negb (bytesEqual enc row)); [apply IH|].
  destruct (slice b _ _) as [kh|]; [|discriminate]. rewrite bind_Return. cbv beta.
  destruct (negb (bytesEqual k kh)); [apply IH|].
  destruct (slice b _ _) as [lv|]; [|discriminate]. rewrite bind_Return. cbv beta.
  destruct (sliceFrom b _) as [vs|]; [|discriminate]. rewrite bind_Return. cbv beta.
  destruct (findVal _ _ _ _ _ _) as [v|]; discriminate.
Qed.

(** One monadic step at the head of a goal that rules an outcome out. *)
Ltac step_head :=
  match goal with
  | |- bind ?m _ = _ -> False =>
      destruct m; [rewrite bind_Return; cbv beta | discriminate]
  end.

(** [Find] returns a nil value and a nil error on the two inputs its
    guards let through, and on no other. *)
Lemma Find_nothing_iff b a k :
  Find b a k = Return (None, None)
  <-> len b = 0 \/ (8 <= len b /\ announcedElements b = 0).
Proof.
  unfold Find. unfold_consts.
  destruct (Z.eqb_spec (len b) 0) as [H0|H0]; [split; auto|].
  destruct (Z.ltb_spec (len b) 8) as [H8|H8].
  { split; [discriminate | intros [?|[? _]]; lia]. }
  destruct (slice_in_range b 0 4) as [nb Hnb]; try lia.
  rewrite Hnb, bind_Return. cbv beta.
  pose proof (slice_prefix _ _ _ Hnb) as Hpre. change (Z.to_nat 4) with 4%nat in Hpre.
  assert (Hl4 : 4 <= len nb).
  { rewrite Hpre. unfold len in *. rewrite length_firstn. lia. }
  unfold Uint32 at 1. destruct (Z.leb_spec 4 (len nb)) as [_|]; [|lia].
  rewrite bind_Return. cbv beta.
  assert (Hann : announcedElements b = beUint (firstn 4 nb)).
  { unfold announcedElements. rewrite Hpre. now rewrite firstn_firstn. }
  rewrite <- Hann.
  destruct (Z.eqb_spec (announcedElements b) 0) as [Hz|Hz]; [split; auto|].
  split; [|intros [?|[_ ?]]; [lia | contradiction]].
  intros H. exfalso. revert H.
  step_head. step_head.
  match goal with
  | |- bind ?m _ = _ -> False => destruct m as [[d|]|]
  end; [| discriminate ..].
  rewrite bind_Return. cbv beta zeta.
  repeat step_head.
  apply findElement_not_nil_nil.
Qed.

(** C9 (amended).  [Find] returns a nil value together with a nil error on
    exactly two kinds of input, which its guards let through: the empty
    slice, and a slice of at least 8 bytes that announces zero elements,
    as the encoding of the empty change-set does.  On the encoding of a
    change-set with at least one change (72-byte keys, sizes that fit the
    fields of the format, a length table [findVal] follows at every
    element), [Find] returns the value of the first change with the
    queried address-hash and storage-key-hash when there is one, and the
    not-found error otherwise. *)
Theorem Find_value_or_not_found (s s' : ChangeSet) (b a k : bytes)
    (Henc : EncodeStorage s = Return (s', b))
    (Hkeys : keysWellFormed (Changes s') = true)
    (Hfits : fitsFormat (Changes s') = true)
    (Hcov : tableCovered (Changes s') = true) :
  Find b a k =
    match Changes s' with
    | [] => Return (None, None)
    | _ :: _ =>
        match lookupChange (Changes s') a k with
        | Some v => Return (Some v, None)
        | None => Return (None, Some ErrNotFound)
        end
    end
  /\ forall b', Find b' a k = Return (None, None)
                <-> len b' = 0 \/ (8 <= len b' /\ announcedElements b' = 0).
Proof.
  split; [|intros b'; apply Find_nothing_iff].
  pose proof (EncodeStorage_sorts _ _ _ Henc) as Hs.
  pose proof (EncodeStorage_layout s) as Hl. cbv zeta in Hl.
  rewrite <- Hs in Hl. rewrite (Hl Hkeys Hfits) in Henc.
  apply Return_inj in Henc. injection Henc as _ <-.
  now apply Find_layout.
Qed.

Lemma Find_value_or_not_found_witness :
  Find (encoded csSample) (hash32 Byte.x02) (hash32 Byte.x07)
  = Return (Some (repeat Byte.xcc (Z.to_nat 300)), None)
  /\ Find (encoded csSample) (hash32 Byte.x02) (hash32 Byte.x05)
     = Return (None, Some ErrNotFound).
Proof.
  split.
  - refine (proj1 (Find_value_or_not_found csSample csSample (encoded csSample)
                     (hash32 Byte.x02) (hash32 Byte.x07) _ _ _ _));
      vm_compute; reflexivity.
  - refine (proj1 (Find_value_or_not_found csSample csSample (encoded csSample)
                     (hash32 Byte.x02) (hash32 Byte.x05) _ _ _ _));
      vm_compute; reflexivity.
Defined.

(** ** The encoding is canonical *)

(** C10.  [EncodeStorage] first sorts the change-set it is given: the
    change-set it leaves behind is the sorted one, strictly ascending by
    key, a permutation of the input.  The bytes it writes depend on the
    sorted change-set only: two change-sets holding the same changes with
    unique keys, in any order, have the same sorted form and the same
    outcome of encoding, byte for byte; with 72-byte keys and sizes that
    fit the fields of the format both calls return the layout of the
    sorted change-set. *)
Theorem EncodeStorage_canonical (s1 s2 : ChangeSet)
    (Hperm : Permutation (Changes s1) (Changes s2))
    (Huniq : NoDup (map Key (Changes s1))) :
  let l := sortChanges (Changes s1) in
  StronglySorted keyLt l
  /\ Permutation l (Changes s1)
  /\ sortChanges (Changes s2) = l
  /\ (forall s' b, EncodeStorage s1 = Return (s', b) -> Changes s' = l)
  /\ outcomeMap snd (EncodeStorage s1) = outcomeMap snd (EncodeStorage s2)
  /\ (keysWellFormed l = true -> fitsFormat l = true ->
      EncodeStorage s1 = Return ({| Changes := l; keyLen := keyLen s1 |}, layoutOf l)
      /\ EncodeStorage s2 = Return ({| Changes := l; keyLen := keyLen s2 |}, layoutOf l)).
Proof.
  cbv zeta.
  pose proof (sortChanges_canonical _ _ Hperm Huniq) as Hcan.
  split.
  { apply sorted_strict; [apply sortChanges_sorted|].
    eapply Permutation_NoDup; [|exact Huniq].
    apply Permutation_map, Permutation_sym, sortChanges_perm. }
  split; [apply sortChanges_perm|].
  split; [now symmetry|].
  split; [intros s' b H; now apply EncodeStorage_sorts in H|].
  split; [now apply EncodeStorage_bytes_of_sorted|].
  intros Hkeys Hfits. split.
  - now apply EncodeStorage_layout.
  - rewrite Hcan in *. now apply EncodeStorage_layout.
Qed.

Lemma EncodeStorage_canonical_witness :
  let shuffled :=
    storageSet
      [ {| Key := storageKey Byte.x02 5 Byte.x07; Value := [Byte.xac] |};
        {| Key := storageKey Byte.x01 DefaultIncarnation Byte.x06; Value := [Byte.xab] |};
        {| Key := storageKey Byte.x01 DefaultIncarnation Byte.x05; Value := [Byte.xaa] |} ] in
  let l := sortChanges (Changes csSharedAddr) in
  EncodeStorage csSharedAddr
    = Return ({| Changes := l; keyLen := keyLen csSharedAddr |}, layoutOf l)
  /\ EncodeStorage shuffled
     = Return ({| Changes := l; keyLen := keyLen shuffled |}, layoutOf l).
Proof.
  cbv zeta.
  refine (proj2 (proj2 (proj2 (proj2 (proj2
            (EncodeStorage_canonical csSharedAddr _ _ _))))) _ _).
  - cbn [Changes csSharedAddr storageSet].
    eapply perm_trans; [apply perm_skip, perm_swap|].
    eapply perm_trans; [apply perm_swap|].
    apply perm_skip, perm_swap.
  - cbn [Changes csSharedAddr storageSet map Key].
    repeat constructor; cbn [In]; intros H;
      repeat (destruct H as [H|H]; [vm_compute in H; discriminate H|]); exact H.
  - vm_compute. reflexivity.
  - vm_compute. reflexivity.
Defined.

(* ===================================================================== *)
(** * Part IV.  Further properties of the code                             *)
(* ===================================================================== *)

(** ** Walk on the layout *)

Lemma copy_onto_buffer key h :
  len h = 32 -> 32 <= len key -> copy (firstn (Z.to_nat 32) key) h = h.
Proof.
  intros Hh Hk. unfold copy. unfold len in *.
  rewrite length_firstn.
  replace (Nat.min (Z.to_nat 32) (length key)) with (length h) by lia.
  rewrite firstn_all, skipn_all2; [apply app_nil_r|].
  rewrite length_firstn. lia.
Qed.

(** One step of the loop of [Walk], on a buffer cut into its parts. *)
Lemma walkElements_at {St} (f : bytes -> bytes -> St -> St * option error)
    (b pre rows1 idB kh rows2 cnt tbl vals : bytes)
    addMap nd D w d i n addr inc v n8 n16 n32 lenOfValsPos valuesPos key (st : St) :
  b = pre ++ rows1 ++ idB ++ kh ++ rows2 ++ cnt ++ tbl ++ vals ->
  4 + 2 + D * 32 = len pre ->
  len rows1 = i * (w + 32) ->
  len idB = w ->
  len kh = 32 ->
  getUint32 idB = Return d ->
  copy (firstn (Z.to_nat 32) key) (mapGetBytes addMap d) = addr ->
  incarnationBytes nd d = inc ->
  lenOfValsPos = len (pre ++ rows1 ++ idB ++ kh ++ rows2 ++ cnt) ->
  valuesPos = lenOfValsPos + len tbl ->
  findVal tbl vals i n8 n16 n32 = Return v ->
  walkElements f b addMap nd D w lenOfValsPos valuesPos n8 n16 n32 (S n) i key st
  = match f (addr ++ inc ++ kh) v st with
    | (st', Some err) => Return (st', Some err)
    | (st', None) =>
        walkElements f b addMap nd D w lenOfValsPos valuesPos n8 n16 n32 n (i + 1)
          (addr ++ inc ++ kh) st'
    end.
Proof.
  intros Hb He Hr Hid Hkh Hget Haddr Hinc Hlv Hvp Hfv.
  cbn [walkElements]. cbv zeta. unfold_consts.
  rewrite (slice_at b (pre ++ rows1) idB (kh ++ rows2 ++ cnt ++ tbl ++ vals));
    [| rewrite Hb; now rewrite <- !app_assoc | rewrite len_app; lia | lia].
  rewrite bind_Return. cbv beta. rewrite Hget, bind_Return. cbv beta.
  rewrite (slice_at b (pre ++ rows1 ++ idB) kh (rows2 ++ cnt ++ tbl ++ vals));
    [| rewrite Hb; now rewrite <- !app_assoc | rewrite !len_app; lia | lia].
  rewrite bind_Return. cbv beta.
  rewrite (slice_at b (pre ++ rows1 ++ idB ++ kh ++ rows2 ++ cnt) tbl vals);
    [| rewrite Hb; now rewrite <- !app_assoc | exact Hlv | lia].
  rewrite bind_Return. cbv beta.
  rewrite (sliceFrom_at b ((pre ++ rows1 ++ idB ++ kh ++ rows2 ++ cnt) ++ tbl) vals);
    [| rewrite Hb; now rewrite <- !app_assoc | rewrite len_app; lia].
  rewrite bind_Return. cbv beta. rewrite Hfv, bind_Return. cbv beta.
  rewrite Haddr, Hinc. reflexivity.
Qed.

(** The loop of [Walk] hands the callback the changes the layout was
    written from. *)
Lemma walkElements_layout {St} (f : bytes -> bytes -> St -> St * option error) l :
  keysWellFormed l = true ->
  fitsFormat l = true ->
  tableCovered l = true ->
  oneIncarnationPerAddress l = true ->
  exceptionsAddressable l = true ->
  forall addMap,
    (forall d, mapGet Z.eqb addMap d = dictEntry (dictionaryOf l) d) ->
    forall l2 l1 key (st : St), l = l1 ++ l2 -> 32 <= len key ->
      let dict := dictionaryOf l in
      let w := getNumOfBytesByLen (len dict) in
      let cums := cumLens 0 l in
      let n8 := countWidth 1 cums in
      let n16 := countWidth 2 cums in
      let n32 := countWidth 4 cums in
      let lenOfValsPos := 4 + 2 + len dict * 32 + len l * (w + 32) + 2 * 3 in
      walkElements f (layoutOf l) addMap
        (fold_left insertException (exceptionsFrom [] 0 l) [])
        (len dict) w lenOfValsPos (lenOfValsPos + n8 + n16 * 2 + n32 * 4) n8 n16 n32
        (length l2) (len l1) key st
      = Return (visitChanges f l2 st).
Proof.
  intros Hwf Hfit Hcov Hone Haddr addMap HaddMap.
  destruct (fitsFormat_spec _ Hfit) as (HD & H8 & H16 & H32 & Htot & Hn).
  destruct (layout_parts l Hwf) as (Hh & Hldict & Hlrows & Hltbl & Hlvals).
  cbv zeta in Hlrows, Hltbl |- *.
  set (dict := dictionaryOf l) in *.
  set (w := getNumOfBytesByLen (len dict)) in *.
  pose proof (getNumOfBytesByLen_widths (len dict)) as Hw. fold w in Hw.
  assert (Hrow : forall c, In c l -> len (rowOf dict w c) = w + 32).
  { intros c Hc. apply len_rowOf; [exact Hw | now apply (keysWellFormed_In l)]. }
  induction l2 as [|x l2 IH]; intros l1 key st Hcut Hkey; [reflexivity|].
  assert (Hx : In x l) by (rewrite Hcut; apply in_or_app; right; now left).
  pose proof (keysWellFormed_In l x Hwf Hx) as Hkx.
  destruct (dictionaryOf_has l x Hx) as [d Hd]. fold dict in Hd.
  pose proof (indexOf_range _ _ _ Hd) as [Hdr Hdn].
  assert (Hlen : len l = len l1 + 1 + len l2)
    by (rewrite Hcut at 1; rewrite len_app, len_cons; lia).
  assert (Hrows1 : len (flat_map (rowOf dict w) l1) = len l1 * (w + 32)).
  { rewrite (len_flat_map_const _ (w + 32)); [lia|].
    intros c Hc. apply Hrow. rewrite Hcut. apply in_or_app. now left. }
  assert (Hrows2 : len (flat_map (rowOf dict w) l2) = len l2 * (w + 32)).
  { rewrite (len_flat_map_const _ (w + 32)); [lia|].
    intros c Hc. apply Hrow. rewrite Hcut. apply in_or_app. right. now right. }
  assert (Hfv : findVal (flat_map tableEntry (cumLens 0 l))
                  (flat_map Value l ++ flat_map exceptionRecord (exceptionsFrom [] 0 l))
                  (len l1) (countWidth 1 (cumLens 0 l)) (countWidth 2 (cumLens 0 l))
                  (countWidth 4 (cumLens 0 l)) = Return (Value x)).
  { assert (Hk : (length l1 < length l)%nat) by (unfold len in Hlen; lia).
    pose proof (tableCovered_spec l (length l1) Hcov Hk) as Hck.
    change (Z.of_nat (length l1)) with (len l1) in Hck.
    clear IH. revert Htot Hck. rewrite Hcut. intros Htot Hck.
    now apply findVal_element. }
  cbn [length visitChanges].
  rewrite (walkElements_at f (layoutOf l)
            (PutUint32 (len l) ++ PutUint16 (len dict) ++ concat dict)
            (flat_map (rowOf dict w) l1)
            (dictIndexBytes w (dictIndexOf dict x)) (keyHashOf x)
            (flat_map (rowOf dict w) l2)
            (PutUint16 (countWidth 1 (cumLens 0 l)) ++ PutUint16 (countWidth 2 (cumLens 0 l))
             ++ PutUint16 (countWidth 4 (cumLens 0 l)))
            (flat_map tableEntry (cumLens 0 l))
            (flat_map Value l ++ flat_map exceptionRecord (exceptionsFrom [] 0 l))
            addMap _ (len dict) w d (len l1) (length l2)
            (addrHashOf x) (incarnationOf x) (Value x)).
  - rewrite <- (key_parts x Hkx).
    destruct (f (Key x) (Value x) st) as [st' [err|]]; [reflexivity|].
    replace (len l1 + 1) with (len (l1 ++ [x])) by (rewrite len_app; reflexivity).
    apply IH; [rewrite Hcut, <- app_assoc; reflexivity | lia].
  - unfold layoutOf. cbv zeta. fold dict. fold w.
    rewrite Hcut at 2. rewrite flat_map_app. cbn [flat_map]. unfold rowOf at 2.
    now rewrite <- !app_assoc.
  - rewrite !len_app, len_PutUint32, len_PutUint16, Hldict. lia.
  - exact Hrows1.
  - now apply len_dictIndexBytes.
  - now apply len_keyHashOf.
  - unfold dictIndexOf. rewrite Hd. apply getUint32_dictIndexBytes; lia.
  - unfold mapGetBytes. rewrite HaddMap. unfold dictEntry.
    replace ((0 <=? d) && (d <? len dict)) with true
      by (symmetry; rewrite andb_true_iff, Z.leb_le, Z.ltb_lt; exact Hdr).
    rewrite Hdn. apply copy_onto_buffer; [now apply len_addrHashOf | exact Hkey].
  - replace d with (dictIndexOf dict x) by (unfold dictIndexOf; now rewrite Hd).
    apply incarnationBytes_of_element; auto. lia.
  - rewrite !len_app, len_PutUint32, !len_PutUint16, Hldict, Hrows1, Hrows2.
    rewrite len_dictIndexBytes, len_keyHashOf by assumption. lia.
  - rewrite Hltbl. lia.
  - exact Hfv.
Qed.

Lemma Walk_layout {St} (f : bytes -> bytes -> St -> St * option error) l (st : St) :
  keysWellFormed l = true ->
  fitsFormat l = true ->
  tableCovered l = true ->
  oneIncarnationPerAddress l = true ->
  exceptionsAddressable l = true ->
  Walk (layoutOf l) f st = Return (visitChanges f l st).
Proof.
  intros Hwf Hfit Hcov Hone Haddr.
  assert (Hne : l = [] \/ l <> []) by (destruct l; [now left | right; discriminate]).
  destruct Hne as [-> | Hne]; [vm_compute; reflexivity|].
  pose proof (layout_flat l) as Hb.
  destruct (layout_sizes l Hwf Hfit Hne)
    as (Hn & HD & H8 & H16 & H32 & Hcnt & Hw & HlD & HlR & HRpos & HlT & HlV & HVpos & HlX).
  destruct (fitsFormat_spec _ Hfit) as (_ & _ & _ & _ & Htot & _).
  assert (Hh : hashes32 (dictionaryOf l)) by (apply (layout_parts l Hwf)).
  cbv zeta in *.
  set (dict := dictionaryOf l) in *.
  set (w := getNumOfBytesByLen (len dict)) in *.
  set (n8 := countWidth 1 (cumLens 0 l)) in *.
  set (n16 := countWidth 2 (cumLens 0 l)) in *.
  set (n32 := countWidth 4 (cumLens 0 l)) in *.
  set (T := flat_map tableEntry (cumLens 0 l)) in *.
  set (R := flat_map (rowOf dict w) l) in *.
  set (V := flat_map Value l) in *.
  set (E := exceptionsFrom [] 0 l) in *.
  set (X := flat_map exceptionRecord E) in *.
  set (b := layoutOf l) in *.
  pose proof (len_nonneg E) as HEpos.
  assert (Hlen : len b = 4 + 2 + 32 * len dict + (w + 32) * len l + 6
                         + (n8 + 2 * n16 + 4 * n32) + totalLen l + 12 * len E).
  { rewrite Hb, !len_app, len_PutUint32, !len_PutUint16, HlD, HlR, HlT, HlV, HlX. lia. }
  unfold Walk. cbv zeta. unfold_consts.
  destruct (Z.eqb_spec (len b) 0) as [H0|_]; [lia|].
  destruct (Z.ltb_spec (len b) 8) as [H0|_]; [lia|].
  rewrite (slice_at b [] (PutUint32 (len l)) _ 0 4 Hb)
    by (rewrite ?len_PutUint32; reflexivity).
  rewrite bind_Return. cbv beta. rewrite Uint32_Put by lia.
  rewrite bind_Return. cbv beta.
  destruct (Z.eqb_spec (len l) 0) as [H0|_]; [lia|].
  rewrite (slice_at b (PutUint32 (len l)) (PutUint16 (len dict))
             (concat dict ++ R ++ PutUint16 n8 ++ PutUint16 n16 ++ PutUint16 n32
              ++ T ++ V ++ X) 4 (4 + 2) Hb)
    by (rewrite ?len_PutUint32, ?len_PutUint16; reflexivity).
  rewrite bind_Return. cbv beta. rewrite Uint16_Put by lia.
  rewrite bind_Return. cbv beta. fold w.
  set (lvp := 4 + 2 + len dict * 32 + len l * (w + 32)).
  rewrite (slice_at b (PutUint32 (len l) ++ PutUint16 (len dict) ++ concat dict ++ R)
             (PutUint16 n8) (PutUint16 n16 ++ PutUint16 n32 ++ T ++ V ++ X));
    [| rewrite Hb; now rewrite <- !app_assoc
     | rewrite !len_app, len_PutUint32, !len_PutUint16, HlD, HlR; unfold lvp; lia
     | now rewrite len_PutUint16].
  rewrite bind_Return. cbv beta. rewrite Uint16_Put by lia.
  rewrite bind_Return. cbv beta.
  rewrite (slice_at b ((PutUint32 (len l) ++ PutUint16 (len dict) ++ concat dict ++ R)
                       ++ PutUint16 n8)
             (PutUint16 n16) (PutUint16 n32 ++ T ++ V ++ X));
    [| rewrite Hb; now rewrite <- !app_assoc
     | rewrite !len_app, len_PutUint32, !len_PutUint16, HlD, HlR; unfold lvp; lia
     | rewrite len_PutUint16; lia].
  rewrite bind_Return. cbv beta. rewrite Uint16_Put by lia.
  rewrite bind_Return. cbv beta.
  rewrite (slice_at b (((PutUint32 (len l) ++ PutUint16 (len dict) ++ concat dict ++ R)
                        ++ PutUint16 n8) ++ PutUint16 n16)
             (PutUint16 n32) (T ++ V ++ X));
    [| rewrite Hb; now rewrite <- !app_assoc
     | rewrite !len_app, len_PutUint32, !len_PutUint16, HlD, HlR; unfold lvp; lia
     | rewrite len_PutUint16; lia].
  rewrite bind_Return. cbv beta. rewrite Uint16_Put by lia.
  rewrite bind_Return. cbv beta.
  rewrite (sliceFrom_at b ((((PutUint32 (len l) ++ PutUint16 (len dict) ++ concat dict ++ R)
                        ++ PutUint16 n8) ++ PutUint16 n16) ++ PutUint16 n32)
             (T ++ V ++ X));
    [| rewrite Hb; now rewrite <- !app_assoc
     | rewrite !len_app, len_PutUint32, !len_PutUint16, HlD, HlR; unfold lvp; lia].
  rewrite bind_Return. cbv beta.
  rewrite calculateIncarnationPos3_last by lia.
  unfold T at 1, n8 at 1 2 3, n16 at 1 2 3, n32 at 1 2 3.
  rewrite cumEntry_last by assumption.
  fold n8 n16 n32. rewrite !bind_Return. cbv beta.
  set (pos := lvp + 2 * 3 + (totalLen l + (n8 + n16 * 2 + n32 * 4))).
  assert (Hpos : pos = len (PutUint32 (len l) ++ PutUint16 (len dict) ++ concat dict ++ R
                            ++ PutUint16 n8 ++ PutUint16 n16 ++ PutUint16 n32 ++ T ++ V)).
  { rewrite !len_app, len_PutUint32, !len_PutUint16, HlD, HlR, HlT, HlV.
    subst pos lvp. lia. }
  assert (Hrest : len b - pos = len E * 12) by (subst pos lvp; lia).
  rewrite Hrest, Z.mod_mul by lia. cbn [Z.eqb negb]. rewrite andb_false_r.
  assert (Hexc : (if pos <? len b then readIncarnations b pos else Return [])
                 = Return (fold_left insertException E [])).
  { destruct (Z.ltb_spec pos (len b)) as [Hlt | Hge].
    - rewrite Hpos. apply readIncarnations_spec.
      + rewrite Hb. now rewrite <- !app_assoc.
      + intros e He. now apply (exceptions_wellformed l).
    - assert (HE0 : E = []) by (apply len_0_nil; lia).
      now rewrite HE0. }
  rewrite Hexc, bind_Return. cbv beta.
  destruct (readDict_spec b (PutUint32 (len l) ++ PutUint16 (len dict)) dict
              (R ++ PutUint16 n8 ++ PutUint16 n16 ++ PutUint16 n32 ++ T ++ V ++ X))
    as (m & Hrd & Hget & Hmlen).
  { rewrite Hb. now rewrite <- !app_assoc. }
  { rewrite len_app, len_PutUint32, len_PutUint16. reflexivity. }
  { exact Hh. }
  { change (2 ^ 32) with 4294967296. change (2 ^ 16) with 65536 in HD. lia. }
  rewrite Hrd, bind_Return. cbv beta.
  replace (Z.to_nat (len l)) with (length l) by (unfold len; lia).
  pose proof (walkElements_layout f l Hwf Hfit Hcov Hone Haddr m Hget l []
                (repeat Byte.x00 (Z.to_nat (32 * 2 + 8))) st eq_refl) as Hwalk.
  cbv zeta in Hwalk. apply Hwalk.
  rewrite len_repeat. lia.
Qed.

(** X1.  [StorageChangeSetBytes.Walk] on the bytes [EncodeStorage] wrote
    calls its callback with the key and the value of every change of the
    sorted change-set, in order, and stops at the first call that returns
    an error, which it returns; it decodes what [DecodeStorage] decodes.
    (For a change-set of 72-byte keys with one incarnation per
    address-hash, whose sizes fit the format, on which [findVal] follows
    the length table and the exceptions are recorded under the index the
    decoders use.) *)
Theorem Walk_visits_encoded_changes (s s' : ChangeSet) (b : bytes)
    (Henc : EncodeStorage s = Return (s', b))
    (Hkeys : keysWellFormed (Changes s') = true)
    (Hfits : fitsFormat (Changes s') = true)
    (Hcov : tableCovered (Changes s') = true)
    (Hone : oneIncarnationPerAddress (Changes s') = true)
    (Haddr : exceptionsAddressable (Changes s') = true) :
  forall (St : Type) (f : bytes -> bytes -> St -> St * option error) (st : St),
    Walk b f st = Return (visitChanges f (Changes s') st).
Proof.
  intros St f st.
  pose proof (EncodeStorage_sorts _ _ _ Henc) as Hs.
  pose proof (EncodeStorage_layout s) as Hl. cbv zeta in Hl.
  rewrite <- Hs in Hl. rewrite (Hl Hkeys Hfits) in Henc.
  apply Return_inj in Henc. injection Henc as _ <-.
  now apply Walk_layout.
Qed.

Lemma Walk_visits_encoded_changes_witness :
  Walk (encoded csSample) (fun k v (acc : list Change) => (acc ++ [{| Key := k; Value := v |}], None)) []
  = Return (Changes csSample, None).
Proof.
  refine (Walk_visits_encoded_changes csSample csSample (encoded csSample) _ _ _ _ _ _
            (list Change) _ []); vm_compute; reflexivity.
Defined.

(** ** Inputs shorter than a header *)

Lemma slice_beyond {A} (b : list A) lo hi : len b < hi -> slice b lo hi = Panics.
Proof.
  intros H. unfold slice.
  destruct (Z.leb_spec hi (len b)); [lia|]. now rewrite andb_false_r.
Qed.

Lemma readDict_beyond b d : 1 <= d -> len b < 38 -> readDict b d = Panics.
Proof.
  intros Hd Hb. unfold readDict.
  destruct (Z.to_nat d) as [|n] eqn:E; [lia|].
  cbn [forLoop]. cbv zeta. unfold_consts.
  rewrite slice_beyond by lia. reflexivity.
Qed.

(** X2.  An input of 1 to 7 bytes is reported as too short by [Walk]
    (which does not call its callback) and by [Find].  [DecodeStorage]
    reports only inputs of 1 to 3 bytes; given 4 to 7 bytes it returns the
    empty change-set when the first four bytes announce no element, and
    panics when they announce one or more. *)
Theorem inputs_below_8_bytes (b : bytes) (Hlen : 0 < len b < 8) :
  (forall (St : Type) (f : bytes -> bytes -> St -> St * option error) (st : St),
     Walk b f st = Return (st, Some (ErrInputTooShort (len b))))
  /\ (forall a k, Find b a k = Return (None, Some (ErrInputTooShort (len b))))
  /\ (len b < 4 ->
      DecodeStorage b = Return (NewStorageChangeSet, Some (ErrInputTooShort (len b))))
  /\ (4 <= len b -> announcedElements b = 0 ->
      DecodeStorage b = Return (NewStorageChangeSet, None))
  /\ (4 <= len b -> announcedElements b <> 0 -> DecodeStorage b = Panics).
Proof.
  split.
  { intros St f st. unfold Walk.
    destruct (Z.eqb_spec (len b) 0); [lia|].
    destruct (Z.ltb_spec (len b) 8); [reflexivity | lia]. }
  split.
  { intros a k. unfold Find.
    destruct (Z.eqb_spec (len b) 0); [lia|].
    destruct (Z.ltb_spec (len b) 8); [reflexivity | lia]. }
  split.
  { intros H4. unfold DecodeStorage. cbv zeta.
    destruct (Z.eqb_spec (len b) 0); [lia|].
    destruct (Z.ltb_spec (len b) 4); [reflexivity | lia]. }
  assert (Hhead : 4 <= len b ->
            exists nb, slice b 0 4 = Return nb
                       /\ Uint32 nb = Return (announcedElements b)
                       /\ 0 <= announcedElements b).
  { intros H4. destruct (slice_in_range b 0 4) as [nb Hnb]; try lia.
    exists nb. split; [exact Hnb|].
    pose proof (slice_prefix _ _ _ Hnb) as Hpre. change (Z.to_nat 4) with 4%nat in Hpre.
    pose proof (slice_len _ _ _ _ Hnb) as Hl4.
    unfold Uint32. destruct (Z.leb_spec 4 (len nb)); [|lia].
    assert (Hann : announcedElements b = beUint (firstn 4 nb)).
    { unfold announcedElements. rewrite Hpre. now rewrite firstn_firstn. }
    rewrite Hann. split; [reflexivity|].
    pose proof (beUint_range (firstn 4 nb)). lia. }
  split.
  - intros H4 Hz. destruct (Hhead H4) as (nb & Hnb & Hu & _).
    unfold DecodeStorage. cbv zeta. unfold_consts.
    destruct (Z.eqb_spec (len b) 0); [lia|].
    destruct (Z.ltb_spec (len b) 4); [lia|].
    rewrite Hnb, bind_Return. cbv beta. rewrite Hu, bind_Return. cbv beta.
    rewrite Hz. reflexivity.
  - intros H4 Hnz. destruct (Hhead H4) as (nb & Hnb & Hu & Hpos).
    unfold DecodeStorage. cbv zeta. unfold_consts.
    destruct (Z.eqb_spec (len b) 0); [lia|].
    destruct (Z.ltb_spec (len b) 4); [lia|].
    rewrite Hnb, bind_Return. cbv beta. rewrite Hu, bind_Return. cbv beta.
    destruct (Z.eqb_spec (announcedElements b) 0); [contradiction|].
    destruct (slice b 4 (4 + 2)) as [db|]; [|reflexivity].
    rewrite bind_Return. cbv beta.
    destruct (Uint16 db) as [D|] eqn:ED; [|reflexivity].
    rewrite bind_Return. cbv beta.
    pose proof (Uint16_value _ _ ED) as [_ HD].
    destruct (Z.eq_dec D 0) as [-> | HD0].
    + change (readDict b 0) with (@Return (list (Z * bytes)) []).
      rewrite bind_Return. cbv beta.
      pose proof (getNumOfBytesByLen_pos 0).
      rewrite slice_beyond by nia. reflexivity.
    + rewrite readDict_beyond by lia. reflexivity.
Qed.

Lemma inputs_below_8_bytes_witness :
  DecodeStorage [Byte.x00; Byte.x00; Byte.x00; Byte.x02; Byte.x00] = Panics
  /\ Find [Byte.x00; Byte.x00; Byte.x00; Byte.x02; Byte.x00] [] []
     = Return (None, Some (ErrInputTooShort 5)).
Proof.
  pose proof (inputs_below_8_bytes [Byte.x00; Byte.x00; Byte.x00; Byte.x02; Byte.x00]) as H.
  destruct H as (_ & Hfind & _ & _ & Hpanic).
  - vm_compute. split; reflexivity.
  - split.
    + apply Hpanic; [vm_compute; discriminate | vm_compute; discriminate].
    + apply Hfind.
Defined.

(** ** The shape of what DecodeStorage returns *)

Lemma forLoop_invariant {St} (P : nat -> St -> Prop) (body : Z -> St -> outcome St) step :
  (forall j i s s', P j s -> body i s = Return s' -> P (S j) s') ->
  forall n i s s' j,
    P j s -> forLoop n i step body s = Return s' -> P (j + n)%nat s'.
Proof.
  intros Hstep. induction n as [|n IH]; intros i s s' j HP Hrun; cbn [forLoop] in Hrun.
  - apply Return_inj in Hrun. subst. now rewrite Nat.add_0_r.
  - apply bind_inv in Hrun. destruct Hrun as (s1 & H1 & Hrun).
    rewrite Nat.add_succ_r. apply (IH (i + step) s1 s' (S j)); [|exact Hrun].
    eapply Hstep; eauto.
Qed.

Lemma len_copy dst src : len (copy dst src) = len dst.
Proof.
  unfold copy, len. rewrite length_app, length_firstn, length_skipn. lia.
Qed.

Lemma len_incarnationBytes nd d : len (incarnationBytes nd d) = 8.
Proof. unfold incarnationBytes. destruct (mapGet Z.eqb nd d); apply len_PutUint64. Qed.

(** Every key [decodeElement] builds is 72 bytes long. *)
Lemma decodeElement_key_72 b addMap nd es w lvp vp n8 n16 n32 i c :
  decodeElement b addMap nd es w lvp vp n8 n16 n32 i = Return c -> len (Key c) = 72.
Proof.
  unfold decodeElement. cbv zeta. unfold_consts. intros H.
  inv_bind H. inv_bind H. inv_bind H. inv_bind H. inv_bind H. inv_bind H.
  apply Return_inj in H. subst c. cbn [Key].
  rewrite !len_app, len_copy, len_repeat, len_incarnationBytes.
  match goal with
  | Hs : slice b ?lo ?hi = Return a1 |- _ => rewrite (slice_len _ _ _ _ Hs)
  end.
  lia.
Qed.

(** X3.  Whatever the input, when [DecodeStorage] returns, the change-set
    it returns has key length 72 and holds as many changes as the first
    four bytes of the input announce (none for an input shorter than four
    bytes); when it returns without error, every key in it is 72 bytes
    long. *)
Theorem DecodeStorage_announced_72_byte_keys (b : bytes) (cs : ChangeSet) (e : option error)
    (Hdec : DecodeStorage b = Return (cs, e)) :
  keyLen cs = 72
  /\ len (Changes cs) = (if len b <? 4 then 0 else announcedElements b)
  /\ (e = None -> Forall (fun c => len (Key c) = 72) (Changes cs)).
Proof.
  unfold DecodeStorage in Hdec. cbv zeta in Hdec. unfold_consts.
  destruct (Z.eqb_spec (len b) 0) as [H0|H0].
  { apply Return_inj in Hdec. injection Hdec as <- <-.
    destruct (Z.ltb_spec (len b) 4); [|lia]. repeat split. constructor. }
  destruct (Z.ltb_spec (len b) 4) as [H4|H4].
  { apply Return_inj in Hdec. injection Hdec as <- <-. repeat split. discriminate. }
  inv_bind Hdec. rename a into nb. inv_bind Hdec. rename a into n.
  pose proof (slice_prefix _ _ _ E) as Hnb. change (Z.to_nat 4) with 4%nat in Hnb.
  pose proof (Uint32_value _ _ E0) as [Hnval Hnrange].
  assert (Hann : announcedElements b = n).
  { unfold announcedElements. rewrite Hnval, Hnb. now rewrite firstn_firstn. }
  rewrite Hann.
  assert (Hrep : len (repeat emptyChange (Z.to_nat n)) = n) by (rewrite len_repeat; lia).
  destruct (Z.eqb_spec n 0) as [Hz|Hz].
  { apply Return_inj in Hdec. injection Hdec as <- <-. cbn [keyLen Changes].
    split; [reflexivity|]. split; [exact Hrep|]. intros _. rewrite Hz. constructor. }
  do 11 inv_bind Hdec.
  match type of Hdec with
  | (if ?c then _ else _) = _ => destruct c
  end.
  { apply Return_inj in Hdec. injection Hdec as <- <-. cbn [keyLen Changes].
    split; [reflexivity|]. split; [exact Hrep | discriminate]. }
  inv_bind Hdec. rename a into nd. inv_bind Hdec. rename a into changes.
  apply Return_inj in Hdec. injection Hdec as <- <-. cbn [keyLen Changes].
  split; [reflexivity|].
  match goal with
  | H : forLoop _ _ _ _ [] = Return changes |- _ => rename H into Hloop
  end.
  apply (forLoop_invariant
           (fun j acc => length acc = j /\ Forall (fun c => len (Key c) = 72) acc))
    with (j := 0%nat) in Hloop.
  - destruct Hloop as [Hl Hall]. split; [unfold len; lia | intros _; exact Hall].
  - intros j i acc acc' [Hl Hall] Hbody.
    inv_bind Hbody. apply Return_inj in Hbody. subst acc'.
    split; [rewrite length_app; cbn [length]; lia|].
    apply Forall_app. split; [exact Hall|]. constructor; [|constructor].
    eapply decodeElement_key_72; eauto.
  - split; [reflexivity | constructor].
Qed.

Lemma DecodeStorage_announced_72_byte_keys_witness :
  len (Changes csSharedAddr) = 3
  /\ Forall (fun c => len (Key c) = 72)
       [ {| Key := storageKey Byte.x01 DefaultIncarnation Byte.x05; Value := [Byte.xaa] |};
         {| Key := storageKey Byte.x01 DefaultIncarnation Byte.x06; Value := [Byte.xab] |};
         {| Key := storageKey Byte.x02 DefaultIncarnation Byte.x07; Value := [Byte.xac] |} ].
Proof.
  pose proof (DecodeStorage_announced_72_byte_keys (encoded csSharedAddr)
                (storageSet
                   [ {| Key := storageKey Byte.x01 DefaultIncarnation Byte.x05;
                        Value := [Byte.xaa] |};
                     {| Key := storageKey Byte.x01 DefaultIncarnation Byte.x06;
                        Value := [Byte.xab] |};
                     {| Key := storageKey Byte.x02 DefaultIncarnation Byte.x07;
                        Value := [Byte.xac] |} ])
                None) as H.
  destruct H as (_ & Hn & Hk).
  - vm_compute. reflexivity.
  - split; [reflexivity | now apply Hk].
Defined.

(** ** Key rows: written, read back, looked up *)

(** X4.  A row of one of the widths 1, 2, 4, 8 written by [writeKeyRow]
    for a [uint32] id is read back by [getUint32] as the id truncated to
    the width of the row (to 32 bits for the width 8), hence as the id
    itself when the id fits the row; [readFromMap] on that row looks the
    same number up and yields the zero hash when the map has no entry. *)
Theorem getUint32_writeKeyRow (id w : Z) (Hw : In w widths) (Hid : 0 <= id < 2 ^ 32) :
  exists row,
    writeKeyRow id w = Return row
    /\ len row = w
    /\ getUint32 row = Return (id mod 2 ^ (8 * Z.min w 4))
    /\ (id < 2 ^ (8 * w) -> getUint32 row = Return id)
    /\ forall m, readFromMap m row = Return (mapGetHash m (id mod 2 ^ (8 * Z.min w 4))).
Proof.
  assert (Hmain : exists row,
             writeKeyRow id w = Return row /\ len row = w
             /\ getUint32 row = Return (id mod 2 ^ (8 * Z.min w 4))
             /\ forall m, readFromMap m row
                          = Return (mapGetHash m (id mod 2 ^ (8 * Z.min w 4)))).
  { unfold widths in Hw. cbn [In] in Hw.
    destruct Hw as [<-|[<-|[<-|[<-|[]]]]].
    - exists [byte.of_Z (uint8 id)]. split; [reflexivity|]. split; [reflexivity|].
      assert (E : byte.unsigned (byte.of_Z (uint8 id)) = id mod 2 ^ (8 * Z.min 1 4)).
      { rewrite byte.unsigned_of_Z. unfold byte.wrap, uint8.
        change (2 ^ (8 * Z.min 1 4)) with 256. change (2 ^ 8) with 256.
        apply Z.mod_mod. lia. }
      split; [unfold getUint32 | intros m; unfold readFromMap];
        cbn [len length Z.of_nat Pos.of_succ_nat Z.eqb Pos.eqb nth]; now rewrite E.
    - exists (PutUint16 (uint16 id)). split; [reflexivity|].
      split; [apply len_PutUint16|].
      assert (E : beUint (PutUint16 (uint16 id)) = id mod 2 ^ (8 * Z.min 2 4)).
      { unfold PutUint16. rewrite beUint_bePut. unfold uint16.
        change (2 ^ (Z.of_nat 2 * 8)) with 65536. change (2 ^ (8 * Z.min 2 4)) with 65536.
        change (2 ^ 16) with 65536. apply Z.mod_mod. lia. }
      split; [unfold getUint32 | intros m; unfold readFromMap];
        rewrite len_PutUint16; cbn [Z.eqb Pos.eqb]; now rewrite E.
    - exists (PutUint32 id). split; [reflexivity|]. split; [apply len_PutUint32|].
      assert (E : beUint (PutUint32 id) = id mod 2 ^ (8 * Z.min 4 4)).
      { unfold PutUint32. rewrite beUint_bePut. reflexivity. }
      split; [unfold getUint32 | intros m; unfold readFromMap];
        rewrite len_PutUint32; cbn [Z.eqb Pos.eqb]; now rewrite E.
    - exists (PutUint64 id). split; [reflexivity|]. split; [apply len_PutUint64|].
      assert (E : uint32 (beUint (PutUint64 id)) = id mod 2 ^ (8 * Z.min 8 4)).
      { unfold PutUint64. rewrite beUint_bePut. unfold uint32.
        change (2 ^ (Z.of_nat 8 * 8)) with 18446744073709551616.
        change (2 ^ (8 * Z.min 8 4)) with 4294967296. change (2 ^ 32) with 4294967296 in *.
        rewrite (Z.mod_small id 18446744073709551616) by lia. reflexivity. }
      split; [unfold getUint32 | intros m; unfold readFromMap];
        rewrite len_PutUint64; cbn [Z.eqb Pos.eqb]; now rewrite E. }
  destruct Hmain as (row & H1 & H2 & H3 & H4).
  exists row. repeat split; try assumption.
  intros Hfit. rewrite H3. f_equal.
  unfold widths in Hw. cbn [In] in Hw.
  destruct Hw as [<-|[<-|[<-|[<-|[]]]]]; apply Z.mod_small;
    cbn in Hfit |- *; change (2 ^ 32) with 4294967296 in *; cbn in *; lia.
Qed.

Lemma getUint32_writeKeyRow_witness :
  exists row,
    writeKeyRow 300 2 = Return row
    /\ len row = 2
    /\ getUint32 row = Return (300 mod 2 ^ (8 * Z.min 2 4))
    /\ (300 < 2 ^ (8 * 2) -> getUint32 row = Return 300)
    /\ forall m, readFromMap m row = Return (mapGetHash m (300 mod 2 ^ (8 * Z.min 2 4))).
Proof.
  apply (getUint32_writeKeyRow 300 2); [cbn; auto | cbn; lia].
Defined.

(** ** Chunk keys *)

Lemma not64_range x : 0 <= x < 2 ^ 64 -> 0 <= not64 x < 2 ^ 64.
Proof.
  intros Hx. unfold not64.
  assert (H0 : 0 <= Z.lxor x (Z.ones 64)) by (apply Z.lxor_nonneg; cbn; lia).
  split; [exact H0|].
  destruct (Z.eq_dec (Z.lxor x (Z.ones 64)) 0) as [->|Hnz]; [reflexivity|].
  apply Z.log2_lt_pow2; [lia|].
  eapply Z.le_lt_trans; [apply Z.log2_lxor; [lia | cbn; lia]|].
  apply Z.max_lub_lt.
  - destruct (Z.eq_dec x 0) as [->|]; [cbn; lia|]. apply Z.log2_lt_pow2; lia.
  - cbn. lia.
Qed.

(** X5.  [keyAndChunkID] splits a chunk key into the entity key and the
    chunk id: applied to a 32-byte or 72-byte key followed by the eight
    bytes of the bit-inverted id, it returns the key and the id.  It panics
    on exactly the inputs whose length is neither 40 nor 80. *)
Theorem keyAndChunkID_round_trip :
  (forall k id,
      len k = 32 \/ len k = 72 -> 0 <= id < 2 ^ 64 ->
      keyAndChunkID (k ++ PutUint64 (not64 id)) = Return (k, id))
  /\ (forall key, keyAndChunkID key = Panics <-> len key <> 40 /\ len key <> 80).
Proof.
  split.
  - intros k id Hk Hid. unfold keyAndChunkID. unfold_consts.
    rewrite len_app, len_PutUint64.
    replace ((len k + 8 =? 32 + 8) || (len k + 8 =? 32 * 2 + 8 + 8)) with true
      by (symmetry; apply orb_true_iff; rewrite !Z.eqb_eq; lia).
    rewrite (slice_at (k ++ PutUint64 (not64 id)) [] k (PutUint64 (not64 id)));
      [| reflexivity | reflexivity | cbn [len length Z.of_nat]; lia].
    rewrite bind_Return. cbv beta.
    rewrite (sliceFrom_at (k ++ PutUint64 (not64 id)) k (PutUint64 (not64 id)));
      [| reflexivity | lia].
    rewrite bind_Return. cbv beta.
    rewrite Uint64_Put by now apply not64_range.
    rewrite bind_Return. cbv beta. now rewrite not64_involutive.
  - intros key. unfold keyAndChunkID. unfold_consts.
    change (32 + 8) with 40. change (32 * 2 + 8 + 8) with 80.
    destruct (Z.eqb_spec (len key) 40) as [E40|E40];
      [|destruct (Z.eqb_spec (len key) 80) as [E80|E80]]; cbn [orb].
    + split; [|intros [? _]; contradiction]. intros H. exfalso. revert H.
      destruct (slice_in_range key 0 (len key - 8)) as [k Hk]; try lia.
      rewrite Hk, bind_Return. cbv beta. unfold sliceFrom.
      destruct (slice_in_range key (len key - 8) (len key)) as [t Ht]; try lia.
      rewrite Ht, bind_Return. cbv beta.
      rewrite (Uint64_exact t) by (rewrite (slice_len _ _ _ _ Ht); lia).
      discriminate.
    + split; [|intros [_ ?]; contradiction]. intros H. exfalso. revert H.
      destruct (slice_in_range key 0 (len key - 8)) as [k Hk]; try lia.
      rewrite Hk, bind_Return. cbv beta. unfold sliceFrom.
      destruct (slice_in_range key (len key - 8) (len key)) as [t Ht]; try lia.
      rewrite Ht, bind_Return. cbv beta.
      rewrite (Uint64_exact t) by (rewrite (slice_len _ _ _ _ Ht); lia).
      discriminate.
    + split; [auto | reflexivity].
Qed.

Lemma keyAndChunkID_round_trip_witness :
  keyAndChunkID (hash32 Byte.x0a ++ PutUint64 (not64 247)) = Return (hash32 Byte.x0a, 247).
Proof.
  apply (proj1 keyAndChunkID_round_trip); [left; reflexivity | lia].
Defined.

(** ** When EncodeStorage panics *)

Lemma collectAddrs_long_keys l :
  (forall c, In c l -> 72 <= len (Key c)) ->
  forall i st, exists st', collectAddrs l i st = Return st'.
Proof.
  induction l as [|c l IH]; intros Hlong i st; cbn [collectAddrs]; [eauto|].
  unfold_consts.
  assert (Hc : 72 <= len (Key c)) by (apply Hlong; now left).
  assert (Hl : forall c', In c' l -> 72 <= len (Key c')) by (intros; apply Hlong; now right).
  destruct (slice_in_range (Key c) 0 32) as [a Ha]; try lia.
  rewrite Ha, bind_Return. cbv beta.
  destruct (mapGet bytesEqual (addrHashesMap st) a); [now apply IH|].
  destruct (slice_in_range (Key c) 32 (32 + 8)) as [incB Hinc]; try lia.
  rewrite Hinc, bind_Return. cbv beta.
  rewrite (Uint64_exact incB) by (rewrite (slice_len _ _ _ _ Hinc); lia).
  rewrite bind_Return. cbv beta zeta. now apply IH.
Qed.

Lemma writeRows_long_keys l m w :
  In w widths ->
  (forall c, In c l -> 72 <= len (Key c)) ->
  forall st, exists st', writeRows l m w st = Return st'.
Proof.
  intros Hw. induction l as [|c l IH]; intros Hlong st; cbn [writeRows]; [eauto|].
  unfold_consts.
  assert (Hc : 72 <= len (Key c)) by (apply Hlong; now left).
  assert (Hl : forall c', In c' l -> 72 <= len (Key c')) by (intros; apply Hlong; now right).
  destruct (slice_in_range (Key c) 0 32) as [a Ha]; try lia.
  rewrite Ha, bind_Return. cbv beta.
  rewrite (writeKeyRow_widths _ _ Hw), bind_Return. cbv beta.
  destruct (slice_in_range (Key c) (8 + 32) (8 + 2 * 32)) as [kh Hkh]; try lia.
  rewrite Hkh, bind_Return. cbv beta zeta. now apply IH.
Qed.

Lemma writeRows_short_key l m w :
  In w widths ->
  (exists c, In c l /\ len (Key c) < 72) ->
  forall st, writeRows l m w st = Panics.
Proof.
  intros Hw. induction l as [|c l IH]; intros (x & Hx & Hshort) st; [contradiction|].
  cbn [writeRows]. unfold_consts.
  destruct (slice (Key c) 0 32) as [a|]; [|reflexivity].
  rewrite bind_Return. cbv beta.
  rewrite (writeKeyRow_widths _ _ Hw), bind_Return. cbv beta.
  destruct Hx as [<- | Hx].
  - rewrite slice_beyond by lia. reflexivity.
  - destruct (slice (Key c) (8 + 32) (8 + 2 * 32)) as [kh|]; [|reflexivity].
    rewrite bind_Return. cbv beta zeta. apply IH. eauto.
Qed.

(** X6.  [EncodeStorage] panics exactly when the change-set holds a key
    shorter than 72 bytes (address-hash, incarnation, storage-key-hash);
    on every other change-set it returns. *)
Theorem EncodeStorage_panics_iff_short_key (s : ChangeSet) :
  EncodeStorage s = Panics <-> exists c, In c (Changes s) /\ len (Key c) < 72.
Proof.
  pose proof (sortChanges_perm (Changes s)) as Hperm.
  unfold EncodeStorage. cbv zeta. cbn [Changes].
  set (l := sortChanges (Changes s)) in *.
  pose proof (getNumOfBytesByLen_widths) as Hw.
  destruct (forallb (fun c => 72 <=? len (Key c)) l) eqn:Hall.
  - rewrite forallb_forall in Hall.
    assert (Hlong : forall c, In c l -> 72 <= len (Key c)).
    { intros c Hc. apply Z.leb_le. now apply Hall. }
    destruct (collectAddrs_long_keys l Hlong 0 initAddrState) as [st Hst].
    rewrite Hst, bind_Return. cbv beta.
    destruct (writeRows_long_keys l (addrHashesMap st) _
                (Hw (len (addrHashesMap st))) Hlong initRowState) as [rs Hrs].
    rewrite Hrs, bind_Return. cbv beta.
    split; [discriminate|]. intros (c & Hc & Hshort). exfalso.
    assert (In c l) by (eapply Permutation_in; [apply Permutation_sym; exact Hperm | exact Hc]).
    specialize (Hlong c H). lia.
  - assert (Hex : exists c, In c l /\ len (Key c) < 72).
    { apply not_true_iff_false in Hall. rewrite forallb_forall in Hall.
      destruct (Exists_dec (fun c => len (Key c) < 72) l) as [He|Hne].
      - intros c. destruct (Z_lt_dec (len (Key c)) 72); [now left | now right].
      - apply Exists_exists in He. exact He.
      - exfalso. apply Hall. intros c Hc. apply Z.leb_le.
        rewrite Exists_exists in Hne.
        destruct (Z_lt_dec (len (Key c)) 72); [|lia]. exfalso. apply Hne. eauto. }
    split.
    + intros _. destruct Hex as (c & Hc & Hshort). exists c. split; [|exact Hshort].
      eapply Permutation_in; eauto.
    + intros _. destruct (collectAddrs l 0 initAddrState) as [st|]; [|reflexivity].
      rewrite bind_Return. cbv beta.
      rewrite (writeRows_short_key l _ _ (Hw (len (addrHashesMap st))) Hex). reflexivity.
Qed.

(** ** The trailing region of an encoding *)

Lemma exceptionsFrom_all_default l : forall dict i,
  forallb hasDefaultIncarnation l = true -> exceptionsFrom dict i l = [].
Proof.
  induction l as [|c l IH]; intros dict i H; cbn [exceptionsFrom]; [reflexivity|].
  cbn [forallb] in H. apply andb_true_iff in H. destruct H as [Hc Hl].
  destruct (indexOf (addrHashOf c) dict); [now apply IH|].
  rewrite Hc. cbn [app]. now apply IH.
Qed.

Lemma exceptionsStart_layout l :
  keysWellFormed l = true ->
  fitsFormat l = true ->
  l <> [] ->
  exceptionsStart (layoutOf l)
  = Return (len (layoutOf l) - 12 * len (exceptionsFrom [] 0 l)).
Proof.
  intros Hwf Hfit Hne.
  pose proof (layout_flat l) as Hb.
  destruct (layout_sizes l Hwf Hfit Hne)
    as (Hn & HD & H8 & H16 & H32 & Hcnt & Hw & HlD & HlR & HRpos & HlT & HlV & HVpos & HlX).
  destruct (fitsFormat_spec _ Hfit) as (_ & _ & _ & _ & Htot & _).
  cbv zeta in *.
  set (dict := dictionaryOf l) in *.
  set (w := getNumOfBytesByLen (len dict)) in *.
  set (n8 := countWidth 1 (cumLens 0 l)) in *.
  set (n16 := countWidth 2 (cumLens 0 l)) in *.
  set (n32 := countWidth 4 (cumLens 0 l)) in *.
  set (T := flat_map tableEntry (cumLens 0 l)) in *.
  set (R := flat_map (rowOf dict w) l) in *.
  set (V := flat_map Value l) in *.
  set (E := exceptionsFrom [] 0 l) in *.
  set (X := flat_map exceptionRecord E) in *.
  set (b := layoutOf l) in *.
  assert (Hlen : len b = 4 + 2 + 32 * len dict + (w + 32) * len l + 6
                         + (n8 + 2 * n16 + 4 * n32) + totalLen l + 12 * len E).
  { rewrite Hb, !len_app, len_PutUint32, !len_PutUint16, HlD, HlR, HlT, HlV, HlX. lia. }
  unfold exceptionsStart.
  rewrite (slice_at b [] (PutUint32 (len l)) _ 0 4 Hb)
    by (rewrite ?len_PutUint32; reflexivity).
  rewrite bind_Return. cbv beta. rewrite Uint32_Put by lia.
  rewrite bind_Return. cbv beta.
  rewrite (slice_at b (PutUint32 (len l)) (PutUint16 (len dict))
             (concat dict ++ R ++ PutUint16 n8 ++ PutUint16 n16 ++ PutUint16 n32
              ++ T ++ V ++ X) 4 (4 + 2) Hb)
    by (rewrite ?len_PutUint32, ?len_PutUint16; reflexivity).
  rewrite bind_Return. cbv beta. rewrite Uint16_Put by lia.
  rewrite bind_Return. cbv beta zeta. fold w.
  set (lvp := 4 + 2 + len dict * 32 + len l * (w + 32)).
  rewrite (slice_at b (PutUint32 (len l) ++ PutUint16 (len dict) ++ concat dict ++ R)
             (PutUint16 n8) (PutUint16 n16 ++ PutUint16 n32 ++ T ++ V ++ X));
    [| rewrite Hb; now rewrite <- !app_assoc
     | rewrite !len_app, len_PutUint32, !len_PutUint16, HlD, HlR; unfold lvp; lia
     | now rewrite len_PutUint16].
  rewrite bind_Return. cbv beta. rewrite Uint16_Put by lia.
  rewrite bind_Return. cbv beta.
  rewrite (slice_at b ((PutUint32 (len l) ++ PutUint16 (len dict) ++ concat dict ++ R)
                       ++ PutUint16 n8)
             (PutUint16 n16) (PutUint16 n32 ++ T ++ V ++ X));
    [| rewrite Hb; now rewrite <- !app_assoc
     | rewrite !len_app, len_PutUint32, !len_PutUint16, HlD, HlR; unfold lvp; lia
     | rewrite len_PutUint16; lia].
  rewrite bind_Return. cbv beta. rewrite Uint16_Put by lia.
  rewrite bind_Return. cbv beta.
  rewrite (slice_at b (((PutUint32 (len l) ++ PutUint16 (len dict) ++ concat dict ++ R)
                        ++ PutUint16 n8) ++ PutUint16 n16)
             (PutUint16 n32) (T ++ V ++ X));
    [| rewrite Hb; now rewrite <- !app_assoc
     | rewrite !len_app, len_PutUint32, !len_PutUint16, HlD, HlR; unfold lvp; lia
     | rewrite len_PutUint16; lia].
  rewrite bind_Return. cbv beta. rewrite Uint16_Put by lia.
  rewrite bind_Return. cbv beta.
  rewrite (sliceFrom_at b ((((PutUint32 (len l) ++ PutUint16 (len dict) ++ concat dict ++ R)
                        ++ PutUint16 n8) ++ PutUint16 n16) ++ PutUint16 n32)
             (T ++ V ++ X));
    [| rewrite Hb; now rewrite <- !app_assoc
     | rewrite !len_app, len_PutUint32, !len_PutUint16, HlD, HlR; unfold lvp; lia].
  rewrite bind_Return. cbv beta.
  rewrite calculateIncarnationPos3_last by lia.
  unfold T at 1, n8 at 1 2 3, n16 at 1 2 3, n32 at 1 2 3.
  rewrite cumEntry_last by assumption.
  fold n8 n16 n32. rewrite !bind_Return. cbv beta.
  f_equal. unfold lvp. lia.
Qed.

(** X7.  In the bytes [EncodeStorage] writes for a non-empty change-set
    (72-byte keys, sizes that fit the format), the offset the decoders
    compute with [calculateIncarnationPos3] is the end of the value bytes;
    what follows is one 12-byte record per address-hash that is first seen
    with a non-default incarnation, and nothing when every change carries
    the default incarnation.  The length of the trailing region of an
    encoding is therefore a multiple of 12. *)
Theorem encoded_trailing_region (s s' : ChangeSet) (b : bytes)
    (Henc : EncodeStorage s = Return (s', b))
    (Hkeys : keysWellFormed (Changes s') = true)
    (Hfits : fitsFormat (Changes s') = true)
    (Hne : Changes s' <> []) :
  exists pos,
    exceptionsStart b = Return pos
    /\ len b - pos = 12 * len (exceptionsFrom [] 0 (Changes s'))
    /\ (len b - pos) mod 12 = 0
    /\ (forallb hasDefaultIncarnation (Changes s') = true -> pos = len b).
Proof.
  pose proof (EncodeStorage_sorts _ _ _ Henc) as Hs.
  pose proof (EncodeStorage_layout s) as Hl. cbv zeta in Hl.
  rewrite <- Hs in Hl. rewrite (Hl Hkeys Hfits) in Henc.
  apply Return_inj in Henc. injection Henc as _ <-.
  exists (len (layoutOf (Changes s')) - 12 * len (exceptionsFrom [] 0 (Changes s'))).
  split; [now apply exceptionsStart_layout|].
  split; [lia|]. split.
  - replace (len (layoutOf (Changes s'))
             - (len (layoutOf (Changes s')) - 12 * len (exceptionsFrom [] 0 (Changes s'))))
      with (len (exceptionsFrom [] 0 (Changes s')) * 12) by lia.
    apply Z.mod_mul. lia.
  - intros Hdef. rewrite (exceptionsFrom_all_default _ _ _ Hdef).
    change (len (@nil (Z * bytes))) with 0. lia.
Qed.

Lemma encoded_trailing_region_witness :
  exists pos,
    exceptionsStart (encoded csSample) = Return pos
    /\ len (encoded csSample) - pos = 12 * len (exceptionsFrom [] 0 (Changes csSample))
    /\ (len (encoded csSample) - pos) mod 12 = 0
    /\ (forallb hasDefaultIncarnation (Changes csSample) = true
        -> pos = len (encoded csSample)).
Proof.
  apply (encoded_trailing_region csSample csSample (encoded csSample)).
  - vm_compute. reflexivity.
  - vm_compute. reflexivity.
  - vm_compute. reflexivity.
  - vm_compute. discriminate.
Defined.

(** ** The dictionary of an encoding *)

Lemma dictionaryFrom_NoDup l : forall dict,
  NoDup dict -> NoDup (dictionaryFrom dict l).
Proof.
  induction l as [|c l IH]; intros dict Hnd; cbn [dictionaryFrom]; [exact Hnd|].
  destruct (indexOf (addrHashOf c) dict) eqn:E; [now apply IH|].
  apply IH. apply indexOf_None in E.
  apply NoDup_app; [exact Hnd | repeat constructor; intros [] |].
  intros h Hh [<-|[]]. contradiction.
Qed.

Lemma len_dictionaryFrom l : forall dict,
  len (dictionaryFrom dict l) <= len dict + len l.
Proof.
  induction l as [|c l IH]; intros dict; cbn [dictionaryFrom].
  - rewrite len_nil. lia.
  - rewrite len_cons. destruct (indexOf (addrHashOf c) dict).
    + specialize (IH dict). lia.
    + specialize (IH (dict ++ [addrHashOf c])). rewrite len_app in IH.
      change (len [addrHashOf c]) with 1 in IH. lia.
Qed.

(** X8.  The bytes [EncodeStorage] writes (72-byte keys, sizes that fit
    the format) begin with the number of changes in four bytes and the
    number of dictionary entries in two, followed by the dictionary: the
    32-byte address-hashes of the sorted change-set, each exactly once.
    The dictionary is never longer than the change-set. *)
Theorem encoded_dictionary (s s' : ChangeSet) (b : bytes)
    (Henc : EncodeStorage s = Return (s', b))
    (Hkeys : keysWellFormed (Changes s') = true)
    (Hfits : fitsFormat (Changes s') = true) :
  exists dict rest,
    b = PutUint32 (len (Changes s')) ++ PutUint16 (len dict) ++ concat dict ++ rest
    /\ NoDup dict
    /\ Forall (fun h => len h = 32) dict
    /\ (forall h, In h dict <-> exists c, In c (Changes s') /\ firstn 32 (Key c) = h)
    /\ len dict <= len (Changes s').
Proof.
  pose proof (EncodeStorage_sorts _ _ _ Henc) as Hs.
  pose proof (EncodeStorage_layout s) as Hl. cbv zeta in Hl.
  rewrite <- Hs in Hl. rewrite (Hl Hkeys Hfits) in Henc.
  apply Return_inj in Henc. injection Henc as _ <-.
  set (l := Changes s') in *.
  exists (dictionaryOf l). eexists.
  split; [unfold layoutOf; cbv zeta; reflexivity|].
  split; [apply dictionaryFrom_NoDup; constructor|].
  split; [apply dictionaryFrom_hashes32; [exact Hkeys | constructor]|].
  split.
  - intros h. unfold dictionaryOf. rewrite dictionaryFrom_In, in_map_iff.
    cbn [In]. unfold addrHashOf. split.
    + intros [[]|(c & Hc & Hin)]. eauto.
    + intros (c & Hin & Hc). right. eauto.
  - pose proof (len_dictionaryFrom l []) as H. rewrite len_nil in H.
    unfold dictionaryOf. lia.
Qed.

Lemma encoded_dictionary_witness :
  exists dict rest,
    encoded csSharedAddr
    = PutUint32 (len (Changes csSharedAddr)) ++ PutUint16 (len dict) ++ concat dict ++ rest
    /\ NoDup dict
    /\ Forall (fun h => len h = 32) dict
    /\ (forall h, In h dict <->
                  exists c, In c (Changes csSharedAddr) /\ firstn 32 (Key c) = h)
    /\ len dict <= len (Changes csSharedAddr).
Proof.
  apply (encoded_dictionary csSharedAddr csSharedAddr (encoded csSharedAddr));
    vm_compute; reflexivity.
Defined.

(** ** The index generator records every block *)

(** X9.  A call of the generator's walker for a key that already has
    chunks in the cache never fails and does not consult the database.  It
    records the block number behind all block numbers recorded before, in
    the open (last) chunk or in a new chunk placed after it; the chunks
    before the open one are left as they are, and so are the chunks of
    every other key. *)
Theorem changeSetWalker_keeps_history (indexLen : HistoryIndex -> Z)
    (getIndexChunk : bytes -> Z -> chunkLookup) (blockNum : Z) (k v : bytes)
    (cache : indexCache) (c : HistoryIndex) (cs : list HistoryIndex)
    (Hcached : cacheGet cache k = Some (c :: cs)) :
  exists cache' cs',
    changeSetWalker indexLen getIndexChunk blockNum k v cache = (cache', None)
    /\ cacheGet cache' k = Some cs'
    /\ concat cs' = concat (c :: cs) ++ [blockNum]
    /\ firstn (length cs) cs' = removelast (c :: cs)
    /\ (cs' = removelast (c :: cs) ++ [last (c :: cs) [] ++ [blockNum]]
        \/ cs' = (c :: cs) ++ [[blockNum]])
    /\ forall k', k' <> k -> cacheGet cache' k' = cacheGet cache k'.
Proof.
  rewrite (changeSetWalker_cached _ _ _ _ _ _ _ _ Hcached).
  assert (Hne : c :: cs <> []) by discriminate.
  assert (Hlen : length (removelast (c :: cs)) = length cs).
  { pose proof (f_equal (@length _) (app_removelast_last [] Hne)) as H.
    unfold HistoryIndex in *. rewrite length_app in H. change (length [last (c :: cs) []]) with 1%nat in H.
    change (length (c :: cs)) with (S (length cs)) in H. lia. }
  eexists. eexists. split; [reflexivity|].
  split; [unfold cacheGet; rewrite mapGet_mapSet_bytes, bytesEqual_refl; reflexivity|].
  split; [|split; [|split]].
  - destruct (maxChunkSize <? indexLen (last (c :: cs) []) + 8).
    + rewrite concat_app. cbn [concat]. now rewrite app_nil_r.
    + now apply concat_removelast_last.
  - destruct (maxChunkSize <? indexLen (last (c :: cs) []) + 8).
    + rewrite (app_removelast_last [] Hne) at 1. rewrite <- app_assoc.
      rewrite <- Hlen. rewrite firstn_app, firstn_all, Nat.sub_diag. cbn [firstn].
      apply app_nil_r.
    + rewrite <- Hlen. rewrite firstn_app, firstn_all, Nat.sub_diag. cbn [firstn].
      apply app_nil_r.
  - destruct (maxChunkSize <? indexLen (last (c :: cs) []) + 8); auto.
  - intros k' Hk'. unfold cacheGet. rewrite mapGet_mapSet_bytes.
    replace (bytesEqual k k') with false; [reflexivity|].
    symmetry. apply bytesEqual_neq. congruence.
Qed.

Lemma changeSetWalker_keeps_history_witness :
  exists cache' cs',
    changeSetWalker (entryLen 0 8) (fun _ _ => ChunkKeyNotFound) 7 [Byte.x01] []
      [([Byte.x01], [[1; 2]; [5]])] = (cache', None)
    /\ cacheGet cache' [Byte.x01] = Some cs'
    /\ concat cs' = concat [[1; 2]; [5]] ++ [7]
    /\ firstn 1 cs' = removelast [[1; 2]; [5]]
    /\ (cs' = removelast [[1; 2]; [5]] ++ [last [[1; 2]; [5]] [] ++ [7]]
        \/ cs' = [[1; 2]; [5]] ++ [[7]])
    /\ forall k', k' <> [Byte.x01] ->
                  cacheGet cache' k' = cacheGet [([Byte.x01], [[1; 2]; [5]])] k'.
Proof.
  apply (changeSetWalker_keeps_history (entryLen 0 8) (fun _ _ => ChunkKeyNotFound) 7
           [Byte.x01] []
           [([Byte.x01], [[1; 2]; [5]])] [1; 2] [[5]]).
  reflexivity.
Defined.

(** A run of the walker over a key that has chunks in the cache. *)
Lemma walkBlocks_cached indexLen g k : forall blocks cache c cs,
  cacheGet cache k = Some (c :: cs) ->
  Forall (fun x => x <> []) (c :: cs) ->
  exists cache' cs',
    walkBlocks indexLen g k blocks cache = (cache', None)
    /\ cacheGet cache' k = Some cs'
    /\ concat cs' = concat (c :: cs) ++ blocks
    /\ Forall (fun x => x <> []) cs'
    /\ forall k', k' <> k -> cacheGet cache' k' = cacheGet cache k'.
Proof.
  induction blocks as [|b blocks IH]; intros cache c cs Hc Hne.
  - exists cache, (c :: cs). cbn [walkBlocks]. rewrite app_nil_r. auto.
  - cbn [walkBlocks]. rewrite (changeSetWalker_cached _ _ _ _ _ _ _ _ Hc).
    assert (Hnil : c :: cs <> []) by discriminate.
    set (cs1 := if maxChunkSize <? indexLen (last (c :: cs) []) + 8
                then (c :: cs) ++ [[b]]
                else removelast (c :: cs) ++ [last (c :: cs) [] ++ [b]]).
    assert (Hcat : concat cs1 = concat (c :: cs) ++ [b]).
    { subst cs1. destruct (maxChunkSize <? indexLen (last (c :: cs) []) + 8).
      - rewrite concat_app. cbn [concat]. now rewrite app_nil_r.
      - now apply concat_removelast_last. }
    assert (Hne1 : Forall (fun x => x <> []) cs1).
    { subst cs1. destruct (maxChunkSize <? indexLen (last (c :: cs) []) + 8);
        apply Forall_app; split.
      - exact Hne.
      - constructor; [discriminate | constructor].
      - now apply Forall_removelast.
      - constructor; [|constructor]. now destruct (last (c :: cs) []). }
    assert (Hget : cacheGet (mapSet bytesEqual cache k cs1) k = Some cs1).
    { unfold cacheGet. now rewrite mapGet_mapSet_bytes, bytesEqual_refl. }
    clearbody cs1. destruct cs1 as [|c1 cs2].
    { exfalso. apply (f_equal (@length Z)) in Hcat.
      rewrite length_app in Hcat. cbn [concat length] in Hcat. lia. }
    destruct (IH _ c1 cs2 Hget Hne1)
      as (cache' & cs' & Hrun' & Hget' & Hcat' & Hne' & Hother').
    exists cache', cs'. split; [exact Hrun'|]. split; [exact Hget'|].
    split; [rewrite Hcat', Hcat, <- app_assoc; reflexivity|].
    split; [exact Hne'|].
    intros k' Hk'. rewrite Hother' by exact Hk'.
    unfold cacheGet. rewrite mapGet_mapSet_bytes.
    replace (bytesEqual k k') with false; [reflexivity|].
    symmetry. apply bytesEqual_neq. congruence.
Qed.

(** X10.  A run of the generator over the blocks that change one key,
    starting with the key absent from the cache.  When the database fails
    on the first block, the run stops with that error and the cache is left
    as it was.  Otherwise the run succeeds: the chunks of the key then hold,
    in order, the block numbers of the open chunk the database handed out
    (none when it had no chunk for the key, or when that chunk had less
    than 8 bytes of the budget left), followed by every block of the run;
    no chunk is empty, and the chunks of other keys are untouched. *)
Theorem walkBlocks_records_every_block (indexLen : HistoryIndex -> Z)
    (getIndexChunk : bytes -> Z -> chunkLookup) (k : bytes) (b0 : Z) (blocks : list Z)
    (cache : indexCache)
    (Hroom : indexLen NewHistoryIndex + 8 <= maxChunkSize)
    (Hnew : cacheGet cache k = None) :
  match getIndexChunk k b0 with
  | ChunkError code =>
      walkBlocks indexLen getIndexChunk k (b0 :: blocks) cache
      = (cache, Some (ErrDatabase code))
  | lookup =>
      let loaded :=
        match lookup with
        | ChunkFound hi => if maxChunkSize <? indexLen hi + 8 then [] else hi
        | _ => []
        end in
      exists cache' cs',
        walkBlocks indexLen getIndexChunk k (b0 :: blocks) cache = (cache', None)
        /\ cacheGet cache' k = Some cs'
        /\ concat cs' = loaded ++ b0 :: blocks
        /\ Forall (fun x => x <> []) cs'
        /\ forall k', k' <> k -> cacheGet cache' k' = cacheGet cache k'
  end.
Proof.
  assert (Hfirst : forall loaded,
            (maxChunkSize <? indexLen loaded + 8) = false ->
            changeSetWalker indexLen getIndexChunk b0 k [] cache
            = (mapSet bytesEqual cache k [loaded ++ [b0]], None) ->
            exists cache' cs',
              walkBlocks indexLen getIndexChunk k (b0 :: blocks) cache = (cache', None)
              /\ cacheGet cache' k = Some cs'
              /\ concat cs' = loaded ++ b0 :: blocks
              /\ Forall (fun x => x <> []) cs'
              /\ forall k', k' <> k -> cacheGet cache' k' = cacheGet cache k').
  { intros loaded Hfit Hstep. cbn [walkBlocks]. rewrite Hstep.
    destruct (walkBlocks_cached indexLen getIndexChunk k blocks
                (mapSet bytesEqual cache k [loaded ++ [b0]]) (loaded ++ [b0]) [])
      as (cache' & cs' & Hrun & Hget & Hcat & Hne & Hother).
    - unfold cacheGet. now rewrite mapGet_mapSet_bytes, bytesEqual_refl.
    - constructor; [now destruct loaded | constructor].
    - exists cache', cs'. repeat split; try assumption.
      + rewrite Hcat. cbn [concat]. now rewrite app_nil_r, <- app_assoc.
      + intros k' Hk'. rewrite Hother by exact Hk'.
        unfold cacheGet. rewrite mapGet_mapSet_bytes.
        replace (bytesEqual k k') with false; [reflexivity|].
        symmetry. apply bytesEqual_neq. congruence. }
  assert (Hempty : (maxChunkSize <? indexLen (@nil Z) + 8) = false)
    by (apply Z.ltb_ge; exact Hroom).
  destruct (getIndexChunk k b0) as [hi| |code] eqn:Eg.
  - cbv zeta. destruct (maxChunkSize <? indexLen hi + 8) eqn:Efull.
    + apply Hfirst; [exact Hempty|].
      unfold changeSetWalker. rewrite Hnew, Eg. cbn [FindProperIndexChunk]. cbv zeta.
      rewrite Efull. unfold NewHistoryIndex, Append. cbn [app last removelast].
      rewrite Hempty. reflexivity.
    + apply Hfirst; [exact Efull|].
      unfold changeSetWalker. rewrite Hnew, Eg. cbn [FindProperIndexChunk]. cbv zeta.
      rewrite Efull. unfold NewHistoryIndex, Append. cbn [app last removelast].
      rewrite Efull. reflexivity.
  - cbv zeta. apply Hfirst; [exact Hempty|].
    now apply changeSetWalker_first.
  - cbn [walkBlocks]. unfold changeSetWalker. rewrite Hnew, Eg. reflexivity.
Qed.

Lemma walkBlocks_records_every_block_witness :
  exists cache' cs',
    walkBlocks (entryLen 0 8) (fun _ _ => ChunkFound [3; 4]) [Byte.x01] (5 :: [6; 9]) []
    = (cache', None)
    /\ cacheGet cache' [Byte.x01] = Some cs'
    /\ concat cs' = [3; 4] ++ 5 :: [6; 9]
    /\ Forall (fun x => x <> []) cs'
    /\ forall k', k' <> [Byte.x01] -> cacheGet cache' k' = cacheGet [] k'.
Proof.
  apply (walkBlocks_records_every_block (entryLen 0 8) (fun _ _ => ChunkFound [3; 4])
           [Byte.x01] 5 [6; 9] []).
  - vm_compute. discriminate.
  - reflexivity.
Defined.

(** ** Where findVal is the range lookup of the format *)

(** X11.  On any length table and any value bytes, [findVal] is the range
    lookup of the format (the bytes from the cumulative entry before [i],
    0 for the first element, to entry [i]; a panic where that lookup is out
    of range) for every element of the one-byte bucket, for every element
    but the first of the two-byte bucket, and for every element of the
    four-byte bucket that is not the first and whose predecessor is not in
    the one-byte bucket.  For a first element that lies in the two-byte or
    in the four-byte bucket [findVal] panics, whatever the table holds. *)
Theorem findVal_is_range_lookup (lenOfVals vals : bytes) (i n8 n16 n32 : Z)
    (H8 : 0 <= n8) (H16 : 0 <= n16) (H32 : 0 <= n32)
    (Hi : 0 <= i < n8 + n16 + n32) :
  (i < n8 \/ (1 <= i /\ i < n8 + n16) \/ (1 <= i /\ n8 <= i - 1) ->
   findVal lenOfVals vals i n8 n16 n32 = findValSpec lenOfVals vals i n8 n16 n32)
  /\ (i = 0 -> n8 = 0 -> findVal lenOfVals vals i n8 n16 n32 = Panics).
Proof.
  split.
  - intros Hc. apply findVal_follows_format. unfold findValCovers.
    apply andb_true_iff. split; [apply Z.leb_le; lia|].
    destruct (Z.ltb_spec i n8) as [Hlt|Hge]; [reflexivity|].
    destruct (Z.ltb_spec i (n8 + n16)) as [Hlt16|Hge16].
    + replace (n8 <=? i) with true by (symmetry; apply Z.leb_le; lia).
      replace (1 <=? i) with true by (symmetry; apply Z.leb_le; lia).
      reflexivity.
    + replace (n8 <=? i) with true by (symmetry; apply Z.leb_le; lia).
      replace (n8 + n16 <=? i) with true by (symmetry; apply Z.leb_le; lia).
      replace (1 <=? i) with true by (symmetry; apply Z.leb_le; lia).
      replace (n8 <=? i - 1) with true by (symmetry; apply Z.leb_le; lia).
      replace (i <? n8 + n16 + n32) with true by (symmetry; apply Z.ltb_lt; lia).
      reflexivity.
  - intros -> ->. unfold findVal.
    change (0 <? 0) with false. cbv iota.
    destruct (Z.ltb_spec 0 (0 + n16)) as [Hlt|Hge].
    + destruct (slice lenOfVals _ _) as [eb|]; [|reflexivity].
      rewrite bind_Return. cbv beta.
      destruct (Uint16 eb); [|reflexivity].
      rewrite bind_Return. cbv beta.
      change (0 - 1 <? 0) with true. cbv iota.
      unfold index. change (0 <=? 0 - 1) with false. reflexivity.
    + destruct (Z.ltb_spec 0 (0 + n16 + n32)) as [Hlt32|]; [|lia].
      cbv zeta.
      destruct (slice lenOfVals _ _) as [eb|]; [|reflexivity].
      rewrite bind_Return. cbv beta.
      destruct (Uint32 eb); [|reflexivity].
      rewrite bind_Return. cbv beta.
      replace (0 - 1 <? 0 + n16) with true by (symmetry; apply Z.ltb_lt; lia).
      unfold slice at 1. change (0 <=? (0 - 1) * 2 - 0) with false. reflexivity.
Qed.

Lemma findVal_is_range_lookup_witness :
  findVal [Byte.x01; Byte.x00; Byte.x03] [Byte.xaa; Byte.xab; Byte.xac] 1 1 1 0
  = findValSpec [Byte.x01; Byte.x00; Byte.x03] [Byte.xaa; Byte.xab; Byte.xac] 1 1 1 0
  /\ findVal [Byte.x01; Byte.x00] (repeat Byte.xbb 256) 0 0 1 0 = Panics.
Proof.
  split.
  - apply (findVal_is_range_lookup _ _ 1 1 1 0); lia.
  - apply (findVal_is_range_lookup _ _ 0 0 1 0); lia.
Defined.

(** ** Encoding and decoding a change-set in any order *)

(** X12.  [EncodeStorage] followed by [DecodeStorage] returns the
    change-set sorted by key, whatever the order of the input: a
    permutation of the input in ascending order of the keys.  (For 72-byte
    keys with one incarnation per address-hash, sizes that fit the format,
    a length table [findVal] follows and exceptions recorded under the
    index the decoder uses, all read on the sorted change-set.) *)
Theorem roundTrip_sorts (s : ChangeSet)
    (Hkeys : keysWellFormed (sortChanges (Changes s)) = true)
    (Hone : oneIncarnationPerAddress (sortChanges (Changes s)) = true)
    (Hfits : fitsFormat (sortChanges (Changes s)) = true)
    (Hcov : tableCovered (sortChanges (Changes s)) = true)
    (Haddr : exceptionsAddressable (sortChanges (Changes s)) = true) :
  roundTrip s = Return ({| Changes := sortChanges (Changes s); keyLen := 72 |}, None)
  /\ Permutation (sortChanges (Changes s)) (Changes s)
  /\ StronglySorted keyLe (sortChanges (Changes s)).
Proof.
  split; [|split; [apply sortChanges_perm | apply sortChanges_sorted]].
  unfold roundTrip.
  pose proof (EncodeStorage_layout s) as He. cbv zeta in He.
  rewrite (He Hkeys Hfits). cbn [bind snd].
  now apply DecodeStorage_layout.
Qed.

Lemma roundTrip_sorts_witness :
  roundTrip
    (storageSet
       [ {| Key := storageKey Byte.x02 5 Byte.x07; Value := repeat Byte.xcc (Z.to_nat 300) |};
         {| Key := storageKey Byte.x01 DefaultIncarnation Byte.x05; Value := [] |};
         {| Key := storageKey Byte.x02 5 Byte.x06; Value := [Byte.xab] |} ])
  = Return (csSample, None).
Proof.
  refine (proj1 (roundTrip_sorts
                   (storageSet
                      [ {| Key := storageKey Byte.x02 5 Byte.x07;
                           Value := repeat Byte.xcc (Z.to_nat 300) |};
                        {| Key := storageKey Byte.x01 DefaultIncarnation Byte.x05;
                           Value := [] |};
                        {| Key := storageKey Byte.x02 5 Byte.x06; Value := [Byte.xab] |} ])
                   _ _ _ _ _)); vm_compute; reflexivity.
Defined.

(** ** The offset of the trailing region, on any input *)

Lemma index_in_range (b : bytes) i :
  0 <= i < len b -> index b i = Return (nth (Z.to_nat i) b Byte.x00).
Proof.
  intros H. unfold index.
  replace ((0 <=? i) && (i <? len b)) with true
    by (symmetry; rewrite andb_true_iff, Z.leb_le, Z.ltb_lt; lia).
  reflexivity.
Qed.

Lemma index_beyond (b : bytes) i : len b <= i -> index b i = Panics.
Proof.
  intros H. unfold index. destruct (Z.ltb_spec i (len b)); [lia|].
  now rewrite andb_false_r.
Qed.

(** X13.  [calculateIncarnationPos3] on any bytes and any three bucket
    counts, a slice's capacity being taken as its length.  With no table
    entry it returns 0.  With at least one entry and bytes that hold the
    whole table (n8 + 2*n16 + 4*n32 bytes) it returns the length of the
    table plus the last entry of the table: the big-endian number in the
    last four bytes of the table when there is a 4-byte entry, else in its
    last two bytes when there is a 2-byte entry, else its last byte; this
    is the entry the table holds at its last position, a number below
    2^32.  On bytes shorter than the table it panics. *)
Theorem calculateIncarnationPos3_bounds (b : bytes) (n8 n16 n32 : Z)
    (H8 : 0 <= n8) (H16 : 0 <= n16) (H32 : 0 <= n32) :
  let T := n8 + n16 * 2 + n32 * 4 in
  let lastEntry :=
    if 0 <? n32 then beUint (firstn 4 (skipn (Z.to_nat (T - 4)) b))
    else if 0 <? n16 then beUint (firstn 2 (skipn (Z.to_nat (T - 2)) b))
    else byte.unsigned (nth (Z.to_nat (T - 1)) b Byte.x00) in
  (T = 0 -> calculateIncarnationPos3 b n8 n16 n32 = Return 0)
  /\ (0 < T -> T <= len b ->
      calculateIncarnationPos3 b n8 n16 n32 = Return (lastEntry + T)
      /\ cumEntry b n8 n16 n32 (n8 + n16 + n32 - 1) = Return lastEntry
      /\ 0 <= lastEntry < 2 ^ 32)
  /\ (0 < T -> len b < T -> calculateIncarnationPos3 b n8 n16 n32 = Panics).
Proof.
  cbv zeta.
  assert (Hentry : forall v,
            0 < n8 + n16 + n32 ->
            calculateIncarnationPos3 b n8 n16 n32 = Return (v + (n8 + n16 * 2 + n32 * 4)) ->
            cumEntry b n8 n16 n32 (n8 + n16 + n32 - 1) = Return v).
  { intros v Hpos. rewrite calculateIncarnationPos3_last by assumption.
    destruct (cumEntry b n8 n16 n32 (n8 + n16 + n32 - 1)) as [u|]; cbn [bind];
      [|discriminate].
    intros [= Hu]. f_equal. lia. }
  unfold calculateIncarnationPos3 in *.
  destruct (Z.ltb_spec 0 n32) as [P32|Z32].
  - split; [lia|]. split.
    + intros _ Hlen.
      assert (Hl : len (firstn 4 (skipn (Z.to_nat (n8 + n16 * 2 + n32 * 4 - 4)) b)) = 4).
      { pose proof (slice_eq b (n8 + n16 * 2 + n32 * 4 - 4) (n8 + n16 * 2 + n32 * 4)) as Hs.
        replace (n8 + n16 * 2 + n32 * 4 - (n8 + n16 * 2 + n32 * 4 - 4)) with 4 in Hs by lia.
        change (Z.to_nat 4) with 4%nat in Hs.
        pose proof (slice_len _ _ _ _ (Hs ltac:(lia) ltac:(lia) ltac:(lia))). lia. }
      assert (Hcalc : (s <- slice b (n8 + n16 * 2 + n32 * 4 - 4) (n8 + n16 * 2 + n32 * 4) ;;
                       v <- Uint32 s ;; Return (v + (n8 + n16 * 2 + n32 * 4)))
                      = Return (beUint (firstn 4 (skipn (Z.to_nat (n8 + n16 * 2 + n32 * 4 - 4)) b))
                                + (n8 + n16 * 2 + n32 * 4))).
      { rewrite slice_eq by lia.
        replace (n8 + n16 * 2 + n32 * 4 - (n8 + n16 * 2 + n32 * 4 - 4)) with 4 by lia.
        change (Z.to_nat 4) with 4%nat. rewrite bind_Return. cbv beta.
        rewrite Uint32_exact by exact Hl. reflexivity. }
      split; [exact Hcalc|]. split; [apply Hentry; [lia | exact Hcalc]|].
      pose proof (beUint_range (firstn 4 (skipn (Z.to_nat (n8 + n16 * 2 + n32 * 4 - 4)) b)))
        as Hr.
      rewrite Hl in Hr. exact Hr.
    + intros _ Hlen. rewrite slice_beyond by lia. reflexivity.
  - assert (n32 = 0) by lia. subst n32.
    replace (n8 + n16 * 2 + 0 * 4) with (n8 + n16 * 2) in * by lia.
    destruct (Z.ltb_spec 0 n16) as [P16|Z16].
    + split; [lia|]. split.
      * intros _ Hlen.
        assert (Hl : len (firstn 2 (skipn (Z.to_nat (n8 + n16 * 2 - 2)) b)) = 2).
        { pose proof (slice_eq b (n8 + n16 * 2 - 2) (n8 + n16 * 2)) as Hs.
          replace (n8 + n16 * 2 - (n8 + n16 * 2 - 2)) with 2 in Hs by lia.
          change (Z.to_nat 2) with 2%nat in Hs.
          pose proof (slice_len _ _ _ _ (Hs ltac:(lia) ltac:(lia) ltac:(lia))). lia. }
        assert (Hcalc : (s <- slice b (n8 + n16 * 2 - 2) (n8 + n16 * 2) ;;
                         v <- Uint16 s ;; Return (v + (n8 + n16 * 2)))
                        = Return (beUint (firstn 2 (skipn (Z.to_nat (n8 + n16 * 2 - 2)) b))
                                  + (n8 + n16 * 2))).
        { rewrite slice_eq by lia.
          replace (n8 + n16 * 2 - (n8 + n16 * 2 - 2)) with 2 by lia.
          change (Z.to_nat 2) with 2%nat. rewrite bind_Return. cbv beta.
          rewrite Uint16_exact by exact Hl. reflexivity. }
        split; [exact Hcalc|]. split; [apply Hentry; [lia | exact Hcalc]|].
        pose proof (beUint_range (firstn 2 (skipn (Z.to_nat (n8 + n16 * 2 - 2)) b))) as Hr.
        rewrite Hl in Hr. change (2 ^ (8 * 2)) with 65536 in Hr.
        change (2 ^ 32) with 4294967296. lia.
      * intros _ Hlen. rewrite slice_beyond by lia. reflexivity.
    + assert (n16 = 0) by lia. subst n16.
      replace (n8 + 0 * 2) with n8 in * by lia.
      destruct (Z.ltb_spec 0 n8) as [P8|Z8].
      * split; [lia|]. split.
        -- intros _ Hlen.
           assert (Hcalc : (e <- index b (n8 - 1) ;; Return (byte.unsigned e + n8))
                           = Return (byte.unsigned (nth (Z.to_nat (n8 - 1)) b Byte.x00) + n8)).
           { rewrite index_in_range by lia. reflexivity. }
           split; [exact Hcalc|]. split; [apply Hentry; [lia | exact Hcalc]|].
           pose proof (byte.unsigned_range (nth (Z.to_nat (n8 - 1)) b Byte.x00)) as Hr.
           change (2 ^ 8) with 256 in Hr. change (2 ^ 32) with 4294967296. lia.
        -- intros _ Hlen. rewrite index_beyond by lia. reflexivity.
      * split; [reflexivity|]. split; intros; lia.
Qed.

Lemma calculateIncarnationPos3_bounds_witness :
  calculateIncarnationPos3 [Byte.x01; Byte.x00; Byte.x03; Byte.xaa] 1 1 0 = Return (3 + 3)
  /\ cumEntry [Byte.x01; Byte.x00; Byte.x03; Byte.xaa] 1 1 0 1 = Return 3.
Proof.
  destruct (calculateIncarnationPos3_bounds [Byte.x01; Byte.x00; Byte.x03; Byte.xaa] 1 1 0)
    as (_ & H & _); try lia.
  destruct H as (Hc & He & _); [lia | vm_compute; discriminate |].
  split; [exact Hc | exact He].
Defined.

(** ** Find and a foreign address-hash *)

Lemma findAddrHash_foreign (b a : bytes) : forall n i,
  0 <= i -> 4 + 2 + 32 * (i + Z.of_nat n) <= len b -> len a <> 32 ->
  findAddrHash b a n i = Return None.
Proof.
  induction n as [|n IH]; intros i Hi Hlen Ha; cbn [findAddrHash]; [reflexivity|].
  cbv zeta. unfold_consts.
  destruct (slice_in_range b (4 + 2 + i * 32) (4 + 2 + i * 32 + 32)) as [h Hh]; try lia.
  rewrite Hh, bind_Return. cbv beta.
  pose proof (slice_len _ _ _ _ Hh) as Hl.
  replace (bytesEqual a h) with false.
  - apply IH; lia.
  - symmetry. apply bytesEqual_neq. intros ->. lia.
Qed.

(** X14.  On any input of at least 8 bytes that announces an element and
    is long enough to hold the dictionary it announces, [Find] answers a
    query whose address-hash is not 32 bytes long with the not-found
    error: no dictionary entry can match, and nothing behind the
    dictionary is read. *)
Theorem Find_foreign_address (b a k : bytes)
    (Hlen : 8 <= len b)
    (Hn : announcedElements b <> 0)
    (Hdict : 4 + 2 + 32 * beUint (firstn 2 (skipn 4 b)) <= len b)
    (Ha : len a <> 32) :
  Find b a k = Return (None, Some ErrNotFound).
Proof.
  unfold Find. unfold_consts.
  destruct (Z.eqb_spec (len b) 0); [lia|].
  destruct (Z.ltb_spec (len b) 8); [lia|].
  destruct (slice_in_range b 0 4) as [nb Hnb]; try lia.
  rewrite Hnb, bind_Return. cbv beta.
  pose proof (slice_prefix _ _ _ Hnb) as Hpre. change (Z.to_nat 4) with 4%nat in Hpre.
  pose proof (slice_len _ _ _ _ Hnb) as Hl4.
  rewrite (Uint32_exact nb) by lia. rewrite bind_Return. cbv beta.
  assert (Hann : announcedElements b = beUint nb) by (unfold announcedElements; now rewrite Hpre).
  rewrite <- Hann.
  destruct (Z.eqb_spec (announcedElements b) 0); [contradiction|].
  rewrite (slice_eq b 4 (4 + 2)) by lia.
  rewrite bind_Return. cbv beta.
  change (Z.to_nat (4 + 2 - 4)) with 2%nat. change (Z.to_nat 4) with 4%nat.
  assert (Hl2 : len (firstn 2 (skipn 4 b)) = 2).
  { unfold len in *. rewrite length_firstn, length_skipn. lia. }
  rewrite (Uint16_exact _ Hl2). rewrite bind_Return. cbv beta.
  pose proof (beUint_range (firstn 2 (skipn 4 b))) as Hr.
  rewrite findAddrHash_foreign; [reflexivity | lia | | exact Ha].
  rewrite Z2Nat.id by lia. lia.
Qed.

Lemma Find_foreign_address_witness :
  Find (encoded csSample) [Byte.x02] (hash32 Byte.x07) = Return (None, Some ErrNotFound).
Proof.
  apply Find_foreign_address.
  - vm_compute. discriminate.
  - vm_compute. discriminate.
  - vm_compute. discriminate.
  - vm_compute. discriminate.
Defined.
